(** * SymSpell: a shallow embedding of the Go sources and their properties

    The development follows the packages of the repository:
    - [editdistance]: the Damerau-Levenshtein kernels (plain and bounded,
      on bytes and on runes);
    - [internal] (symspell.go): the dictionary store, the delete
      enumeration and the packed delete index;
    - [internal] (lru.go, lookup.go): the top-result cache and [Lookup].

    Conventions.
    - Go's [int] is the 64-bit two's-complement integer: a [Z] together
      with [wrap] at every operation that can leave the range.
      [uint32] and [uint64] wrap with [u32] and [u64].
    - A Go [string] is its byte sequence, a [list ascii]; a [rune] is a
      [Z].  [runes] is the conversion [[]rune(s)] and [string_of_runes]
      is [string(rs)], both with Go's treatment of invalid input.
    - A run-time panic (index out of range) is the outcome [Panic]; a
      loop whose trip count is not fixed in advance runs on fuel and
      reports [NoFuel] when it is exhausted. *)

From Stdlib Require Import ZArith Lia Ascii String Bool List.
From stdpp Require Import base tactics option list list_numbers gmap strings sorting.

Open Scope Z_scope.

(** ** Machine integers *)

Definition int_min : Z := -9223372036854775808.      (* - 2^63 *)
Definition int_max : Z := 9223372036854775807.       (* 2^63 - 1 *)
Definition maxUint32 : Z := 4294967295.              (* 2^32 - 1 *)

Definition wrap (z : Z) : Z :=
  (z + 9223372036854775808) mod 18446744073709551616 - 9223372036854775808.
Definition u32 (z : Z) : Z := z mod 4294967296.
Definition u64 (z : Z) : Z := z mod 18446744073709551616.

Definition add (x y : Z) : Z := wrap (x + y).
Definition sub (x y : Z) : Z := wrap (x - y).
Definition neg (x : Z) : Z := wrap (- x).
Definition mul (x y : Z) : Z := wrap (x * y).

Definition is_int (z : Z) : Prop := int_min <= z <= int_max.
Definition is_u32 (z : Z) : Prop := 0 <= z <= maxUint32.

(** ** Outcomes of a run *)

Inductive run (A : Type) : Type :=
| Val (a : A)
| Panic
| NoFuel.
Arguments Val {A} a.
Arguments Panic {A}.
Arguments NoFuel {A}.

Definition run_bind {A B : Type} (f : A -> run B) (x : run A) : run B :=
  match x with
  | Val a => f a
  | Panic => Panic
  | NoFuel => NoFuel
  end.

#[global] Instance run_mret : MRet run := fun A a => Val a.
#[global] Instance run_mbind : MBind run := fun A B f x => run_bind f x.

(** ** Slices: indexed reads and writes with Go's bounds check *)

Definition len {A : Type} (s : list A) : Z := Z.of_nat (length s).

Definition rd {A : Type} (s : list A) (i : Z) : run A :=
  if decide (0 <= i)
  then match s !! Z.to_nat i with Some x => Val x | None => Panic end
  else Panic.

Definition wr {A : Type} (s : list A) (i : Z) (x : A) : run (list A) :=
  if decide (0 <= i < len s) then Val (<[Z.to_nat i := x]> s) else Panic.

(** [s[lo:hi]] and [s[lo:]] *)
Definition slice {A : Type} (s : list A) (lo hi : Z) : run (list A) :=
  if decide (0 <= lo <= hi /\ hi <= len s)
  then Val (take (Z.to_nat (hi - lo)) (drop (Z.to_nat lo) s))
  else Panic.

Definition slice_from {A : Type} (s : list A) (lo : Z) : run (list A) :=
  slice s lo (len s).

(** ** Counted loops

    [for j := lo; j <= hi; j++ { body }] runs [body] for
    [Z.to_nat (hi - lo + 1)] consecutive values of [j]; the second form
    lets the body leave the enclosing function with a value. *)

Fixpoint for_loop {S : Type} (cnt : nat) (j : Z)
    (body : Z -> S -> run S) (s : S) : run S :=
  match cnt with
  | O => Val s
  | Datatypes.S c => s' ← body j s; for_loop c (j + 1) body s'
  end.

Fixpoint for_loop_ret {S R : Type} (cnt : nat) (j : Z)
    (body : Z -> S -> run (S + R)) (s : S) : run (S + R) :=
  match cnt with
  | O => Val (inl s)
  | Datatypes.S c =>
      o ← body j s;
      match o with
      | inl s' => for_loop_ret c (j + 1) body s'
      | inr r => Val (inr r)
      end
  end.

Definition trips (lo hi : Z) : nat := Z.to_nat (hi - lo + 1).

(** ** UTF-8: [[]rune(s)], [string(rs)], [utf8.RuneCountInString] *)

Definition byte_val (c : ascii) : Z := Z.of_N (N_of_ascii c).
Definition byte_of (z : Z) : ascii := ascii_of_N (Z.to_N z).

Definition RuneError : Z := 65533.
Definition RuneSelf : Z := 128.
Definition MaxRune : Z := 1114111.

Definition in_range (lo hi x : Z) : bool := (lo <=? x) && (x <=? hi).

(** Size of the sequence announced by a leading byte and the range
    accepted for its second byte ([first] and [acceptRanges] of
    unicode/utf8); [None] for a byte that cannot start a sequence. *)
Definition lead (b0 : Z) : option (nat * Z * Z) :=
  if in_range 194 223 b0 then Some (2%nat, 128, 191)
  else if b0 =? 224 then Some (3%nat, 160, 191)
  else if in_range 225 236 b0 then Some (3%nat, 128, 191)
  else if b0 =? 237 then Some (3%nat, 128, 159)
  else if in_range 238 239 b0 then Some (3%nat, 128, 191)
  else if b0 =? 240 then Some (4%nat, 144, 191)
  else if in_range 241 243 b0 then Some (4%nat, 128, 191)
  else if b0 =? 244 then Some (4%nat, 128, 143)
  else None.

(** [utf8.DecodeRuneInString] on a non-empty string: the rune and its
    width. *)
Definition decodeRune (c0 : ascii) (s : list ascii) : Z * nat :=
  let b0 := byte_val c0 in
  if b0 <? RuneSelf then (b0, 1%nat)
  else match lead b0 with
  | None => (RuneError, 1%nat)
  | Some (sz, lo, hi) =>
    match s with
    | c1 :: s1 =>
      let b1 := byte_val c1 in
      if negb (in_range lo hi b1) then (RuneError, 1%nat)
      else match sz with
      | 2%nat => ((b0 mod 32) * 64 + b1 mod 64, 2%nat)
      | _ =>
        match s1 with
        | c2 :: s2 =>
          let b2 := byte_val c2 in
          if negb (in_range 128 191 b2) then (RuneError, 1%nat)
          else match sz with
          | 3%nat => ((b0 mod 16) * 4096 + (b1 mod 64) * 64 + b2 mod 64, 3%nat)
          | _ =>
            match s2 with
            | c3 :: _ =>
              let b3 := byte_val c3 in
              if negb (in_range 128 191 b3) then (RuneError, 1%nat)
              else ((b0 mod 8) * 262144 + (b1 mod 64) * 4096
                    + (b2 mod 64) * 64 + b3 mod 64, 4%nat)
            | [] => (RuneError, 1%nat)
            end
          end
        | [] => (RuneError, 1%nat)
        end
      end
    | [] => (RuneError, 1%nat)
    end
  end.

(** The range loop over a string: decode at the current position, then
    step over the bytes of that rune. *)
Fixpoint runes_skip (skip : nat) (s : list ascii) : list Z :=
  match s with
  | [] => []
  | c :: s' =>
    match skip with
    | Datatypes.S k => runes_skip k s'
    | O => let '(r, w) := decodeRune c s' in r :: runes_skip (Nat.pred w) s'
    end
  end.

Definition runes (s : list ascii) : list Z := runes_skip 0 s.

Definition RuneCountInString (s : list ascii) : Z := len (runes s).

(** [utf8.EncodeRune] / [string(rune)] *)
Definition encodeRune (r : Z) : list ascii :=
  if in_range 0 127 r then [byte_of r]
  else if in_range 128 2047 r then
    [byte_of (192 + r / 64); byte_of (128 + r mod 64)]
  else if negb (in_range 0 MaxRune r) || in_range 55296 57343 r then
    [byte_of 239; byte_of 191; byte_of 189]
  else if r <=? 65535 then
    [byte_of (224 + r / 4096); byte_of (128 + (r / 64) mod 64);
     byte_of (128 + r mod 64)]
  else
    [byte_of (240 + r / 262144); byte_of (128 + (r / 4096) mod 64);
     byte_of (128 + (r / 64) mod 64); byte_of (128 + r mod 64)].

Definition string_of_runes (rs : list Z) : list ascii :=
  concat (encodeRune <$> rs).

Fixpoint isASCII (s : list ascii) : bool :=
  match s with
  | [] => true
  | c :: s' => if RuneSelf <=? byte_val c then false else isASCII s'
  end.

Definition str (s : string) : list ascii := list_ascii_of_string s.


(** ** Package editdistance

    [getIntSlice size] hands out either a fresh zeroed slice or a
    recycled one cut to [size], whose cells keep whatever an earlier
    call left there.  [pooled] is the value taken from [intSlicePool]
    (the empty slice when the pool is empty). *)

Definition getIntSlice (pooled : list Z) (size : Z) : list Z :=
  if len pooled <? size
  then replicate (Z.to_nat size) 0
  else take (Z.to_nat size) pooled.

(** The three values the pool yields for prev2, prev and curr. *)
Record pool3 : Type := Pool3 { pool_a : list Z; pool_b : list Z; pool_c : list Z }.

Definition fresh_pool : pool3 := Pool3 [] [] [].

Section Kernel.
(** The element type is [byte] for the string kernels and [rune] for
    the rune kernels; [ceq] is [==] on it. *)
Context {C : Type} (ceq : C -> C -> bool).

(** The body of the column loop, shared by the four kernels: the
    value stored into [curr[j]]. *)
Definition dlCell (a b : list C) (prev2 prev curr : list Z) (i j : Z) : run Z :=
  ai ← rd a (i - 1);
  bj ← rd b (j - 1);
  let cost := if ceq ai bj then 0 else 1 in
  pj ← rd prev j;
  let del := add pj 1 in
  cj1 ← rd curr (j - 1);
  let ins := add cj1 1 in
  pj1 ← rd prev (j - 1);
  let sub := add pj1 cost in
  let dist := Z.min del (Z.min ins sub) in
  if (1 <? i) && (1 <? j) then
    bj2 ← rd b (j - 2);
    if ceq ai bj2 then
      ai2 ← rd a (i - 2);
      if ceq ai2 bj then
        p2 ← rd prev2 (j - 2);
        let trans := add p2 cost in
        Val (if trans <? dist then trans else dist)
      else Val dist
    else Val dist
  else Val dist.

Definition rows : Type := list Z * list Z * list Z.

Definition dlRow (a b : list C) (n : Z) (i : Z) (st : rows) : run rows :=
  let '(prev2, prev, curr) := st in
  curr ← wr curr 0 i;
  curr ← for_loop (trips 1 n) 1
            (fun j curr => dist ← dlCell a b prev2 prev curr i j; wr curr j dist)
            curr;
  Val (prev, curr, prev2).

Definition dlDistance (p : pool3) (a b : list C) : run Z :=
  let m := len a in
  let n := len b in
  if m =? 0 then Val n
  else if n =? 0 then Val m
  else
    let prev2 := getIntSlice (pool_a p) (add n 1) in
    let prev := getIntSlice (pool_b p) (add n 1) in
    let curr := getIntSlice (pool_c p) (add n 1) in
    prev ← for_loop (trips 0 n) 0 (fun j prev => wr prev j j) prev;
    '(prev2, prev, curr) ← for_loop (trips 1 m) 1 (dlRow a b n) (prev2, prev, curr);
    rd prev n.

Definition dlRowMax (a b : list C) (n k limit : Z) (i : Z) (st : rows)
    : run (rows + Z) :=
  let '(prev2, prev, curr) := st in
  curr ← wr curr 0 i;
  let jStart := if k <? i then sub i k else 1 in
  let jEnd := if add i k <? n then add i k else n in
  curr ← (if 1 <? jStart then wr curr (sub jStart 1) limit else Val curr);
  '(curr, rowMin) ←
    for_loop (trips jStart jEnd) jStart
      (fun j '(curr, rowMin) =>
         dist ← dlCell a b prev2 prev curr i j;
         curr ← wr curr j dist;
         Val (curr, if dist <? rowMin then dist else rowMin))
      (curr, limit);
  if k <? rowMin then Val (inr (add k 1))
  else
    curr ← (if jEnd <? n then wr curr (add jEnd 1) limit else Val curr);
    Val (inl (prev, curr, prev2)).

Definition dlDistanceMax (p : pool3) (a b : list C) (k : Z) : run Z :=
  let m := len a in
  let n := len b in
  if m =? 0 then (if n <=? k then Val n else Val (add k 1))
  else if n =? 0 then (if m <=? k then Val m else Val (add k 1))
  else
    let d := sub m n in
    if (k <? d) || (d <? neg k) then Val (add k 1)
    else
      let prev2 := getIntSlice (pool_a p) (add n 1) in
      let prev := getIntSlice (pool_b p) (add n 1) in
      let curr := getIntSlice (pool_c p) (add n 1) in
      let limit := add k 1 in
      prev ← for_loop (trips 0 n) 0
                (fun j prev => wr prev j (if j <=? k then j else limit)) prev;
      o ← for_loop_ret (trips 1 m) 1 (dlRowMax a b n k limit) (prev2, prev, curr);
      match o with
      | inr r => Val r
      | inl (prev2, prev, curr) =>
          pn ← rd prev n;
          if k <? pn then Val (add k 1) else Val pn
      end.
End Kernel.

Definition damerauLevenshteinDistance (p : pool3) (a b : list ascii) : run Z :=
  dlDistance Ascii.eqb p a b.

Definition damerauLevenshteinDistanceMax (p : pool3) (a b : list ascii) (k : Z) : run Z :=
  dlDistanceMax Ascii.eqb p a b k.

Definition damerauLevenshteinDistanceRunes (p : pool3) (a b : list Z) : run Z :=
  dlDistance Z.eqb p a b.

Definition damerauLevenshteinDistanceMaxRunes (p : pool3) (a b : list Z) (k : Z) : run Z :=
  dlDistanceMax Z.eqb p a b k.

Definition DamerauLevenshtein : list ascii := str "DamerauLevenshtein".

Record EditDistance : Type := { Type_ : list ascii }.

Definition NewEditDistance (t : list ascii) : EditDistance := {| Type_ := t |}.

Definition Distance (d : EditDistance) (p : pool3) (a b : list ascii) : run Z :=
  if decide (Type_ d = DamerauLevenshtein) then
    if isASCII a && isASCII b then damerauLevenshteinDistance p a b
    else damerauLevenshteinDistanceRunes p (runes a) (runes b)
  else Val 0.

Definition DistanceMax (d : EditDistance) (p : pool3) (a b : list ascii)
    (maxDistance : Z) : run Z :=
  if decide (Type_ d = DamerauLevenshtein) then
    if isASCII a && isASCII b then damerauLevenshteinDistanceMax p a b maxDistance
    else damerauLevenshteinDistanceMaxRunes p (runes a) (runes b) maxDistance
  else Val 0.

(** ** The distance matrix

    [dlD a b i j] is the cell [(i, j)] of the full matrix that
    [damerauLevenshteinDistance] fills row by row: the distance between
    the first [i] elements of [a] and the first [j] elements of [b]. *)

Section Matrix.
Context {C : Type} (ceq : C -> C -> bool).

Definition same (a b : list C) (i j : nat) : bool :=
  match a !! i, b !! j with
  | Some x, Some y => ceq x y
  | _, _ => false
  end.

Definition cost_of (a b : list C) (i j : nat) : Z :=
  if same a b i j then 0 else 1.

Fixpoint dlD (a b : list C) (i : nat) {struct i} : nat -> Z :=
  match i with
  | O => fun j => Z.of_nat j
  | Datatypes.S i' =>
      fix row (j : nat) : Z :=
        match j with
        | O => Z.of_nat (Datatypes.S i')
        | Datatypes.S j' =>
            let cost := cost_of a b i' j' in
            let dist :=
              Z.min (dlD a b i' (Datatypes.S j') + 1)
                    (Z.min (row j' + 1) (dlD a b i' j' + cost)) in
            match i', j' with
            | Datatypes.S i'', Datatypes.S j'' =>
                if same a b i' j'' && same a b i'' j'
                then Z.min dist (dlD a b i'' j'' + cost)
                else dist
            | _, _ => dist
            end
        end
  end.
End Matrix.

(** ** Package internal: the dictionary store (symspell.go) *)

(** Modelled from the spec: package [items] is not among the sources;
    the result record is [{ term: string, distance: int, count: int }]. *)
Record SuggestItem : Type := Item {
  Term : list ascii;
  Distance_ : Z;
  Count : Z
}.

#[global] Instance SuggestItem_eq_dec : EqDecision SuggestItem.
Proof. solve_decision. Defined.

(** Modelled from the spec: package [verbosity] is not among the
    sources; verbosity is one of Top, Closest, All. *)
Inductive Verbosity : Type := Top | Closest | All.

#[global] Instance Verbosity_eq_dec : EqDecision Verbosity.
Proof. solve_decision. Defined.

(** lru.go: the recency list, most recent first.  The Go code keeps a
    map from key to list element beside the list; the list alone
    determines it. *)
Record cacheEntry : Type := CacheEntry { key : list ascii; val : SuggestItem }.

Record topCache : Type := TopCache {
  capacity : Z;
  ll : list cacheEntry
}.

Definition newTopCache (capacity : Z) : topCache :=
  {| capacity := capacity; ll := [] |}.

Record SymspellOptions : Type := {
  opt_MaxDictionaryEditDistance : Z;
  opt_PrefixLength : Z;
  opt_CountThreshold : Z;
  opt_FrequencyThreshold : Z;
  opt_FrequencyMultiplier : Z
}.

Definition DefaultOptions : SymspellOptions := {|
  opt_MaxDictionaryEditDistance := 2;
  opt_PrefixLength := 7;
  opt_CountThreshold := 1;
  opt_FrequencyThreshold := 1000;
  opt_FrequencyMultiplier := 10
|}.

(** The fields of [SymSpell] that the dictionary and [Lookup] use; the
    splitting options and the bigram data of the compound lookup are
    left out. *)
Record SymSpell : Type := {
  MaxDictionaryEditDistance : Z;
  PrefixLength : Z;
  CountThreshold : Z;
  FrequencyThreshold : Z;
  FrequencyMultiplier : Z;
  Words : gmap (list ascii) Z;
  BelowThresholdWords : gmap (list ascii) Z;
  DeletesIdx : gmap (list ascii) Z;
  DeletesData : list Z;
  words : list (list ascii);
  counts : list Z;
  maxLength : Z;
  distanceComparer : EditDistance;
  cache : topCache
}.

Definition set_Words (s : SymSpell) (w : gmap (list ascii) Z) : SymSpell :=
  {| MaxDictionaryEditDistance := MaxDictionaryEditDistance s;
     PrefixLength := PrefixLength s; CountThreshold := CountThreshold s;
     FrequencyThreshold := FrequencyThreshold s;
     FrequencyMultiplier := FrequencyMultiplier s;
     Words := w; BelowThresholdWords := BelowThresholdWords s;
     DeletesIdx := DeletesIdx s; DeletesData := DeletesData s;
     words := words s; counts := counts s; maxLength := maxLength s;
     distanceComparer := distanceComparer s; cache := cache s |}.

Definition set_BelowThresholdWords (s : SymSpell) (w : gmap (list ascii) Z) : SymSpell :=
  {| MaxDictionaryEditDistance := MaxDictionaryEditDistance s;
     PrefixLength := PrefixLength s; CountThreshold := CountThreshold s;
     FrequencyThreshold := FrequencyThreshold s;
     FrequencyMultiplier := FrequencyMultiplier s;
     Words := Words s; BelowThresholdWords := w;
     DeletesIdx := DeletesIdx s; DeletesData := DeletesData s;
     words := words s; counts := counts s; maxLength := maxLength s;
     distanceComparer := distanceComparer s; cache := cache s |}.

Definition set_Deletes (s : SymSpell) (ix : gmap (list ascii) Z) (data : list Z) : SymSpell :=
  {| MaxDictionaryEditDistance := MaxDictionaryEditDistance s;
     PrefixLength := PrefixLength s; CountThreshold := CountThreshold s;
     FrequencyThreshold := FrequencyThreshold s;
     FrequencyMultiplier := FrequencyMultiplier s;
     Words := Words s; BelowThresholdWords := BelowThresholdWords s;
     DeletesIdx := ix; DeletesData := data;
     words := words s; counts := counts s; maxLength := maxLength s;
     distanceComparer := distanceComparer s; cache := cache s |}.

Definition set_words (s : SymSpell) (w : list (list ascii)) : SymSpell :=
  {| MaxDictionaryEditDistance := MaxDictionaryEditDistance s;
     PrefixLength := PrefixLength s; CountThreshold := CountThreshold s;
     FrequencyThreshold := FrequencyThreshold s;
     FrequencyMultiplier := FrequencyMultiplier s;
     Words := Words s; BelowThresholdWords := BelowThresholdWords s;
     DeletesIdx := DeletesIdx s; DeletesData := DeletesData s;
     words := w; counts := counts s; maxLength := maxLength s;
     distanceComparer := distanceComparer s; cache := cache s |}.

Definition set_counts (s : SymSpell) (c : list Z) : SymSpell :=
  {| MaxDictionaryEditDistance := MaxDictionaryEditDistance s;
     PrefixLength := PrefixLength s; CountThreshold := CountThreshold s;
     FrequencyThreshold := FrequencyThreshold s;
     FrequencyMultiplier := FrequencyMultiplier s;
     Words := Words s; BelowThresholdWords := BelowThresholdWords s;
     DeletesIdx := DeletesIdx s; DeletesData := DeletesData s;
     words := words s; counts := c; maxLength := maxLength s;
     distanceComparer := distanceComparer s; cache := cache s |}.

Definition set_maxLength (s : SymSpell) (n : Z) : SymSpell :=
  {| MaxDictionaryEditDistance := MaxDictionaryEditDistance s;
     PrefixLength := PrefixLength s; CountThreshold := CountThreshold s;
     FrequencyThreshold := FrequencyThreshold s;
     FrequencyMultiplier := FrequencyMultiplier s;
     Words := Words s; BelowThresholdWords := BelowThresholdWords s;
     DeletesIdx := DeletesIdx s; DeletesData := DeletesData s;
     words := words s; counts := counts s; maxLength := n;
     distanceComparer := distanceComparer s; cache := cache s |}.

Definition set_cache (s : SymSpell) (c : topCache) : SymSpell :=
  {| MaxDictionaryEditDistance := MaxDictionaryEditDistance s;
     PrefixLength := PrefixLength s; CountThreshold := CountThreshold s;
     FrequencyThreshold := FrequencyThreshold s;
     FrequencyMultiplier := FrequencyMultiplier s;
     Words := Words s; BelowThresholdWords := BelowThresholdWords s;
     DeletesIdx := DeletesIdx s; DeletesData := DeletesData s;
     words := words s; counts := counts s; maxLength := maxLength s;
     distanceComparer := distanceComparer s; cache := c |}.

(** [NewSymSpell], on the options after every [Apply]. *)
Definition NewSymSpell (opts : SymspellOptions) : SymSpell + string :=
  if opt_MaxDictionaryEditDistance opts <? 0 then
    inr "maxDictionaryEditDistance cannot be negative"%string
  else if opt_PrefixLength opts <? 1 then
    inr "prefixLength cannot be less than 1"%string
  else if opt_PrefixLength opts <=? opt_MaxDictionaryEditDistance opts then
    inr "prefixLength must be greater than maxDictionaryEditDistance"%string
  else if opt_CountThreshold opts <? 0 then
    inr "countThreshold cannot be negative"%string
  else if opt_FrequencyThreshold opts <? 0 then
    inr "frequencyThreshold cannot be negative"%string
  else if opt_FrequencyMultiplier opts <=? 1 then
    inr "frequencyMultiplier must be greater than 1"%string
  else inl {|
    MaxDictionaryEditDistance := opt_MaxDictionaryEditDistance opts;
    PrefixLength := opt_PrefixLength opts;
    CountThreshold := opt_CountThreshold opts;
    FrequencyThreshold := opt_FrequencyThreshold opts;
    FrequencyMultiplier := opt_FrequencyMultiplier opts;
    Words := ∅;
    BelowThresholdWords := ∅;
    DeletesIdx := ∅;
    DeletesData := [];
    words := [];
    counts := [];
    maxLength := 0;
    distanceComparer := NewEditDistance DamerauLevenshtein;
    cache := newTopCache 128
  |}.

(** All arguments and the result are [uint32]. *)
Definition incrementCount (count countPrevious : Z) : Z :=
  if count <? u32 (maxUint32 - countPrevious)
  then u32 (countPrevious + count)
  else maxUint32.

(** [addWordEntry]: the outcome of the two lookups that precede the
    insertion is either the (possibly accumulated) count to go on
    with, or the state to return with [false]. *)
Definition addWordEntry_merge (s : SymSpell) (key : list ascii) (count : Z)
    : run (SymSpell * Z + SymSpell) :=
  if 1 <? CountThreshold s then
    match BelowThresholdWords s !! key with
    | Some countPrev =>
        let count := incrementCount count countPrev in
        if count <? CountThreshold s then
          Val (inr (set_BelowThresholdWords s (<[key := count]> (BelowThresholdWords s))))
        else
          Val (inl (set_BelowThresholdWords s (delete key (BelowThresholdWords s)), count))
    | None => Val (inl (s, count))
    end
  else
    match Words s !! key with
    | Some idx =>
        c ← rd (counts s) idx;
        cs ← wr (counts s) idx (incrementCount count c);
        Val (inr (set_counts s cs))
    | None => Val (inl (s, count))
    end.

Definition addWordEntry (s : SymSpell) (key : list ascii) (count : Z)
    : run (SymSpell * bool) :=
  if (count =? 0) && (0 <? CountThreshold s) then Val (s, false)
  else
    o ← addWordEntry_merge s key count;
    match o with
    | inr s => Val (s, false)
    | inl (s, count) =>
        if count <? CountThreshold s then
          Val (set_BelowThresholdWords s (<[key := count]> (BelowThresholdWords s)), false)
        else
          let index := u32 (len (words s)) in
          let s := set_words s (words s ++ [key]) in
          let s := set_counts s (counts s ++ [count]) in
          let s := set_Words s (<[key := index]> (Words s)) in
          let s := if maxLength s <? len key then set_maxLength s (len key) else s in
          Val (s, true)
    end.

(** [edits]: the recursion goes one level deeper only while
    [editDistance < MaxDictionaryEditDistance], so
    [MaxDictionaryEditDistance + 1] levels of fuel are enough. *)
Fixpoint edits (fuel : nat) (s : SymSpell) (word : list ascii) (editDistance : Z)
    (deleteWords : gset (list ascii)) (currentDistance : Z) : run (gset (list ascii)) :=
  match fuel with
  | O => NoFuel
  | Datatypes.S fuel' =>
      let editDistance := add editDistance 1 in
      let rs := runes word in
      if len rs =? 0 then
        if RuneCountInString word <=? MaxDictionaryEditDistance s
        then Val ({[ [] ]} ∪ deleteWords)
        else Val deleteWords
      else
        for_loop (trips currentDistance (len rs - 1)) currentDistance
          (fun i deleteWords =>
             pre ← slice rs 0 i;
             post ← slice_from rs (i + 1);
             let deleteWord := string_of_runes pre ++ string_of_runes post in
             let deleteWords := {[ deleteWord ]} ∪ deleteWords in
             if editDistance <? MaxDictionaryEditDistance s
             then edits fuel' s deleteWord editDistance deleteWords i
             else Val deleteWords)
          deleteWords
  end.

Definition truncateKey (s : SymSpell) (key : list ascii) : run (list ascii) :=
  let rs := runes key in
  if PrefixLength s <? len rs
  then pre ← slice rs 0 (PrefixLength s); Val (string_of_runes pre)
  else Val key.

Definition editsPrefix (s : SymSpell) (key : list ascii) : run (gset (list ascii)) :=
  let hashSet : gset (list ascii) :=
    if RuneCountInString key <=? MaxDictionaryEditDistance s then {[ [] ]} else ∅ in
  key ← truncateKey s key;
  let hashSet := {[ key ]} ∪ hashSet in
  edits (Datatypes.S (Z.to_nat (MaxDictionaryEditDistance s))) s key 0 hashSet 0.

(** The packed entry of [DeletesIdx]: offset in the high half, length
    in the low half of a [uint64]. *)
Definition pack (offset length : Z) : Z :=
  Z.lor (u64 (Z.shiftl offset 32)) length.
Definition unpack_offset (v : Z) : Z := u32 (Z.shiftr v 32).
Definition unpack_length (v : Z) : Z := u32 v.

(** [copy(dst, src)] where [dst = data[at:]]. *)
Definition copy_at (data : list Z) (at_ : Z) (src : list Z) : run (list Z) :=
  dst ← slice_from data at_;
  let n := Nat.min (length dst) (length src) in
  Val (take (Z.to_nat at_) data ++ take n src ++ drop n dst).

Definition addDelete (index : Z) (s : SymSpell) (deleteWord : list ascii) : run SymSpell :=
  match DeletesIdx s !! deleteWord with
  | Some v =>
      let offset := unpack_offset v in
      let length := unpack_length v in
      let insertPos := u32 (offset + length) in
      let data := DeletesData s ++ [0] in
      src ← slice_from data insertPos;
      data ← copy_at data (u32 (insertPos + 1)) src;
      data ← wr data insertPos index;
      let ix := map_imap (fun k val =>
                  Some (if decide (k = deleteWord) then val
                        else
                          let o := unpack_offset val in
                          let l := unpack_length val in
                          if insertPos <=? o then pack (u32 (o + 1)) l else val))
                  (DeletesIdx s) in
      let ix := <[deleteWord := pack offset (u32 (length + 1))]> ix in
      Val (set_Deletes s ix data)
  | None =>
      let offset := u32 (len (DeletesData s)) in
      Val (set_Deletes s (<[deleteWord := pack offset 1]> (DeletesIdx s))
             (DeletesData s ++ [index]))
  end.

Fixpoint foldM {A S : Type} (f : S -> A -> run S) (s : S) (l : list A) : run S :=
  match l with
  | [] => Val s
  | x :: l' => s' ← f s x; foldM f s' l'
  end.

(** Go leaves the order of a range over a map open; the model visits
    the delete words in the order of [elements].  The runs of
    [DeletesData] depend on that order, the postings of each delete
    word do not. *)
Definition addDeletesForIndex (s : SymSpell) (key : list ascii) (index : Z) : run SymSpell :=
  es ← editsPrefix s key;
  foldM (addDelete index) s (elements es).

Definition createDictionaryEntry (s : SymSpell) (key : list ascii) (count : Z)
    : run (SymSpell * bool) :=
  '(s, ok) ← addWordEntry s key count;
  if negb ok then Val (s, false)
  else
    let index := u32 (len (words s) - 1) in
    s ← addDeletesForIndex s key index;
    Val (s, true).

(** ** Package internal: the lookup (lru.go, lookup.go) *)

(** *** The top-result cache *)

Fixpoint cache_find (l : list cacheEntry) (k : list ascii) : option (nat * SuggestItem) :=
  match l with
  | [] => None
  | e :: l' =>
      if decide (key e = k) then Some (0%nat, val e)
      else match cache_find l' k with
           | Some (i, v) => Some (Datatypes.S i, v)
           | None => None
           end
  end.

(** [topCache.Get]: a hit moves the entry to the front. *)
Definition cache_Get (c : topCache) (k : list ascii) : topCache * option SuggestItem :=
  match cache_find (ll c) k with
  | Some (i, v) =>
      ({| capacity := capacity c;
          ll := CacheEntry k v :: delete i (ll c) |}, Some v)
  | None => (c, None)
  end.

(** [topCache.Add] *)
Definition cache_Add (c : topCache) (k : list ascii) (v : SuggestItem) : topCache :=
  match cache_find (ll c) k with
  | Some (i, _) =>
      {| capacity := capacity c; ll := CacheEntry k v :: delete i (ll c) |}
  | None =>
      let l := CacheEntry k v :: ll c in
      if capacity c <? len l
      then {| capacity := capacity c; ll := removelast l |}
      else {| capacity := capacity c; ll := l |}
  end.

(** *** The candidate processor *)

Record candidateProcessor : Type := {
  candidates : list (list ascii);
  consideredDeletes : gset (list ascii);
  consideredSuggestions : gset (list ascii);
  maxEditDistance2 : Z;
  candidatePointer : Z;
  verbosity : Verbosity;
  phraseLen : Z;
  phrase : list ascii;
  phraseRunes : list Z;
  unicode : bool;
  candidateLen : Z;
  candidateRunes : list Z;
  distance : Z;
  minDistance : Z;
  suggestions : list SuggestItem;
  suggestionLen : Z;
  suggestionRunes : list Z;
  lenDiff : Z
}.

Definition set_candidates (cp : candidateProcessor) (x : list (list ascii)) : candidateProcessor :=
  {| candidates := x;
     consideredDeletes := consideredDeletes cp;
     consideredSuggestions := consideredSuggestions cp;
     maxEditDistance2 := maxEditDistance2 cp;
     candidatePointer := candidatePointer cp;
     verbosity := verbosity cp;
     phraseLen := phraseLen cp;
     phrase := phrase cp;
     phraseRunes := phraseRunes cp;
     unicode := unicode cp;
     candidateLen := candidateLen cp;
     candidateRunes := candidateRunes cp;
     distance := distance cp;
     minDistance := minDistance cp;
     suggestions := suggestions cp;
     suggestionLen := suggestionLen cp;
     suggestionRunes := suggestionRunes cp;
     lenDiff := lenDiff cp |}.

Definition set_consideredDeletes (cp : candidateProcessor) (x : gset (list ascii)) : candidateProcessor :=
  {| candidates := candidates cp;
     consideredDeletes := x;
     consideredSuggestions := consideredSuggestions cp;
     maxEditDistance2 := maxEditDistance2 cp;
     candidatePointer := candidatePointer cp;
     verbosity := verbosity cp;
     phraseLen := phraseLen cp;
     phrase := phrase cp;
     phraseRunes := phraseRunes cp;
     unicode := unicode cp;
     candidateLen := candidateLen cp;
     candidateRunes := candidateRunes cp;
     distance := distance cp;
     minDistance := minDistance cp;
     suggestions := suggestions cp;
     suggestionLen := suggestionLen cp;
     suggestionRunes := suggestionRunes cp;
     lenDiff := lenDiff cp |}.

Definition set_consideredSuggestions (cp : candidateProcessor) (x : gset (list ascii)) : candidateProcessor :=
  {| candidates := candidates cp;
     consideredDeletes := consideredDeletes cp;
     consideredSuggestions := x;
     maxEditDistance2 := maxEditDistance2 cp;
     candidatePointer := candidatePointer cp;
     verbosity := verbosity cp;
     phraseLen := phraseLen cp;
     phrase := phrase cp;
     phraseRunes := phraseRunes cp;
     unicode := unicode cp;
     candidateLen := candidateLen cp;
     candidateRunes := candidateRunes cp;
     distance := distance cp;
     minDistance := minDistance cp;
     suggestions := suggestions cp;
     suggestionLen := suggestionLen cp;
     suggestionRunes := suggestionRunes cp;
     lenDiff := lenDiff cp |}.

Definition set_maxEditDistance2 (cp : candidateProcessor) (x : Z) : candidateProcessor :=
  {| candidates := candidates cp;
     consideredDeletes := consideredDeletes cp;
     consideredSuggestions := consideredSuggestions cp;
     maxEditDistance2 := x;
     candidatePointer := candidatePointer cp;
     verbosity := verbosity cp;
     phraseLen := phraseLen cp;
     phrase := phrase cp;
     phraseRunes := phraseRunes cp;
     unicode := unicode cp;
     candidateLen := candidateLen cp;
     candidateRunes := candidateRunes cp;
     distance := distance cp;
     minDistance := minDistance cp;
     suggestions := suggestions cp;
     suggestionLen := suggestionLen cp;
     suggestionRunes := suggestionRunes cp;
     lenDiff := lenDiff cp |}.

Definition set_candidatePointer (cp : candidateProcessor) (x : Z) : candidateProcessor :=
  {| candidates := candidates cp;
     consideredDeletes := consideredDeletes cp;
     consideredSuggestions := consideredSuggestions cp;
     maxEditDistance2 := maxEditDistance2 cp;
     candidatePointer := x;
     verbosity := verbosity cp;
     phraseLen := phraseLen cp;
     phrase := phrase cp;
     phraseRunes := phraseRunes cp;
     unicode := unicode cp;
     candidateLen := candidateLen cp;
     candidateRunes := candidateRunes cp;
     distance := distance cp;
     minDistance := minDistance cp;
     suggestions := suggestions cp;
     suggestionLen := suggestionLen cp;
     suggestionRunes := suggestionRunes cp;
     lenDiff := lenDiff cp |}.

Definition set_candidateLen (cp : candidateProcessor) (x : Z) : candidateProcessor :=
  {| candidates := candidates cp;
     consideredDeletes := consideredDeletes cp;
     consideredSuggestions := consideredSuggestions cp;
     maxEditDistance2 := maxEditDistance2 cp;
     candidatePointer := candidatePointer cp;
     verbosity := verbosity cp;
     phraseLen := phraseLen cp;
     phrase := phrase cp;
     phraseRunes := phraseRunes cp;
     unicode := unicode cp;
     candidateLen := x;
     candidateRunes := candidateRunes cp;
     distance := distance cp;
     minDistance := minDistance cp;
     suggestions := suggestions cp;
     suggestionLen := suggestionLen cp;
     suggestionRunes := suggestionRunes cp;
     lenDiff := lenDiff cp |}.

Definition set_candidateRunes (cp : candidateProcessor) (x : list Z) : candidateProcessor :=
  {| candidates := candidates cp;
     consideredDeletes := consideredDeletes cp;
     consideredSuggestions := consideredSuggestions cp;
     maxEditDistance2 := maxEditDistance2 cp;
     candidatePointer := candidatePointer cp;
     verbosity := verbosity cp;
     phraseLen := phraseLen cp;
     phrase := phrase cp;
     phraseRunes := phraseRunes cp;
     unicode := unicode cp;
     candidateLen := candidateLen cp;
     candidateRunes := x;
     distance := distance cp;
     minDistance := minDistance cp;
     suggestions := suggestions cp;
     suggestionLen := suggestionLen cp;
     suggestionRunes := suggestionRunes cp;
     lenDiff := lenDiff cp |}.

Definition set_distance (cp : candidateProcessor) (x : Z) : candidateProcessor :=
  {| candidates := candidates cp;
     consideredDeletes := consideredDeletes cp;
     consideredSuggestions := consideredSuggestions cp;
     maxEditDistance2 := maxEditDistance2 cp;
     candidatePointer := candidatePointer cp;
     verbosity := verbosity cp;
     phraseLen := phraseLen cp;
     phrase := phrase cp;
     phraseRunes := phraseRunes cp;
     unicode := unicode cp;
     candidateLen := candidateLen cp;
     candidateRunes := candidateRunes cp;
     distance := x;
     minDistance := minDistance cp;
     suggestions := suggestions cp;
     suggestionLen := suggestionLen cp;
     suggestionRunes := suggestionRunes cp;
     lenDiff := lenDiff cp |}.

Definition set_minDistance (cp : candidateProcessor) (x : Z) : candidateProcessor :=
  {| candidates := candidates cp;
     consideredDeletes := consideredDeletes cp;
     consideredSuggestions := consideredSuggestions cp;
     maxEditDistance2 := maxEditDistance2 cp;
     candidatePointer := candidatePointer cp;
     verbosity := verbosity cp;
     phraseLen := phraseLen cp;
     phrase := phrase cp;
     phraseRunes := phraseRunes cp;
     unicode := unicode cp;
     candidateLen := candidateLen cp;
     candidateRunes := candidateRunes cp;
     distance := distance cp;
     minDistance := x;
     suggestions := suggestions cp;
     suggestionLen := suggestionLen cp;
     suggestionRunes := suggestionRunes cp;
     lenDiff := lenDiff cp |}.

Definition set_suggestions (cp : candidateProcessor) (x : list SuggestItem) : candidateProcessor :=
  {| candidates := candidates cp;
     consideredDeletes := consideredDeletes cp;
     consideredSuggestions := consideredSuggestions cp;
     maxEditDistance2 := maxEditDistance2 cp;
     candidatePointer := candidatePointer cp;
     verbosity := verbosity cp;
     phraseLen := phraseLen cp;
     phrase := phrase cp;
     phraseRunes := phraseRunes cp;
     unicode := unicode cp;
     candidateLen := candidateLen cp;
     candidateRunes := candidateRunes cp;
     distance := distance cp;
     minDistance := minDistance cp;
     suggestions := x;
     suggestionLen := suggestionLen cp;
     suggestionRunes := suggestionRunes cp;
     lenDiff := lenDiff cp |}.

Definition set_suggestionLen (cp : candidateProcessor) (x : Z) : candidateProcessor :=
  {| candidates := candidates cp;
     consideredDeletes := consideredDeletes cp;
     consideredSuggestions := consideredSuggestions cp;
     maxEditDistance2 := maxEditDistance2 cp;
     candidatePointer := candidatePointer cp;
     verbosity := verbosity cp;
     phraseLen := phraseLen cp;
     phrase := phrase cp;
     phraseRunes := phraseRunes cp;
     unicode := unicode cp;
     candidateLen := candidateLen cp;
     candidateRunes := candidateRunes cp;
     distance := distance cp;
     minDistance := minDistance cp;
     suggestions := suggestions cp;
     suggestionLen := x;
     suggestionRunes := suggestionRunes cp;
     lenDiff := lenDiff cp |}.

Definition set_suggestionRunes (cp : candidateProcessor) (x : list Z) : candidateProcessor :=
  {| candidates := candidates cp;
     consideredDeletes := consideredDeletes cp;
     consideredSuggestions := consideredSuggestions cp;
     maxEditDistance2 := maxEditDistance2 cp;
     candidatePointer := candidatePointer cp;
     verbosity := verbosity cp;
     phraseLen := phraseLen cp;
     phrase := phrase cp;
     phraseRunes := phraseRunes cp;
     unicode := unicode cp;
     candidateLen := candidateLen cp;
     candidateRunes := candidateRunes cp;
     distance := distance cp;
     minDistance := minDistance cp;
     suggestions := suggestions cp;
     suggestionLen := suggestionLen cp;
     suggestionRunes := x;
     lenDiff := lenDiff cp |}.

Definition set_lenDiff (cp : candidateProcessor) (x : Z) : candidateProcessor :=
  {| candidates := candidates cp;
     consideredDeletes := consideredDeletes cp;
     consideredSuggestions := consideredSuggestions cp;
     maxEditDistance2 := maxEditDistance2 cp;
     candidatePointer := candidatePointer cp;
     verbosity := verbosity cp;
     phraseLen := phraseLen cp;
     phrase := phrase cp;
     phraseRunes := phraseRunes cp;
     unicode := unicode cp;
     candidateLen := candidateLen cp;
     candidateRunes := candidateRunes cp;
     distance := distance cp;
     minDistance := minDistance cp;
     suggestions := suggestions cp;
     suggestionLen := suggestionLen cp;
     suggestionRunes := suggestionRunes cp;
     lenDiff := x |}.

Definition acquireCandidateProcessor (maxEditDistance : Z) (v : Verbosity)
    (p : list ascii) : candidateProcessor :=
  let uni := negb (isASCII p) in
  {| candidates := [];
     consideredDeletes := ∅;
     consideredSuggestions := ∅;
     maxEditDistance2 := maxEditDistance;
     candidatePointer := 0;
     verbosity := v;
     phraseLen := if uni then len (runes p) else len p;
     phrase := p;
     phraseRunes := if uni then runes p else [];
     unicode := uni;
     candidateLen := 0;
     candidateRunes := [];
     distance := 0;
     minDistance := 0;
     suggestions := [];
     suggestionLen := 0;
     suggestionRunes := [];
     lenDiff := 0 |}.

Definition resetDistance (c : candidateProcessor) : candidateProcessor :=
  set_minDistance (set_distance c 0) 0.

Definition updateSuggestion (c : candidateProcessor) (suggestion : list ascii)
    : candidateProcessor :=
  if unicode c then
    let c := set_suggestionRunes c (runes suggestion) in
    set_suggestionLen c (len (suggestionRunes c))
  else set_suggestionLen c (len suggestion).

(** The order of [sortCandidate]: distance ascending, then count
    descending. *)
Definition less (x y : SuggestItem) : bool :=
  if Distance_ x =? Distance_ y then Count y <? Count x
  else Distance_ x <? Distance_ y.

Definition item_le (x y : SuggestItem) : Prop := less y x = false.

#[global] Instance item_le_dec : RelDecision item_le.
Proof. intros x y. unfold item_le. apply _. Defined.

(** [sort.Slice] leaves a permutation without inversions for [less];
    it is not stable, and which of several equal items comes first is
    open.  The model sorts by merging. *)
Definition sortCandidate (c : candidateProcessor) : candidateProcessor :=
  if 1 <? len (suggestions c)
  then set_suggestions c (merge_sort item_le (suggestions c))
  else c.

Definition abs (a : Z) : Z := if a <? 0 then neg a else a.

Record ExactMatchResult : Type := {
  shouldStop : bool;
  exactItem : option SuggestItem
}.

Definition getOriginPrefix (s : SymSpell) (cp : candidateProcessor) : run (list ascii) :=
  if PrefixLength s <? phraseLen cp then
    if unicode cp then
      pre ← slice (phraseRunes cp) 0 (PrefixLength s); Val (string_of_runes pre)
    else slice (phrase cp) 0 (PrefixLength s)
  else Val (phrase cp).

Definition checkExactMatch (s : SymSpell) (p : list ascii) (v : Verbosity)
    (cp : candidateProcessor) : run (candidateProcessor * ExactMatchResult) :=
  match Words s !! p with
  | Some idx =>
      count ← rd (counts s) idx;
      let exact := {| Term := p; Distance_ := 0; Count := count |} in
      let cp := set_suggestions cp (suggestions cp ++ [exact]) in
      if bool_decide (v <> All) && (FrequencyThreshold s <=? count)
      then Val (cp, {| shouldStop := true; exactItem := Some exact |})
      else Val (cp, {| shouldStop := false; exactItem := Some exact |})
  | None => Val (cp, {| shouldStop := false; exactItem := None |})
  end.

(** The scan of [finalizeWithFrequencyCheck] for the best
    alternative. *)
Definition betterAlternative (s : SymSpell) (exact : SuggestItem)
    (best : option SuggestItem) (suggestion : SuggestItem) : option SuggestItem :=
  if Distance_ suggestion =? 0 then best
  else if Distance_ suggestion <=? 2 then
    let requiredFrequency := mul (Count exact) (FrequencyMultiplier s) in
    if requiredFrequency <=? Count suggestion then
      match best with
      | None => Some suggestion
      | Some b =>
          if (Count b <? Count suggestion)
             || ((Count suggestion =? Count b) && (Distance_ suggestion <? Distance_ b))
          then Some suggestion else best
      end
    else best
  else best.

Definition finalizeWithFrequencyCheck (s : SymSpell) (cp : candidateProcessor)
    (exactMatch : option SuggestItem) : candidateProcessor :=
  match exactMatch with
  | None => cp
  | Some exact =>
      if len (suggestions cp) <=? 1 then cp
      else
        match foldl (betterAlternative s exact) None (suggestions cp) with
        | Some _ =>
            set_suggestions cp
              (filter (fun x => Distance_ x <> 0) (suggestions cp))
        | None => cp
        end
  end.

Definition preProcessCandidate (cp : candidateProcessor)
    : run (candidateProcessor * list ascii) :=
  candidate ← rd (candidates cp) (candidatePointer cp);
  let cp := set_candidatePointer cp (add (candidatePointer cp) 1) in
  let cp :=
    if unicode cp then
      let cp := set_candidateRunes cp (runes candidate) in
      set_candidateLen cp (len (candidateRunes cp))
    else set_candidateLen cp (len candidate) in
  let cp := set_lenDiff cp (sub (phraseLen cp) (candidateLen cp)) in
  Val (cp, candidate).

Definition checkSuggestionToSkip (s : SymSpell) (cp : candidateProcessor)
    (suggestion candidate : list ascii) : bool :=
  if (maxEditDistance2 cp <? abs (sub (suggestionLen cp) (phraseLen cp)))
     || (suggestionLen cp <? candidateLen cp)
     || ((suggestionLen cp =? candidateLen cp) && bool_decide (suggestion <> candidate))
  then true
  else
    let suggestionPrefixLen := Z.min (suggestionLen cp) (PrefixLength s) in
    (phraseLen cp <? suggestionPrefixLen)
    && (maxEditDistance2 cp <? sub suggestionPrefixLen (candidateLen cp)).

Definition updateMinDistance (s : SymSpell) (maxEditDistance : Z)
    (cp : candidateProcessor) : candidateProcessor :=
  if sub (PrefixLength s) maxEditDistance =? candidateLen cp
  then set_minDistance cp
         (sub (Z.min (phraseLen cp) (suggestionLen cp)) (PrefixLength s))
  else set_minDistance cp 0.

Definition checkFirstRuneDistance (cp : candidateProcessor) (suggestion : list ascii)
    : run (candidateProcessor * bool) :=
  found ←
    (if unicode cp then
       first ← rd (suggestionRunes cp) 0;
       Val (existsb (Z.eqb first) (phraseRunes cp))
     else
       first ← rd suggestion 0;
       Val (existsb (Ascii.eqb first) (phrase cp)));
  let cp := set_distance cp
              (if found : bool then sub (phraseLen cp) 1 else phraseLen cp) in
  if maxEditDistance2 cp <? distance cp then Val (cp, true)
  else if bool_decide (suggestion ∈ consideredSuggestions cp) then Val (cp, true)
  else Val (cp, false).

(** The suffix test of [checkProcessShouldSkip], on the runes of the
    two strings or on their bytes. *)
Definition suffixSkip {A : Type} `{EqDecision A} (pr sr : list A)
    (pLen sLen minD : Z) : run bool :=
  skip1 ←
    (if 1 <? minD then
       ps ← slice_from pr (sub (add pLen 1) minD);
       ss ← slice_from sr (sub (add sLen 1) minD);
       Val (bool_decide (ps <> ss))
     else Val false);
  if skip1 : bool then Val true
  else if 0 <? minD then
    p0 ← rd pr (sub pLen minD);
    s0 ← rd sr (sub sLen minD);
    if bool_decide (p0 <> s0) then
      p1 ← rd pr (sub (sub pLen minD) 1);
      s0' ← rd sr (sub sLen minD);
      if bool_decide (p1 <> s0') then Val true
      else
        p0' ← rd pr (sub pLen minD);
        s1 ← rd sr (sub (sub sLen minD) 1);
        Val (bool_decide (p0' <> s1))
    else Val false
  else Val false.

Definition checkProcessShouldSkip (cp : candidateProcessor) (suggestion : list ascii)
    : run bool :=
  if unicode cp then
    suffixSkip (phraseRunes cp) (suggestionRunes cp)
      (phraseLen cp) (suggestionLen cp) (minDistance cp)
  else
    suffixSkip (phrase cp) suggestion
      (phraseLen cp) (suggestionLen cp) (minDistance cp).

(** [distanceCompare].  Which buffers the pool hands to the kernel
    does not change its value (see [dlDistanceMax_spec]); the model
    lets every call start from an empty pool. *)
Definition distanceCompare (s : SymSpell) (a b : list ascii) (maxDistance : Z) : run Z :=
  d ← DistanceMax (distanceComparer s) fresh_pool a b maxDistance;
  if maxDistance <? d then Val (-1) else Val d.

Definition checkDistanceToSkip (s : SymSpell) (maxEditDistance : Z)
    (cp : candidateProcessor) (suggestion : list ascii)
    : run (candidateProcessor * bool) :=
  skip ←
    (if sub (PrefixLength s) maxEditDistance =? candidateLen cp
     then checkProcessShouldSkip cp suggestion else Val false);
  if skip : bool then Val (cp, true)
  else if bool_decide (suggestion ∈ consideredSuggestions cp) then Val (cp, true)
  else
    let cp := set_consideredSuggestions cp ({[ suggestion ]} ∪ consideredSuggestions cp) in
    d ← distanceCompare s (phrase cp) suggestion (maxEditDistance2 cp);
    let cp := set_distance cp d in
    Val (cp, distance cp <? 0).

(** [updateBestSuggestion]: the processor and [shouldContinue]. *)
Definition updateBestSuggestion (cp : candidateProcessor) (suggestionCount : Z)
    (item : SuggestItem) : run (candidateProcessor * bool) :=
  match verbosity cp with
  | Closest =>
      if distance cp <? maxEditDistance2 cp
      then Val (set_suggestions cp [], false)
      else Val (cp, false)
  | Top =>
      better ←
        (if distance cp <? maxEditDistance2 cp then Val true
         else s0 ← rd (suggestions cp) 0; Val (Count s0 <? suggestionCount));
      if better : bool then
        let cp := set_maxEditDistance2 cp (distance cp) in
        l ← wr (suggestions cp) 0 item;
        Val (set_suggestions cp l, true)
      else Val (cp, true)
  | All => Val (cp, false)
  end.

Definition updateSuggestions (s : SymSpell) (idx : Z) (suggestion : list ascii)
    (cp : candidateProcessor) : run candidateProcessor :=
  suggestionCount ← rd (counts s) idx;
  let item := {| Term := suggestion; Distance_ := distance cp; Count := suggestionCount |} in
  '(cp, shouldContinue) ←
    (if 0 <? len (suggestions cp)
     then updateBestSuggestion cp suggestionCount item
     else Val (cp, false));
  if shouldContinue : bool then Val cp
  else
    let cp := if bool_decide (verbosity cp <> All)
              then set_maxEditDistance2 cp (distance cp) else cp in
    Val (set_suggestions cp
           (suggestions cp ++
            [{| Term := suggestion; Distance_ := distance cp; Count := suggestionCount |}])).

Definition enqueueDelete (cp : candidateProcessor) (deleteItem : list ascii)
    : candidateProcessor :=
  if bool_decide (deleteItem ∈ consideredDeletes cp) then cp
  else
    let cp := set_consideredDeletes cp ({[ deleteItem ]} ∪ consideredDeletes cp) in
    set_candidates cp (candidates cp ++ [deleteItem]).

Definition addEditDistance (candidate : list ascii) (cp : candidateProcessor)
    : run candidateProcessor :=
  if negb (unicode cp) then
    for_loop (trips 0 (len candidate - 1)) 0
      (fun i cp =>
         pre ← slice candidate 0 i;
         post ← slice_from candidate (i + 1);
         Val (enqueueDelete cp (pre ++ post)))
      cp
  else
    let rs := candidateRunes cp in
    for_loop (trips 0 (len rs - 1)) 0
      (fun i cp =>
         pre ← slice rs 0 i;
         post ← slice_from rs (i + 1);
         Val (enqueueDelete cp (string_of_runes pre ++ string_of_runes post)))
      cp.

(** The body of the loop over the postings of a candidate; a
    [continue] is the return of the processor as it stands. *)
Definition processPosting (s : SymSpell) (maxEditDistance : Z) (candidate : list ascii)
    (i : Z) (cp : candidateProcessor) : run candidateProcessor :=
  idx ← rd (DeletesData s) i;
  suggestion ← rd (words s) idx;
  if bool_decide (suggestion = phrase cp) then Val cp
  else
    let cp := updateSuggestion cp suggestion in
    if checkSuggestionToSkip s cp suggestion candidate then Val cp
    else
      let cp := resetDistance cp in
      '(cp, skip) ←
        (if candidateLen cp =? 0 then
           let cp := set_distance cp (Z.max (phraseLen cp) (suggestionLen cp)) in
           if maxEditDistance2 cp <? distance cp then Val (cp, true)
           else if bool_decide (suggestion ∈ consideredSuggestions cp) then Val (cp, true)
           else Val (cp, false)
         else if suggestionLen cp =? 1 then
           checkFirstRuneDistance cp suggestion
         else
           let cp := updateMinDistance s maxEditDistance cp in
           checkDistanceToSkip s maxEditDistance cp suggestion);
      if skip : bool then Val cp
      else if distance cp <=? maxEditDistance2 cp
      then updateSuggestions s idx suggestion cp
      else Val cp.

(** One turn of the loop of [processCandidate]: [inr] is the [break]. *)
Definition processOne (s : SymSpell) (maxEditDistance : Z) (cp : candidateProcessor)
    : run (candidateProcessor + candidateProcessor) :=
  '(cp, candidate) ← preProcessCandidate cp;
  if maxEditDistance2 cp <? lenDiff cp then
    if bool_decide (verbosity cp = All) then Val (inl cp) else Val (inr cp)
  else
    cp ←
      match DeletesIdx s !! candidate with
      | Some v =>
          let offset := unpack_offset v in
          let length := unpack_length v in
          for_loop (Z.to_nat (u32 (offset + length) - offset)) offset
            (processPosting s maxEditDistance candidate) cp
      | None => Val cp
      end;
    if (lenDiff cp <=? maxEditDistance) && (candidateLen cp <=? PrefixLength s) then
      if bool_decide (verbosity cp <> All) && (maxEditDistance2 cp <=? lenDiff cp)
      then Val (inl cp)
      else cp ← addEditDistance candidate cp; Val (inl cp)
    else Val (inl cp).

Fixpoint processCandidate (fuel : nat) (s : SymSpell) (maxEditDistance : Z)
    (cp : candidateProcessor) : run candidateProcessor :=
  if candidatePointer cp <? len (candidates cp) then
    match fuel with
    | O => NoFuel
    | Datatypes.S fuel' =>
        o ← processOne s maxEditDistance cp;
        match o with
        | inl cp => processCandidate fuel' s maxEditDistance cp
        | inr cp => Val cp
        end
    end
  else Val cp.

(** What [Lookup] returns: the suggestions with a nil error, or nil
    with the error. *)
Inductive LookupResult : Type :=
| Suggestions (l : list SuggestItem)
| Error (msg : string).

Definition Lookup (fuel : nat) (s : SymSpell) (p : list ascii) (v : Verbosity)
    (maxEditDistance : Z) : run (SymSpell * LookupResult) :=
  if MaxDictionaryEditDistance s <? maxEditDistance then
    Val (s, Error "distance too large")
  else
    let '(c, hit) :=
      if decide (v = Top) then cache_Get (cache s) p else (cache s, None) in
    let s := set_cache s c in
    match hit with
    | Some item => Val (s, Suggestions [item])
    | None =>
        let cp := acquireCandidateProcessor maxEditDistance v p in
        if maxLength s <? sub (phraseLen cp) maxEditDistance then
          Val (s, Suggestions (suggestions cp))
        else
          '(cp, exactMatch) ← checkExactMatch s p v cp;
          if shouldStop exactMatch then Val (s, Suggestions (suggestions cp))
          else if maxEditDistance =? 0 then Val (s, Suggestions (suggestions cp))
          else
            let cp := set_consideredSuggestions cp ({[ p ]} ∪ consideredSuggestions cp) in
            phrasePrefix ← getOriginPrefix s cp;
            let cp := set_candidates cp (candidates cp ++ [phrasePrefix]) in
            cp ← processCandidate fuel s maxEditDistance cp;
            let cp := finalizeWithFrequencyCheck s cp (exactItem exactMatch) in
            let cp := sortCandidate cp in
            let result := suggestions cp in
            match v, result with
            | Top, r0 :: _ => Val (set_cache s (cache_Add (cache s) p r0), Suggestions result)
            | _, _ => Val (s, Suggestions result)
            end
    end.

(** ** Predicates used in the statements and the invariants *)

(** [x] and [d] agree up to the cap [K]: equal, or both above it. *)
Definition agree (K x d : Z) : Prop := x = d \/ (K < x /\ K < d).

Section RowPredicates.
Context {C : Type} (ceq : C -> C -> bool) (a b : list C).

(** A buffer that holds row [r] of the matrix in its cells [0..n]. *)
Definition row_exact (n r : Z) (row : list Z) : Prop :=
  forall j, 0 <= j <= n ->
    row !! Z.to_nat j = Some (dlD ceq a b (Z.to_nat r) (Z.to_nat j)).

Definition cell_ok (k r : Z) (row : list Z) (j : Z) : Prop :=
  exists x, row !! Z.to_nat j = Some x /\
    agree k x (dlD ceq a b (Z.to_nat r) (Z.to_nat j)) /\ 0 <= x <= r + k + 1.

(** After row [r] of the bounded kernel the cells of the buffer
    inside the window [r - k - 1 .. r + k + 1] agree with the matrix
    up to the cap [k]: the band itself, and one sentinel on either
    side.  What the other cells hold (left over from an earlier row
    or an earlier call) is never read. *)
Definition row_ok (k n r : Z) (row : list Z) : Prop :=
  forall j, 0 <= j <= n -> r - k - 1 <= j <= r + k + 1 -> cell_ok k r row j.
End RowPredicates.

(** The order the claim about the result list speaks of: distance
    does not decrease, and at equal distance count does not increase. *)
Definition ranked (x y : SuggestItem) : Prop :=
  Distance_ x <= Distance_ y /\ (Distance_ x = Distance_ y -> Count y <= Count x).

(** The configuration [NewSymSpell] accepts, as Go [int]s. *)
Definition options_ok (o : SymspellOptions) : Prop :=
  is_int (opt_MaxDictionaryEditDistance o) /\ is_int (opt_PrefixLength o) /\
  is_int (opt_CountThreshold o) /\ is_int (opt_FrequencyThreshold o) /\
  is_int (opt_FrequencyMultiplier o).

(** The stores a program can hold: made by [NewSymSpell], filled by
    [createDictionaryEntry] or by [LoadDictionary], queried by
    [Lookup].  [LoadDictionary] parses a file and fills the delete
    index from goroutines, which is outside this model; it is covered
    by its effect on the store: [addWordEntry] for every accepted
    line, then a new delete index (left open here) and the release of
    the below-threshold pool. *)
Inductive reachable : SymSpell -> Prop :=
| reach_new o s :
    options_ok o -> NewSymSpell o = inl s -> reachable s
| reach_add s k count s' ok :
    reachable s -> is_u32 count ->
    createDictionaryEntry s k count = Val (s', ok) -> reachable s'
| reach_addWord s k count s' ok :
    reachable s -> is_u32 count ->
    addWordEntry s k count = Val (s', ok) -> reachable s'
| reach_index s ix data :
    reachable s ->
    reachable (set_BelowThresholdWords (set_Deletes s ix data) ∅)
| reach_lookup fuel s p v k s' r :
    reachable s -> Lookup fuel s p v k = Val (s', r) -> reachable s'.

(** What every reachable store satisfies. *)
Record store_inv (s : SymSpell) : Prop := {
  inv_max : 0 <= MaxDictionaryEditDistance s <= int_max;
  inv_prefix : MaxDictionaryEditDistance s < PrefixLength s <= int_max;
  inv_mult : 1 < FrequencyMultiplier s <= int_max;
  inv_counts : Forall is_u32 (counts s);
  inv_lens : length (words s) = length (counts s);
  inv_Words : forall k idx, Words s !! k = Some idx ->
      0 <= idx < len (counts s) /\ len k <= maxLength s
}.

(** The term map inverts the term array. *)
Definition index_inv (s : SymSpell) : Prop :=
  forall i w, words s !! i = Some w -> Words s !! w = Some (Z.of_nat i).

(** Valid runes: what [[]rune(s)] can produce. *)
Definition valid_rune (r : Z) : Prop :=
  0 <= r <= MaxRune /\ ~ (55296 <= r <= 57343).

(** A program that makes a store and adds the entries in order. *)
Definition addEntry (s : SymSpell) (e : list ascii * Z) : run SymSpell :=
  '(s, _) ← createDictionaryEntry s e.1 e.2; Val s.

Definition buildDictionary (o : SymspellOptions) (entries : list (list ascii * Z))
    : run SymSpell :=
  match NewSymSpell o with
  | inl s => foldM addEntry s entries
  | inr _ => Panic
  end.

(** The suggestions of a call, when it returns some. *)
Definition suggestions_of (r : run (SymSpell * LookupResult)) : option (list SuggestItem) :=
  match r with
  | Val (_, Suggestions l) => Some l
  | _ => None
  end.

(** *** Stores used in the examples *)

Definition store_or (d : SymSpell) (r : run SymSpell) : SymSpell :=
  match r with Val s => s | _ => d end.

(** What [NewSymSpell] makes of the default options. *)
Definition emptyStore : SymSpell := {|
  MaxDictionaryEditDistance := 2; PrefixLength := 7; CountThreshold := 1;
  FrequencyThreshold := 1000; FrequencyMultiplier := 10;
  Words := ∅; BelowThresholdWords := ∅; DeletesIdx := ∅; DeletesData := [];
  words := []; counts := []; maxLength := 0;
  distanceComparer := NewEditDistance DamerauLevenshtein;
  cache := newTopCache 128 |}.

Definition rareEntries : list (list ascii * Z) :=
  [(str "the", 10); (str "then", 50000)].
Definition frequentEntries : list (list ascii * Z) :=
  [(str "the", 10000); (str "then", 20000)].
Definition helloEntries : list (list ascii * Z) :=
  [(str "hello", 500); (str "help", 400); (str "world", 100)].

Definition rareStore : SymSpell :=
  Eval vm_compute in store_or emptyStore (buildDictionary DefaultOptions rareEntries).
Definition frequentStore : SymSpell :=
  Eval vm_compute in store_or emptyStore (buildDictionary DefaultOptions frequentEntries).
Definition helloStore : SymSpell :=
  Eval vm_compute in store_or emptyStore (buildDictionary DefaultOptions helloEntries).

(** [helloStore] after [Lookup("hexxo", Top, 2)]. *)
Definition cachedStore : SymSpell :=
  Eval vm_compute in
    store_or emptyStore
      ('(s, _) ← Lookup 100 helloStore (str "hexxo") Top 2; Val s).

(** The string [edits] gets from [word] by deleting its rune [i]. *)
Definition deleteRune (rs : list Z) (i : Z) : list ascii :=
  string_of_runes (take (Z.to_nat i) rs) ++ string_of_runes (drop (Z.to_nat (i + 1)) rs).

(** The default options with [MaxDictionaryEditDistance = 0]
    ([WithMaxDictionaryEditDistance(0)]) and with [CountThreshold = 2]
    ([WithCountThreshold(2)]). *)
Definition exactOnlyOptions : SymspellOptions := {|
  opt_MaxDictionaryEditDistance := 0;
  opt_PrefixLength := 7;
  opt_CountThreshold := 1;
  opt_FrequencyThreshold := 1000;
  opt_FrequencyMultiplier := 10
|}.

Definition thresholdTwoOptions : SymspellOptions := {|
  opt_MaxDictionaryEditDistance := 2;
  opt_PrefixLength := 7;
  opt_CountThreshold := 2;
  opt_FrequencyThreshold := 1000;
  opt_FrequencyMultiplier := 10
|}.

Definition exactOnlyStore : SymSpell :=
  Eval vm_compute in store_or emptyStore (buildDictionary exactOnlyOptions []).

Definition twiceStore : SymSpell :=
  Eval vm_compute in
    store_or emptyStore
      (buildDictionary thresholdTwoOptions [(str "a", 5); (str "a", 5)]).

(** *** Termination of the search *)

(** A run that ended, with a value or a panic. *)
Definition finished {A : Type} (r : run A) : Prop := r <> NoFuel.

Fixpoint subseqs {A : Type} (l : list A) : list (list A) :=
  match l with
  | [] => [[]]
  | x :: l' => subseqs l' ++ (cons x <$> subseqs l')
  end.

Section Queue.
Context {A : Type} (view : list ascii -> list A) (F : list A -> list ascii) (X : list A).

(** Every string the candidate queue can ever hold besides the prefix
    itself: the sequences left of [X] after some deletions. *)
Definition universe : gset (list ascii) := list_to_set (F <$> subseqs X).

Definition good (c : list ascii) : Prop := view c `sublist_of` X.

Definition queue_ok (cp : candidateProcessor) : Prop :=
  Forall good (candidates cp) /\
  consideredDeletes cp ⊆ universe /\
  (length (candidates cp) <= S (size (consideredDeletes cp)))%nat.
End Queue.

(** The two readings of a candidate: its bytes, or its runes. *)
Definition queue_inv (pre : list ascii) (cp : candidateProcessor) : Prop :=
  if unicode cp
  then queue_ok runes string_of_runes (runes pre) cp
  else queue_ok id id pre cp.

Definition universe_size (b : bool) (pre : list ascii) : nat :=
  if b then size (universe string_of_runes (runes pre))
  else size (universe id pre).

(** The fields of the processor that the loop over the postings
    leaves alone. *)
Definition frame (cp : candidateProcessor)
    : list (list ascii) * gset (list ascii) * Z * bool * list Z :=
  (candidates cp, consideredDeletes cp, candidatePointer cp, unicode cp,
   candidateRunes cp).

(** *** The delete index *)

(** The postings of a delete word: the run of [DeletesData] that the
    loop of [processCandidate] reads for it. *)
Definition postings (s : SymSpell) (d : list ascii) : option (list Z) :=
  match DeletesIdx s !! d with
  | Some v =>
      Some (take (Z.to_nat (unpack_length v))
              (drop (Z.to_nat (unpack_offset v)) (DeletesData s)))
  | None => None
  end.

(** The runs of the entries of [DeletesIdx] are not empty, lie inside
    [DeletesData] and do not overlap. *)
Record deletes_inv (s : SymSpell) : Prop := {
  del_range : forall d v, DeletesIdx s !! d = Some v ->
      1 <= unpack_length v /\
      unpack_offset v + unpack_length v <= len (DeletesData s);
  del_disjoint : forall d d' v v', d <> d' ->
      DeletesIdx s !! d = Some v -> DeletesIdx s !! d' = Some v' ->
      unpack_offset v + unpack_length v <= unpack_offset v' \/
      unpack_offset v' + unpack_length v' <= unpack_offset v
}.

(** *** The recency list of the cache *)

(** What the map of [topCache] stands for: every key is in the list
    once, and the list is no longer than the capacity. *)
Definition cache_ok (c : topCache) : Prop :=
  NoDup (key <$> ll c) /\ len (ll c) <= capacity c.

(** *** The result of the search *)

(** The fields of the processor that only [updateSuggestions]
    changes during the search. *)
Definition sframe (cp : candidateProcessor) : list SuggestItem * Z * Verbosity :=
  (suggestions cp, maxEditDistance2 cp, verbosity cp).

(** A suggestion that is a word of the store with its count, at a
    distance of at most [k]. *)
Definition from_store (s : SymSpell) (k : Z) (y : SuggestItem) : Prop :=
  Distance_ y <= k /\
  exists i : nat, words s !! i = Some (Term y) /\ counts s !! i = Some (Count y).

(** Every entry of the term map points at its term. *)
Definition Words_sound (s : SymSpell) : Prop :=
  forall w i, Words s !! w = Some i -> 0 <= i /\ words s !! Z.to_nat i = Some w.

(** [cachedStore] after [createDictionaryEntry("hexxo", 9999)]: the
    phrase of the cached answer is now a word itself. *)
Definition staleStore : SymSpell :=
  Eval vm_compute in
    store_or emptyStore
      ('(s, _) ← createDictionaryEntry cachedStore (str "hexxo") 9999; Val s).

(** A store with the one word "a". *)
Definition singleStore : SymSpell :=
  Eval vm_compute in store_or emptyStore (buildDictionary DefaultOptions [(str "a", 5)]).

(** *** The delete words of a key *)

(** The strings left of the runes [rs] after deleting at least one and
    at most [n] of those from position [cur] on. *)
Definition deletions (rs : list Z) (cur : nat) (n : Z) (x : list ascii) : Prop :=
  exists l, l `sublist_of` drop cur rs /\
    x = string_of_runes (take cur rs ++ l) /\
    1 <= len rs - Z.of_nat cur - len l <= n.

(** *** Stores on which the search reads inside its arrays *)

(** The delete index is well formed, its postings are positions of
    words, and the sizes fit the integer types of the Go code. *)
Record store_ok (s : SymSpell) : Prop := {
  ok_inv : store_inv s;
  ok_deletes : deletes_inv s;
  ok_data_len : len (DeletesData s) <= maxUint32;
  ok_postings : Forall (fun i => 0 <= i < len (words s)) (DeletesData s);
  ok_words : Forall (fun w : list ascii => len w < int_max) (words s)
}.

(** What stays true of the candidate processor during a search. *)
Record search_inv (s : SymSpell) (cp : candidateProcessor) : Prop := {
  si_len : phraseLen cp =
           if unicode cp then len (phraseRunes cp) else len (phrase cp);
  si_phrase : len (phrase cp) + MaxDictionaryEditDistance s + 2 <= int_max;
  si_runes : len (phraseRunes cp) <= len (phrase cp);
  si_max2 : maxEditDistance2 cp <= MaxDictionaryEditDistance s
}.

(** The fields of the processor that say what is searched for; the
    search reads them and leaves them alone. *)
Definition kframe (cp : candidateProcessor) : Z * list Z * list ascii * bool :=
  (phraseLen cp, phraseRunes cp, phrase cp, unicode cp).

(** * Properties *)

(** ** Machine integers *)

Lemma wrap_id z : is_int z -> wrap z = z.
Proof.
  unfold is_int, int_min, int_max, wrap. intros H.
  rewrite Z.mod_small by lia. lia.
Qed.

Lemma add_id x y : is_int (x + y) -> add x y = x + y.
Proof. apply wrap_id. Qed.

Lemma sub_id x y : is_int (x - y) -> sub x y = x - y.
Proof. apply wrap_id. Qed.

Lemma neg_id x : is_int (- x) -> neg x = - x.
Proof. apply wrap_id. Qed.

Lemma mul_id x y : is_int (x * y) -> mul x y = x * y.
Proof. apply wrap_id. Qed.

Lemma wrap_is_int z : is_int (wrap z).
Proof.
  unfold is_int, int_min, int_max, wrap.
  pose proof (Z.mod_pos_bound (z + 9223372036854775808) 18446744073709551616).
  lia.
Qed.

Ltac int_arith :=
  rewrite ?add_id, ?sub_id, ?neg_id by (unfold is_int, int_min, int_max; lia).

(** ** Slices *)

Lemma rd_Val {A} (s : list A) i x :
  0 <= i -> s !! Z.to_nat i = Some x -> rd s i = Val x.
Proof. intros Hi Hx. unfold rd. rewrite decide_True by done. by rewrite Hx. Qed.

Lemma rd_inv {A} (s : list A) i x :
  rd s i = Val x -> 0 <= i < len s /\ s !! Z.to_nat i = Some x.
Proof.
  unfold rd, len. case_decide; [|done].
  destruct (s !! Z.to_nat i) eqn:E; [|done]. intros [= ->].
  apply lookup_lt_Some in E as E'. split; [lia|done].
Qed.

Lemma rd_lt {A} (s : list A) i :
  0 <= i < len s -> exists x, rd s i = Val x /\ s !! Z.to_nat i = Some x.
Proof.
  unfold len. intros Hi.
  destruct (lookup_lt_is_Some_2 s (Z.to_nat i)) as [x Hx]; [lia|].
  exists x. split; [apply rd_Val; [lia|done]|done].
Qed.

Lemma wr_Val {A} (s : list A) i x :
  0 <= i < len s -> wr s i x = Val (<[Z.to_nat i := x]> s).
Proof. intros Hi. unfold wr. by rewrite decide_True. Qed.

Lemma len_insert {A} (s : list A) i x : len (<[i := x]> s) = len s.
Proof. unfold len. by rewrite length_insert. Qed.

Lemma len_nonneg {A} (s : list A) : 0 <= len s.
Proof. unfold len. lia. Qed.

Lemma len_getIntSlice p size : 0 <= size -> len (getIntSlice p size) = size.
Proof.
  intros Hs. unfold getIntSlice, len.
  destruct (Z.ltb_spec (Z.of_nat (length p)) size).
  - rewrite length_replicate. lia.
  - rewrite length_take. lia.
Qed.

(** ** Counted loops: invariant rules

    Both rules give total correctness: the loop returns, and the
    invariant holds of what it returns. *)

Lemma for_loop_inv {S} (I : Z -> S -> Prop) cnt lo (body : Z -> S -> run S) s :
  I lo s ->
  (forall j s, lo <= j < lo + Z.of_nat cnt -> I j s ->
     exists s', body j s = Val s' /\ I (j + 1) s') ->
  exists s', for_loop cnt lo body s = Val s' /\ I (lo + Z.of_nat cnt) s'.
Proof.
  revert lo s. induction cnt as [|cnt IH]; intros lo s H0 Hstep.
  - exists s. split; [done|]. by replace (lo + Z.of_nat 0) with lo by lia.
  - destruct (Hstep lo s) as (s1 & E1 & H1); [lia|done|].
    destruct (IH (lo + 1) s1) as (s2 & E2 & H2); [done| |].
    { intros j t Hj. apply Hstep. lia. }
    exists s2. split.
    + cbn [for_loop]. rewrite E1. exact E2.
    + by replace (lo + Z.of_nat (Datatypes.S cnt)) with (lo + 1 + Z.of_nat cnt) by lia.
Qed.

Lemma for_loop_ret_inv {S R} (I : Z -> S -> Prop) (Q : R -> Prop) cnt lo
    (body : Z -> S -> run (S + R)) s :
  I lo s ->
  (forall j s, lo <= j < lo + Z.of_nat cnt -> I j s ->
     (exists s', body j s = Val (inl s') /\ I (j + 1) s') \/
     (exists r, body j s = Val (inr r) /\ Q r)) ->
  (exists s', for_loop_ret cnt lo body s = Val (inl s') /\ I (lo + Z.of_nat cnt) s') \/
  (exists r, for_loop_ret cnt lo body s = Val (inr r) /\ Q r).
Proof.
  revert lo s. induction cnt as [|cnt IH]; intros lo s H0 Hstep.
  - left. exists s. split; [done|]. by replace (lo + Z.of_nat 0) with lo by lia.
  - destruct (Hstep lo s) as [(s1 & E1 & H1)|(r & E1 & H1)]; [lia|done| |].
    + destruct (IH (lo + 1) s1) as [(s2 & E2 & H2)|(r & E2 & H2)]; [done| | |].
      { intros j t Hj. apply Hstep. lia. }
      * left. exists s2. split.
        -- cbn [for_loop_ret]. rewrite E1. exact E2.
        -- by replace (lo + Z.of_nat (Datatypes.S cnt)) with (lo + 1 + Z.of_nat cnt) by lia.
      * right. exists r. split; [|done]. cbn [for_loop_ret]. rewrite E1. exact E2.
    + right. exists r. split; [|done]. cbn [for_loop_ret]. by rewrite E1.
Qed.

(** ** The distance matrix *)

Section MatrixFacts.
Context {C : Type} (ceq : C -> C -> bool).
Hypothesis ceq_spec : forall x y, ceq x y = true <-> x = y.
Variables a b : list C.

Abbreviation D := (dlD ceq a b).
Abbreviation costAt := (cost_of ceq a b).
Abbreviation eqAt := (same ceq a b).

Lemma dlD_0 j : D 0 j = Z.of_nat j.
Proof. reflexivity. Qed.

Lemma dlD_S0 i : D (S i) 0 = Z.of_nat (S i).
Proof. reflexivity. Qed.

Lemma dlD_i0 i : D i 0 = Z.of_nat i.
Proof. by destruct i. Qed.

Lemma dlD_SS i j :
  D (S i) (S j) =
  let dist := Z.min (D i (S j) + 1) (Z.min (D (S i) j + 1) (D i j + costAt i j)) in
  match i, j with
  | S i', S j' =>
      if eqAt i j' && eqAt i' j then Z.min dist (D i' j' + costAt i j) else dist
  | _, _ => dist
  end.
Proof. reflexivity. Qed.

Lemma cost_range i j : 0 <= costAt i j <= 1.
Proof. unfold cost_of. destruct (eqAt i j); lia. Qed.

Lemma same_eq i j : eqAt i j = true -> a !! i = b !! j.
Proof.
  unfold same. destruct (a !! i), (b !! j); try done.
  intros H. f_equal. by apply ceq_spec.
Qed.

Lemma same_inv i j :
  eqAt i j = true -> exists x, a !! i = Some x /\ b !! j = Some x.
Proof.
  unfold same. destruct (a !! i) as [x|], (b !! j) as [y|]; try done.
  intros H. apply ceq_spec in H as ->. eauto.
Qed.

Lemma same_intro i j x : a !! i = Some x -> b !! j = Some x -> eqAt i j = true.
Proof. unfold same. intros -> ->. by apply ceq_spec. Qed.

Lemma dlD_nonneg i j : 0 <= D i j.
Proof.
  revert j. induction (lt_wf i) as [i _ IHi]. intros j.
  destruct i as [|i]; [cbn [dlD]; lia|].
  induction j as [|j IHj]; [rewrite (dlD_i0 (S i)); lia|].
  rewrite dlD_SS. cbv zeta.
  pose proof (cost_range i j).
  pose proof (IHi i ltac:(lia) (S j)). pose proof (IHi i ltac:(lia) j).
  destruct i as [|i'], j as [|j']; try lia.
  pose proof (IHi i' ltac:(lia) j').
  destruct (_ && _); lia.
Qed.

(** One more element of [a] costs at most one deletion. *)
Lemma dlD_del i j : D (S i) j <= D i j + 1.
Proof.
  destruct j as [|j].
  - rewrite !dlD_i0. lia.
  - rewrite dlD_SS. cbv zeta. destruct i as [|i'], j as [|j']; try lia.
    destruct (_ && _); lia.
Qed.

Lemma dlD_sub i j : D (S i) (S j) <= D i j + costAt i j.
Proof.
  rewrite dlD_SS. cbv zeta. destruct i as [|i'], j as [|j']; try lia.
  destruct (_ && _); lia.
Qed.

Lemma dlD_le_add i j : D i j <= Z.of_nat i + Z.of_nat j.
Proof.
  revert j. induction i as [|i IHi]; intros j; [cbn [dlD]; lia|].
  pose proof (dlD_del i j). pose proof (IHi j). lia.
Qed.

(** The distance is at least the difference of the lengths. *)
Lemma dlD_diff i j : Z.abs (Z.of_nat i - Z.of_nat j) <= D i j.
Proof.
  revert j. induction (lt_wf i) as [i _ IHi]. intros j.
  destruct i as [|i]; [cbn [dlD]; lia|].
  induction j as [|j IHj]; [rewrite (dlD_i0 (S i)); lia|].
  rewrite dlD_SS. cbv zeta.
  pose proof (cost_range i j).
  pose proof (IHi i ltac:(lia) (S j)). pose proof (IHi i ltac:(lia) j).
  destruct i as [|i'], j as [|j']; try lia.
  pose proof (IHi i' ltac:(lia) j').
  destruct (_ && _); lia.
Qed.

(** When the two elements of a transposition are all equal, the
    transposition is no cheaper than the substitution. *)
Lemma dlD_trans_free i j :
  eqAt (S i) j = true -> eqAt i (S j) = true -> costAt (S i) (S j) = 0 ->
  D (S i) (S j) <= D i j.
Proof.
  intros H1 H2 H3. unfold cost_of in H3.
  destruct (eqAt (S i) (S j)) eqn:H4; [|done].
  apply same_inv in H4 as (x & Hx & Hy).
  apply same_eq in H1, H2.
  assert (costAt i j = 0) as Hc.
  { unfold cost_of. rewrite (same_intro i j x); [done| |]; congruence. }
  pose proof (dlD_sub i j). lia.
Qed.

(** Once a whole row exceeds [k], so does every later row. *)
Lemma dlD_row_step (n : nat) k i :
  (forall j, (j <= n)%nat -> k < D i j) ->
  forall j, (j <= n)%nat -> k < D (S i) j.
Proof.
  intros Hrow. induction j as [|j IHj]; intros Hj.
  - pose proof (Hrow 0%nat ltac:(lia)) as H0.
    rewrite dlD_i0 in *. lia.
  - rewrite dlD_SS. cbv zeta.
    pose proof (cost_range i j).
    pose proof (Hrow (S j) Hj). pose proof (Hrow j ltac:(lia)).
    pose proof (IHj ltac:(lia)).
    destruct i as [|i'], j as [|j']; try lia.
    destruct (eqAt (S i') j') eqn:S1, (eqAt i' (S j')) eqn:S2; cbn [andb]; try lia.
    pose proof (Hrow j' ltac:(lia)).
    pose proof (dlD_del i' j').
    unfold cost_of in *.
    destruct (eqAt (S i') (S j')) eqn:S3; [|lia].
    pose proof (dlD_trans_free i' j' S1 S2) as Hf.
    unfold cost_of in Hf. rewrite S3 in Hf. specialize (Hf eq_refl). lia.
Qed.

Lemma dlD_row_mono (n : nat) k i i' :
  (i <= i')%nat ->
  (forall j, (j <= n)%nat -> k < D i j) ->
  forall j, (j <= n)%nat -> k < D i' j.
Proof.
  induction 1 as [|i' _ IH]; [done|].
  intros Hrow. apply dlD_row_step. by apply IH.
Qed.
End MatrixFacts.

(** ** The kernels against the matrix *)

Lemma bind_Val {A B} (x : A) (f : A -> run B) : (Val x ≫= f) = f x.
Proof. reflexivity. Qed.

Section KernelFacts.
Context {C : Type} (ceq : C -> C -> bool).
Hypothesis ceq_spec : forall x y, ceq x y = true <-> x = y.
Variables a b : list C.

Abbreviation DZ i j := (dlD ceq a b (Z.to_nat i) (Z.to_nat j)).
Abbreviation costZ i j := (cost_of ceq a b (Z.to_nat (i - 1)) (Z.to_nat (j - 1))).
Abbreviation eqZ i j := (same ceq a b (Z.to_nat i) (Z.to_nat j)).

Lemma DZ_step i j :
  1 <= i -> 1 <= j ->
  DZ i j =
  let dist := Z.min (DZ (i - 1) j + 1)
                (Z.min (DZ i (j - 1) + 1) (DZ (i - 1) (j - 1) + costZ i j)) in
  if (1 <? i) && (1 <? j) && eqZ (i - 1) (j - 2) && eqZ (i - 2) (j - 1)
  then Z.min dist (DZ (i - 2) (j - 2) + costZ i j) else dist.
Proof.
  intros Hi Hj. cbv beta.
  replace (Z.to_nat i) with (S (Z.to_nat (i - 1))) by lia.
  replace (Z.to_nat j) with (S (Z.to_nat (j - 1))) by lia.
  rewrite dlD_SS. cbv zeta.
  destruct (Z.ltb_spec 1 i) as [Hi1|Hi1], (Z.ltb_spec 1 j) as [Hj1|Hj1]; cbn [andb].
  - replace (Z.to_nat (i - 1)) with (S (Z.to_nat (i - 2))) by lia.
    replace (Z.to_nat (j - 1)) with (S (Z.to_nat (j - 2))) by lia.
    reflexivity.
  - replace (j - 1) with 0 by lia. cbn [Z.to_nat].
    by destruct (Z.to_nat (i - 1)).
  - replace (i - 1) with 0 by lia. reflexivity.
  - replace (i - 1) with 0 by lia. reflexivity.
Qed.

(** One cell: if the three (four) cells it reads agree with the
    matrix up to the cap [K], so does the cell it computes. *)
Lemma dlCell_agree K B prev2 prev curr i j pj cj1 pj1 :
  1 <= i <= len a -> 1 <= j <= len b ->
  prev !! Z.to_nat j = Some pj ->
  curr !! Z.to_nat (j - 1) = Some cj1 ->
  prev !! Z.to_nat (j - 1) = Some pj1 ->
  agree K pj (DZ (i - 1) j) ->
  agree K cj1 (DZ i (j - 1)) ->
  agree K pj1 (DZ (i - 1) (j - 1)) ->
  0 <= pj <= B -> 0 <= cj1 <= B -> 0 <= pj1 <= B -> B + 1 <= int_max ->
  (1 < i -> 1 < j -> exists p2, prev2 !! Z.to_nat (j - 2) = Some p2 /\
      agree K p2 (DZ (i - 2) (j - 2)) /\ 0 <= p2 <= B) ->
  exists d, dlCell ceq a b prev2 prev curr i j = Val d /\
    agree K d (DZ i j) /\ 0 <= d <= pj1 + 1.
Proof.
  intros Hi Hj Epj Ecj1 Epj1 Apj Acj1 Apj1 Bpj Bcj1 Bpj1 HB H2.
  destruct (rd_lt a (i - 1)) as (ai & Rai & Eai); [lia|].
  destruct (rd_lt b (j - 1)) as (bj & Rbj & Ebj); [lia|].
  unfold dlCell.
  rewrite Rai, bind_Val, Rbj, bind_Val.
  rewrite (rd_Val prev j pj), bind_Val by (done || lia).
  rewrite (rd_Val curr (j - 1) cj1), bind_Val by (done || lia).
  rewrite (rd_Val prev (j - 1) pj1), bind_Val by (done || lia).
  rewrite (DZ_step i j) by lia. cbv zeta.
  assert (costZ i j = if ceq ai bj then 0 else 1) as Hc.
  { cbv beta. unfold cost_of, same. by rewrite Eai, Ebj. }
  rewrite Hc. clear Hc.
  set (cost := if ceq ai bj then 0 else 1).
  assert (0 <= cost <= 1) as Hcost by (subst cost; destruct (ceq ai bj); lia).
  clearbody cost.
  rewrite !add_id by (unfold is_int, int_min, int_max in *; lia).
  unfold agree in *.
  destruct (Z.ltb_spec 1 i) as [Hi1|Hi1], (Z.ltb_spec 1 j) as [Hj1|Hj1];
    cbn [andb]; try (eexists; split; [reflexivity|]; lia).
  destruct (rd_lt b (j - 2)) as (bj2 & Rbj2 & Ebj2); [lia|].
  destruct (rd_lt a (i - 2)) as (ai2 & Rai2 & Eai2); [lia|].
  rewrite Rbj2, bind_Val.
  assert (eqZ (i - 1) (j - 2) = ceq ai bj2) as ->.
  { cbv beta. unfold same. by rewrite Eai, Ebj2. }
  destruct (ceq ai bj2); cbn [andb]; [|eexists; split; [reflexivity|]; lia].
  rewrite Rai2, bind_Val.
  assert (eqZ (i - 2) (j - 1) = ceq ai2 bj) as ->.
  { cbv beta. unfold same. by rewrite Eai2, Ebj. }
  destruct (ceq ai2 bj); [|eexists; split; [reflexivity|]; lia].
  destruct (H2 Hi1 Hj1) as (p2 & Ep2 & Ap2 & Bp2).
  rewrite (rd_Val prev2 (j - 2) p2), bind_Val by (done || lia).
  rewrite !add_id by (unfold is_int, int_min, int_max in *; lia).
  eexists; split; [reflexivity|].
  destruct (Z.ltb_spec (p2 + cost)
    (Z.min (pj + 1) (Z.min (cj1 + 1) (pj1 + cost)))); lia.
Qed.

Lemma DZ_nonneg i j : 0 <= DZ i j.
Proof. apply dlD_nonneg. Qed.

Lemma DZ_le_add i j : 0 <= i -> 0 <= j -> DZ i j <= i + j.
Proof. intros. pose proof (dlD_le_add ceq a b (Z.to_nat i) (Z.to_nat j)). lia. Qed.

Lemma DZ_diff i j : 0 <= i -> 0 <= j -> Z.abs (i - j) <= DZ i j.
Proof. intros. pose proof (dlD_diff ceq a b (Z.to_nat i) (Z.to_nat j)). lia. Qed.

Lemma DZ_0 j : 0 <= j -> DZ 0 j = j.
Proof. intros. change (Z.to_nat 0) with 0%nat. cbn [dlD]. lia. Qed.

Lemma DZ_i0 i : 0 <= i -> DZ i 0 = i.
Proof. intros. change (Z.to_nat 0) with 0%nat. rewrite (dlD_i0 ceq a b (Z.to_nat i)). lia. Qed.

(** *** The plain kernel *)

Abbreviation row_exact := (row_exact ceq a b).

Lemma dlRow_exact n i prev2 prev curr :
  n = len b -> 1 <= i <= len a -> len a + n + 1 <= int_max ->
  len prev2 = n + 1 -> len prev = n + 1 -> len curr = n + 1 ->
  row_exact n (i - 1) prev ->
  (2 <= i -> row_exact n (i - 2) prev2) ->
  exists curr', dlRow ceq a b n i (prev2, prev, curr) = Val (prev, curr', prev2) /\
    len curr' = n + 1 /\ row_exact n i curr'.
Proof.
  intros Hn Hi Hmax L2 L1 L0 Hprev Hprev2.
  pose proof (len_nonneg b) as Hn0.
  unfold dlRow. rewrite wr_Val, bind_Val by lia.
  set (c0 := <[Z.to_nat 0 := i]> curr).
  destruct (for_loop_inv
    (fun j c => len c = n + 1 /\
       forall j', 0 <= j' < j -> c !! Z.to_nat j' = Some (DZ i j'))
    (trips 1 n) 1
    (fun j c => dist ← dlCell ceq a b prev2 prev c i j; wr c j dist) c0)
    as (c1 & E1 & Lc1 & Hc1).
  - split; [subst c0; by rewrite len_insert|].
    intros j' Hj'. replace j' with 0 by lia. subst c0.
    rewrite list_lookup_insert_eq by (unfold len in *; lia).
    rewrite DZ_i0 by lia. done.
  - intros j c Hj [Lc Hc]. unfold trips in Hj.
    destruct (dlCell_agree (len a + n) (len a + n) prev2 prev c i j
      (DZ (i - 1) j) (DZ i (j - 1)) (DZ (i - 1) (j - 1)))
      as (d & Ed & Ad & Bd);
      try first [ lia | by left | apply Hprev; lia | apply Hc; lia
                | split; [apply DZ_nonneg|
                    etrans; [apply DZ_le_add; lia|lia]] ].
    { intros Hi1 Hj1. exists (DZ (i - 2) (j - 2)).
      split; [apply Hprev2; lia|]. split; [by left|].
      split; [apply DZ_nonneg|]. etrans; [apply DZ_le_add; lia|lia]. }
    assert (d = DZ i j) as ->.
    { pose proof (DZ_le_add i j ltac:(lia) ltac:(lia)).
      unfold agree in Ad. lia. }
    rewrite Ed, bind_Val, wr_Val by lia.
    eexists; split; [reflexivity|]. split; [by rewrite len_insert|].
    intros j' Hj'. destruct (decide (j' = j)) as [->|Hne].
    + rewrite list_lookup_insert_eq by (unfold len in *; lia). done.
    + rewrite list_lookup_insert_ne by lia. apply Hc. lia.
  - rewrite E1, bind_Val. exists c1. split; [done|]. split; [done|].
    intros j Hj. apply Hc1. unfold trips. lia.
Qed.

Theorem dlDistance_spec p :
  len a + len b + 1 <= int_max ->
  dlDistance ceq p a b = Val (DZ (len a) (len b)).
Proof.
  intros Hmax. unfold dlDistance.
  pose proof (len_nonneg a) as Hm0. pose proof (len_nonneg b) as Hn0.
  set (m := len a) in *. set (n := len b) in *.
  destruct (Z.eqb_spec m 0) as [->|Hm]; [by rewrite DZ_0|].
  destruct (Z.eqb_spec n 0) as [->|Hn]; [by rewrite DZ_i0|].
  rewrite add_id by (unfold is_int, int_min, int_max in *; lia).
  set (prev2 := getIntSlice (pool_a p) (n + 1)).
  set (prev := getIntSlice (pool_b p) (n + 1)).
  set (curr := getIntSlice (pool_c p) (n + 1)).
  assert (len prev2 = n + 1) as L2 by (apply len_getIntSlice; lia).
  assert (len prev = n + 1) as L1 by (apply len_getIntSlice; lia).
  assert (len curr = n + 1) as L0 by (apply len_getIntSlice; lia).
  clearbody prev2 prev curr.
  destruct (for_loop_inv
    (fun j r => len r = n + 1 /\
       forall j', 0 <= j' < j -> r !! Z.to_nat j' = Some j')
    (trips 0 n) 0 (fun j r => wr r j j) prev) as (r0 & E0 & Lr0 & Hr0).
  - split; [done|]. intros; lia.
  - intros j r Hj [Lr Hr]. unfold trips in Hj. rewrite wr_Val by lia.
    eexists; split; [reflexivity|]. split; [by rewrite len_insert|].
    intros j' Hj'. destruct (decide (j' = j)) as [->|Hne].
    + rewrite list_lookup_insert_eq by (unfold len in *; lia). done.
    + rewrite list_lookup_insert_ne by lia. apply Hr. lia.
  - rewrite E0, bind_Val.
    destruct (for_loop_inv
      (fun i (st : rows) => let '(p2, p1, c) := st in
         len p2 = n + 1 /\ len p1 = n + 1 /\ len c = n + 1 /\
         row_exact n (i - 1) p1 /\ (2 <= i -> row_exact n (i - 2) p2))
      (trips 1 m) 1 (dlRow ceq a b n) (prev2, r0, curr))
      as ([[p2 p1] c] & E1 & _ & Lp1 & _ & Hp1 & _).
    + split; [done|]. split; [done|]. split; [done|]. split; [|intros; lia].
      intros j Hj. replace (1 - 1) with 0 by lia. rewrite DZ_0 by lia.
      apply Hr0. unfold trips. lia.
    + intros i [[p2 p1] c] Hi (Lp2 & Lp1 & Lc & Hp1 & Hp2). unfold trips in Hi.
      destruct (dlRow_exact n i p2 p1 c) as (c' & Ec & Lc' & Hc'); try done; try lia.
      exists (p1, c', p2). split; [done|].
      split; [done|]. split; [done|]. split; [done|]. split.
      * by replace (i + 1 - 1) with i by lia.
      * intros _. by replace (i + 1 - 2) with (i - 1) by lia.
    + rewrite E1, bind_Val.
      apply rd_Val; [lia|].
      replace (1 + Z.of_nat (trips 1 m) - 1) with m in Hp1 by (unfold trips; lia).
      apply Hp1. lia.
Qed.

(** *** The bounded kernel *)

Abbreviation cell_ok := (cell_ok ceq a b).
Abbreviation row_ok := (row_ok ceq a b).

Lemma cell_ok_insert_ne k r row j j' x :
  j <> j' -> 0 <= j -> 0 <= j' ->
  cell_ok k r row j' -> cell_ok k r (<[Z.to_nat j := x]> row) j'.
Proof.
  intros Hne Hj Hj' (y & Ey & Hy). exists y. split; [|done].
  rewrite list_lookup_insert_ne by lia. done.
Qed.

Lemma dlRowMax_ok n k i prev2 prev curr :
  n = len b -> 0 <= k -> 1 <= i <= len a ->
  k + len a + 2 <= int_max -> 1 <= n ->
  len a <= n + k -> n <= len a + k ->
  len prev2 = n + 1 -> len prev = n + 1 -> len curr = n + 1 ->
  row_ok k n (i - 1) prev ->
  (2 <= i -> row_ok k n (i - 2) prev2) ->
  (exists curr', dlRowMax ceq a b n k (k + 1) i (prev2, prev, curr)
                 = Val (inl (prev, curr', prev2)) /\
     len curr' = n + 1 /\ row_ok k n i curr') \/
  (dlRowMax ceq a b n k (k + 1) i (prev2, prev, curr) = Val (inr (k + 1)) /\
     forall j, 0 <= j <= n -> k < DZ i j).
Proof.
  intros Hn Hk Hi Hmax Hn1 Hmn Hnm L2 L1 L0 Hprev Hprev2.
  unfold dlRowMax. rewrite wr_Val, bind_Val by lia.
  rewrite !(add_id i k), !(sub_id i k), !(add_id k 1)
    by (unfold is_int, int_min, int_max in *; lia).
  set (jStart := if k <? i then i - k else 1).
  set (jEnd := if i + k <? n then i + k else n).
  assert (1 <= jStart /\ jStart <= jEnd /\ jEnd <= n /\
          i - k <= jStart /\ jEnd <= i + k) as (Hs1 & Hse & Hen & Hsl & Heu).
  { subst jStart jEnd.
    destruct (Z.ltb_spec k i), (Z.ltb_spec (i + k) n); lia. }
  rewrite !(sub_id jStart 1), !(add_id jEnd 1)
    by (unfold is_int, int_min, int_max in *; lia).
  (* the cell left of the band *)
  set (c0 := <[Z.to_nat 0 := i]> curr).
  assert (exists c1,
    (if 1 <? jStart then wr c0 (jStart - 1) (k + 1) else Val c0) = Val c1 /\
    len c1 = n + 1 /\ cell_ok k i c1 (jStart - 1)) as (c1 & E1 & Lc1 & Hc1).
  { assert (len c0 = n + 1) as Lc0 by (subst c0; by rewrite len_insert).
    destruct (Z.ltb_spec 1 jStart) as [Hgt|Hle].
    - rewrite wr_Val by lia. eexists; split; [reflexivity|].
      split; [by rewrite len_insert|].
      exists (k + 1). split; [|split; [|lia]].
      + rewrite list_lookup_insert_eq by (unfold len in *; lia). done.
      + right. split; [lia|].
        pose proof (DZ_diff i (jStart - 1) ltac:(lia) ltac:(lia)).
        subst jStart. destruct (Z.ltb_spec k i); lia.
    - eexists; split; [reflexivity|]. split; [done|].
      replace (jStart - 1) with 0 by lia.
      exists i. split; [|split; [|lia]].
      + subst c0. rewrite list_lookup_insert_eq by (unfold len in *; lia). done.
      + left. by rewrite DZ_i0 by lia. }
  rewrite E1, bind_Val. clear E1.
  (* the band *)
  destruct (for_loop_inv
    (fun j (st : list Z * Z) => let '(c, rowMin) := st in
       len c = n + 1 /\
       (forall j', jStart - 1 <= j' < j -> cell_ok k i c j') /\
       (forall j' x, jStart <= j' < j -> c !! Z.to_nat j' = Some x -> rowMin <= x))
    (trips jStart jEnd) jStart
    (fun j '(c, rowMin) =>
       dist ← dlCell ceq a b prev2 prev c i j;
       c ← wr c j dist;
       Val (c, if dist <? rowMin then dist else rowMin))
    (c1, k + 1)) as ([c2 rowMin] & E2 & Lc2 & Hc2 & Hmin).
  - split; [done|]. split; [|intros; lia].
    intros j' Hj'. by replace j' with (jStart - 1) by lia.
  - intros j [c rm] Hj (Lc & Hc & Hrm). unfold trips in Hj.
    destruct (Hprev j) as (pj & Epj & Apj & Bpj); [lia|lia|].
    destruct (Hprev (j - 1)) as (pj1 & Epj1 & Apj1 & Bpj1); [lia|lia|].
    destruct (Hc (j - 1)) as (cj1 & Ecj1 & Acj1 & Bcj1); [lia|].
    destruct (dlCell_agree k (i + k + 1) prev2 prev c i j pj cj1 pj1)
      as (d & Ed & Ad & Bd); try done; try lia.
    { intros Hi1 Hj1.
      destruct (Hprev2 ltac:(lia) (j - 2)) as (p2 & Ep2 & Ap2 & Bp2); [lia|lia|].
      exists p2. split; [done|]. split; [done|]. lia. }
    rewrite Ed, bind_Val, wr_Val, bind_Val by lia.
    eexists; split; [reflexivity|]. split; [by rewrite len_insert|]. split.
    + intros j' Hj'. destruct (decide (j' = j)) as [->|Hne].
      * exists d. split; [|split; [done|lia]].
        rewrite list_lookup_insert_eq by (unfold len in *; lia). done.
      * apply cell_ok_insert_ne; [lia|lia|lia|]. apply Hc. lia.
    + intros j' x Hj'. destruct (decide (j' = j)) as [->|Hne].
      * rewrite list_lookup_insert_eq by (unfold len in *; lia).
        intros [= <-]. destruct (Z.ltb_spec d rm); lia.
      * rewrite list_lookup_insert_ne by lia. intros Hx.
        pose proof (Hrm j' x ltac:(lia) Hx). destruct (Z.ltb_spec d rm); lia.
  - rewrite E2, bind_Val. clear E2.
    replace (jStart + Z.of_nat (trips jStart jEnd)) with (jEnd + 1) in *
      by (unfold trips; lia).
    destruct (Z.ltb_spec k rowMin) as [Hexit|Hstay].
    + (* the whole row exceeds k *)
      right. split; [done|].
      assert (forall j, jStart <= j <= jEnd -> k < DZ i j) as Hband.
      { intros j Hj. destruct (Hc2 j) as (x & Ex & Ax & Bx); [lia|].
        pose proof (Hmin j x ltac:(lia) Ex). unfold agree in Ax. lia. }
      intros j Hj.
      destruct (decide (jStart <= j <= jEnd)) as [Hin|Hout]; [by apply Hband|].
      pose proof (DZ_diff i j ltac:(lia) ltac:(lia)) as Hd.
      destruct (decide (j < jStart)) as [Hlt|Hge].
      * destruct (decide (jStart = 1)) as [Hs|Hs].
        -- assert (j = 0) as -> by lia. rewrite DZ_i0 by lia.
           pose proof (Hband 1 ltac:(lia)) as H1.
           replace (Z.to_nat i) with (S (Z.to_nat (i - 1))) in H1 by lia.
           change (Z.to_nat 1) with 1%nat in H1.
           pose proof (dlD_sub ceq a b (Z.to_nat (i - 1)) 0) as H2.
           pose proof (cost_range ceq a b (Z.to_nat (i - 1)) 0) as H3.
           rewrite dlD_i0 in H2. lia.
        -- subst jStart. destruct (Z.ltb_spec k i); lia.
      * subst jEnd. destruct (Z.ltb_spec (i + k) n); lia.
    + (* the sentinel right of the band *)
      left.
      assert (exists c3,
        (if jEnd <? n then wr c2 (jEnd + 1) (k + 1) else Val c2) = Val c3 /\
        len c3 = n + 1 /\
        (forall j', jStart - 1 <= j' <= jEnd -> cell_ok k i c3 j') /\
        (jEnd < n -> cell_ok k i c3 (jEnd + 1))) as (c3 & E3 & Lc3 & Hc3 & Hc3').
      { destruct (Z.ltb_spec jEnd n) as [Hlt|Hge].
        - rewrite wr_Val by lia. eexists; split; [reflexivity|].
          split; [by rewrite len_insert|]. split.
          + intros j' Hj'. apply cell_ok_insert_ne; [lia|lia|lia|].
            apply Hc2. lia.
          + intros _. exists (k + 1). split; [|split; [|lia]].
            * rewrite list_lookup_insert_eq by (unfold len in *; lia). done.
            * right. split; [lia|].
              pose proof (DZ_diff i (jEnd + 1) ltac:(lia) ltac:(lia)).
              subst jEnd. destruct (Z.ltb_spec (i + k) n); lia.
        - eexists; split; [reflexivity|]. split; [done|].
          split; [|lia]. intros j' Hj'. apply Hc2. lia. }
      rewrite E3, bind_Val. exists c3. split; [done|]. split; [done|].
      intros j Hj Hw.
      destruct (decide (j <= jEnd)) as [Hle|Hgt].
      * apply Hc3. subst jStart. destruct (Z.ltb_spec k i); lia.
      * assert (j = jEnd + 1) as ->
          by (subst jEnd; destruct (Z.ltb_spec (i + k) n); lia).
        apply Hc3'. lia.
Qed.

Theorem dlDistanceMax_spec p k :
  0 <= k -> k + len a + 2 <= int_max -> len b <= int_max ->
  dlDistanceMax ceq p a b k =
  Val (if DZ (len a) (len b) <=? k then DZ (len a) (len b) else k + 1).
Proof.
  intros Hk Hmax Hbmax. unfold dlDistanceMax.
  pose proof (len_nonneg a) as Hm0. pose proof (len_nonneg b) as Hn0.
  set (m := len a) in *. set (n := len b) in *.
  rewrite !(add_id k 1) by (unfold is_int, int_min, int_max in *; lia).
  destruct (Z.eqb_spec m 0) as [Hm|Hm].
  { rewrite Hm, DZ_0 by lia. by destruct (Z.leb_spec n k). }
  destruct (Z.eqb_spec n 0) as [Hn|Hn].
  { rewrite Hn, DZ_i0 by lia. by destruct (Z.leb_spec m k). }
  rewrite sub_id, neg_id by (unfold is_int, int_min, int_max in *; lia).
  pose proof (DZ_diff m n ltac:(lia) ltac:(lia)) as Hdiff.
  destruct (Z.ltb_spec k (m - n)) as [Hd1|Hd1]; cbn [orb].
  { destruct (Z.leb_spec (DZ m n) k); [lia|done]. }
  destruct (Z.ltb_spec (m - n) (- k)) as [Hd2|Hd2].
  { destruct (Z.leb_spec (DZ m n) k); [lia|done]. }
  rewrite add_id by (unfold is_int, int_min, int_max in *; lia).
  set (prev2 := getIntSlice (pool_a p) (n + 1)).
  set (prev := getIntSlice (pool_b p) (n + 1)).
  set (curr := getIntSlice (pool_c p) (n + 1)).
  assert (len prev2 = n + 1) as L2 by (apply len_getIntSlice; lia).
  assert (len prev = n + 1) as L1 by (apply len_getIntSlice; lia).
  assert (len curr = n + 1) as L0 by (apply len_getIntSlice; lia).
  clearbody prev2 prev curr.
  destruct (for_loop_inv
    (fun j r => len r = n + 1 /\
       forall j', 0 <= j' < j ->
         r !! Z.to_nat j' = Some (if j' <=? k then j' else k + 1))
    (trips 0 n) 0 (fun j r => wr r j (if j <=? k then j else k + 1)) prev)
    as (r0 & E0 & Lr0 & Hr0).
  - split; [done|]. intros; lia.
  - intros j r Hj [Lr Hr]. unfold trips in Hj. rewrite wr_Val by lia.
    eexists; split; [reflexivity|]. split; [by rewrite len_insert|].
    intros j' Hj'. destruct (decide (j' = j)) as [->|Hne].
    + rewrite list_lookup_insert_eq by (unfold len in *; lia). done.
    + rewrite list_lookup_insert_ne by lia. apply Hr. lia.
  - rewrite E0, bind_Val. clear E0.
    destruct (for_loop_ret_inv
      (fun i (st : rows) => let '(p2, p1, c) := st in
         len p2 = n + 1 /\ len p1 = n + 1 /\ len c = n + 1 /\
         row_ok k n (i - 1) p1 /\ (2 <= i -> row_ok k n (i - 2) p2))
      (fun r => r = k + 1 /\ k < DZ m n)
      (trips 1 m) 1 (dlRowMax ceq a b n k (k + 1)) (prev2, r0, curr))
      as [([[p2 p1] c] & E1 & _ & Lp1 & _ & Hp1 & _)|(r & E1 & -> & Hr)].
    + split; [done|]. split; [done|]. split; [done|]. split; [|intros; lia].
      intros j Hj Hw. exists (if j <=? k then j else k + 1).
      split; [apply Hr0; unfold trips; lia|].
      replace (1 - 1) with 0 by lia. rewrite DZ_0 by lia.
      destruct (Z.leb_spec j k); split; try lia; left; lia.
    + intros i [[p2 p1] c] Hi (Lp2 & Lp1 & Lc & Hp1 & Hp2). unfold trips in Hi.
      destruct (dlRowMax_ok n k i p2 p1 c)
        as [(c' & Ec & Lc' & Hc')|(Ec & Hrow)]; try done; try lia.
      * left. exists (p1, c', p2). split; [done|].
        split; [done|]. split; [done|]. split; [done|]. split.
        -- by replace (i + 1 - 1) with i by lia.
        -- intros _. by replace (i + 1 - 2) with (i - 1) by lia.
      * right. exists (k + 1). split; [done|]. split; [done|].
        apply (dlD_row_mono ceq ceq_spec a b (Z.to_nat n) k (Z.to_nat i));
          [lia| |lia].
        intros j Hj. specialize (Hrow (Z.of_nat j) ltac:(lia)).
        by rewrite Nat2Z.id in Hrow.
    + rewrite E1, bind_Val.
      replace (1 + Z.of_nat (trips 1 m) - 1) with m in Hp1 by (unfold trips; lia).
      destruct (Hp1 n) as (x & Ex & Ax & Bx); [lia|lia|].
      rewrite (rd_Val p1 n x), bind_Val by (done || lia).
      unfold agree in Ax.
      destruct (Z.ltb_spec k x), (Z.leb_spec (DZ m n) k); try lia; f_equal; lia.
    + rewrite E1, bind_Val. destruct (Z.leb_spec (DZ m n) k); [lia|done].
Qed.
End KernelFacts.

(** ** The two surfaces of the kernel, for every pool content *)

Lemma byte_val_inj x y : byte_val x = byte_val y -> x = y.
Proof.
  unfold byte_val. intros H. apply N2Z.inj in H.
  rewrite <- (ascii_N_embedding x), <- (ascii_N_embedding y). by rewrite H.
Qed.

Lemma byte_val_range c : 0 <= byte_val c < 256.
Proof. unfold byte_val. pose proof (N_ascii_bounded c). lia. Qed.

Lemma ascii_eqb_spec x y : Ascii.eqb x y = true <-> x = y.
Proof. apply Ascii.eqb_eq. Qed.

Lemma Z_eqb_spec x y : Z.eqb x y = true <-> x = y.
Proof. apply Z.eqb_eq. Qed.

Lemma len_runes_skip k s : len (runes_skip k s) <= len s.
Proof.
  unfold len. revert k. induction s as [|c s IH]; intros k; cbn [runes_skip]; [cbn; lia|].
  destruct k as [|k].
  - destruct (decodeRune c s) as [r w]. specialize (IH (Nat.pred w)).
    rewrite !length_cons. lia.
  - specialize (IH k). rewrite length_cons. lia.
Qed.

(** A string has at most as many runes as bytes. *)
Lemma len_runes s : len (runes s) <= len s.
Proof. apply len_runes_skip. Qed.

Lemma runes_ascii s : isASCII s = true -> runes s = byte_val <$> s.
Proof.
  unfold runes. induction s as [|c s IH]; [done|].
  cbn [isASCII runes_skip fmap list_fmap]. unfold RuneSelf.
  destruct (Z.leb_spec 128 (byte_val c)) as [|Hc]; [done|].
  intros Hs. unfold decodeRune, RuneSelf.
  destruct (Z.ltb_spec (byte_val c) 128); [|lia].
  cbn [Nat.pred]. f_equal. by apply IH.
Qed.

(** X24.  The bounded distance agrees with the plain one: as long as
    [k >= 0] and [k] plus the two lengths stays inside [int],
    [DistanceMax(a, b, k)] is [Distance(a, b)] when that is at most [k]
    and [k + 1] otherwise, for every content of the buffer pools. *)
Theorem DistanceMax_in_range d p p' a b k :
  0 <= k -> k + len a + len b + 2 <= int_max ->
  exists dist,
    Distance d p' a b = Val dist /\
    DistanceMax d p a b k = Val (if dist <=? k then dist else k + 1).
Proof.
  intros Hk Hmax. unfold Distance, DistanceMax.
  pose proof (len_nonneg a). pose proof (len_nonneg b).
  pose proof (len_runes a). pose proof (len_runes b).
  pose proof (len_nonneg (runes a)). pose proof (len_nonneg (runes b)).
  case_decide; [|exists 0; split; [done|]; by destruct (Z.leb_spec 0 k); [|lia]].
  destruct (isASCII a && isASCII b).
  - eexists. split.
    + apply (dlDistance_spec Ascii.eqb a b p'). lia.
    + apply (dlDistanceMax_spec Ascii.eqb ascii_eqb_spec a b p k); lia.
  - eexists. split.
    + apply (dlDistance_spec Z.eqb (runes a) (runes b) p'). lia.
    + apply (dlDistanceMax_spec Z.eqb Z_eqb_spec (runes a) (runes b) p k); lia.
Qed.

Lemma DistanceMax_in_range_witness :
  exists dist,
    Distance (NewEditDistance DamerauLevenshtein) fresh_pool (str "hello") (str "help")
      = Val dist /\
    DistanceMax (NewEditDistance DamerauLevenshtein) fresh_pool (str "hello") (str "help") 1
      = Val (if dist <=? 1 then dist else 1 + 1).
Proof.
  apply DistanceMax_in_range.
  - lia.
  - vm_compute. discriminate.
Defined.

(** C1.  [DistanceMax(a, b, k)] is claimed to be the exact distance
    whenever that is at most [k], for every [k >= 0].  Near the top of
    the [int] range the band limit [i + k] wraps around: for
    [k = MaxInt64 - 1] the second row of "ab" against "ab" gets an
    empty band, its minimum stays at [k + 1], and the function
    returns [k + 1 = MaxInt64] although the distance is 0. *)
Theorem DistanceMax_wraps_near_max_int :
  let d := NewEditDistance DamerauLevenshtein in
  Distance d fresh_pool (str "ab") (str "ab") = Val 0 /\
  0 <= int_max - 1 /\
  DistanceMax d fresh_pool (str "ab") (str "ab") (int_max - 1) = Val int_max.
Proof. vm_compute. repeat split; discriminate. Qed.

(** For [k = MaxInt64] the same wrap-around makes the write of the
    right sentinel, [curr[jEnd+1]], an index out of range. *)
Lemma DistanceMax_panics_at_max_int :
  DistanceMax (NewEditDistance DamerauLevenshtein) fresh_pool (str "a") (str "a") int_max
  = Panic.
Proof. vm_compute. reflexivity. Qed.

(** ** Bytes against runes *)

Lemma rd_fmap {A B} (f : A -> B) (s : list A) i :
  rd (f <$> s) i = run_bind (fun x => Val (f x)) (rd s i).
Proof.
  unfold rd. case_decide; [|done].
  rewrite list_lookup_fmap. by destruct (s !! Z.to_nat i).
Qed.

Lemma len_fmap {A B} (f : A -> B) (s : list A) : len (f <$> s) = len s.
Proof. unfold len. by rewrite length_fmap. Qed.

Lemma for_loop_ext {S} cnt lo (f g : Z -> S -> run S) s :
  (forall j s, f j s = g j s) -> for_loop cnt lo f s = for_loop cnt lo g s.
Proof.
  intros H. revert lo s. induction cnt as [|cnt IH]; intros lo s; [done|].
  cbn [for_loop]. rewrite H. destruct (g lo s); cbn; [apply IH|done|done].
Qed.

Lemma for_loop_ret_ext {S R} cnt lo (f g : Z -> S -> run (S + R)) s :
  (forall j s, f j s = g j s) -> for_loop_ret cnt lo f s = for_loop_ret cnt lo g s.
Proof.
  intros H. revert lo s. induction cnt as [|cnt IH]; intros lo s; [done|].
  cbn [for_loop_ret]. rewrite H. destruct (g lo s) as [[s'|r]| |]; cbn; [apply IH|done..].
Qed.

Section Renaming.
(** The kernel only compares elements: renaming them by a map that
    preserves [==] changes nothing. *)
Context {C C' : Type} (ceq : C -> C -> bool) (ceq' : C' -> C' -> bool) (f : C -> C').
Hypothesis f_eq : forall x y, ceq' (f x) (f y) = ceq x y.

Lemma dlCell_fmap a b prev2 prev curr i j :
  dlCell ceq' (f <$> a) (f <$> b) prev2 prev curr i j
  = dlCell ceq a b prev2 prev curr i j.
Proof.
  unfold dlCell. rewrite !rd_fmap.
  destruct (rd a (i - 1)) as [ai| |]; [|done..].
  destruct (rd b (j - 1)) as [bj| |]; [|done..].
  cbn [mbind run_mbind run_bind]. rewrite f_eq.
  destruct (rd prev j) as [pj| |]; [|done..].
  destruct (rd curr (j - 1)) as [cj1| |]; [|done..].
  destruct (rd prev (j - 1)) as [pj1| |]; [|done..].
  cbn [mbind run_mbind run_bind].
  destruct ((1 <? i) && (1 <? j)); [|done].
  destruct (rd b (j - 2)) as [bj2| |]; [|done..].
  cbn [mbind run_mbind run_bind]. rewrite f_eq.
  destruct (ceq ai bj2); [|done].
  destruct (rd a (i - 2)) as [ai2| |]; [|done..].
  cbn [mbind run_mbind run_bind]. by rewrite f_eq.
Qed.

Lemma dlDistance_fmap p a b :
  dlDistance ceq' p (f <$> a) (f <$> b) = dlDistance ceq p a b.
Proof.
  unfold dlDistance. rewrite !len_fmap.
  do 2 (destruct (_ =? 0); [done|]).
  destruct (for_loop _ _ _ _) as [prev| |]; [|done..].
  cbn [mbind run_mbind run_bind]. f_equal.
  apply for_loop_ext. intros i [[p2 p1] c]. unfold dlRow.
  destruct (wr c 0 i) as [c0| |]; [|done..].
  cbn [mbind run_mbind run_bind]. f_equal.
  apply for_loop_ext. intros j c'. by rewrite dlCell_fmap.
Qed.

Lemma dlDistanceMax_fmap p a b k :
  dlDistanceMax ceq' p (f <$> a) (f <$> b) k = dlDistanceMax ceq p a b k.
Proof.
  unfold dlDistanceMax. rewrite !len_fmap.
  do 2 (destruct (_ =? 0); [done|]).
  destruct (_ || _); [done|].
  destruct (for_loop _ _ _ _) as [prev| |]; [|done..].
  cbn [mbind run_mbind run_bind]. f_equal.
  apply for_loop_ret_ext. intros i [[p2 p1] c]. unfold dlRowMax.
  destruct (wr c 0 i) as [c0| |]; [|done..].
  cbn [mbind run_mbind run_bind].
  destruct (if 1 <? _ then _ else _) as [c1| |]; [|done..].
  cbn [mbind run_mbind run_bind]. f_equal.
  apply for_loop_ext. intros j [c' rm]. by rewrite dlCell_fmap.
Qed.
End Renaming.

(** C7.  On 7-bit ASCII strings the byte kernels and the rune kernels
    return the same value, plain and bounded, at every [k]: first as
    functions of the buffers the pool hands out, whatever these hold;
    and, as long as the lengths (and [k]) stay inside [int], also when
    the two calls get different buffers. *)
Theorem bytes_runes_same_distance p p' a b k :
  isASCII a = true -> isASCII b = true ->
  (damerauLevenshteinDistance p a b
     = damerauLevenshteinDistanceRunes p (runes a) (runes b) /\
   damerauLevenshteinDistanceMax p a b k
     = damerauLevenshteinDistanceMaxRunes p (runes a) (runes b) k) /\
  (len a + len b + 1 <= int_max ->
   damerauLevenshteinDistance p a b
     = damerauLevenshteinDistanceRunes p' (runes a) (runes b)) /\
  (0 <= k -> k + len a + len b + 2 <= int_max ->
   damerauLevenshteinDistanceMax p a b k
     = damerauLevenshteinDistanceMaxRunes p' (runes a) (runes b) k).
Proof.
  intros Ha Hb. rewrite (runes_ascii a Ha), (runes_ascii b Hb).
  assert (forall x y, Z.eqb (byte_val x) (byte_val y) = Ascii.eqb x y) as Hf.
  { intros x y. destruct (Ascii.eqb_spec x y) as [->|Hne].
    - apply Z.eqb_refl.
    - apply Z.eqb_neq. intros H. by apply Hne, byte_val_inj. }
  unfold damerauLevenshteinDistance, damerauLevenshteinDistanceRunes,
    damerauLevenshteinDistanceMax, damerauLevenshteinDistanceMaxRunes.
  pose proof (len_nonneg a). pose proof (len_nonneg b).
  rewrite !(dlDistance_fmap Ascii.eqb Z.eqb byte_val Hf).
  rewrite !(dlDistanceMax_fmap Ascii.eqb Z.eqb byte_val Hf).
  split; [done|]. split.
  - intros Hlen.
    rewrite (dlDistance_spec Ascii.eqb a b p), (dlDistance_spec Ascii.eqb a b p'); done.
  - intros Hk Hlen.
    rewrite (dlDistanceMax_spec Ascii.eqb ascii_eqb_spec a b p k),
      (dlDistanceMax_spec Ascii.eqb ascii_eqb_spec a b p' k); (done || lia).
Qed.

Lemma bytes_runes_same_distance_witness :
  isASCII (str "kitten") = true /\ isASCII (str "sitting") = true /\
  damerauLevenshteinDistanceMax (Pool3 [9; 9; 9; 9; 9; 9; 9; 9; 9] [] [7; 7; 7; 7; 7; 7; 7; 7])
    (str "kitten") (str "sitting") 2
  = damerauLevenshteinDistanceMaxRunes fresh_pool
      (runes (str "kitten")) (runes (str "sitting")) 2.
Proof.
  split; [reflexivity|]. split; [reflexivity|].
  apply (bytes_runes_same_distance
           (Pool3 [9; 9; 9; 9; 9; 9; 9; 9; 9] [] [7; 7; 7; 7; 7; 7; 7; 7]) fresh_pool
           (str "kitten") (str "sitting") 2); try reflexivity.
  - lia.
  - apply Z.leb_le. reflexivity.
Defined.

(** ** Counts *)

(** C9.  [incrementCount] is the saturating sum: the exact sum capped
    at [2^32 - 1]; it never wraps and never falls below the previous
    count. *)
Theorem incrementCount_saturates count countPrevious :
  is_u32 count -> is_u32 countPrevious ->
  incrementCount count countPrevious = Z.min (countPrevious + count) maxUint32 /\
  is_u32 (incrementCount count countPrevious) /\
  countPrevious <= incrementCount count countPrevious.
Proof.
  unfold is_u32, incrementCount, u32, maxUint32. intros Hc Hp.
  rewrite (Z.mod_small (4294967295 - countPrevious)) by lia.
  destruct (Z.ltb_spec count (4294967295 - countPrevious)).
  - rewrite Z.mod_small by lia. lia.
  - lia.
Qed.

Lemma incrementCount_saturates_witness :
  is_u32 4294967290 /\ is_u32 7 /\
  incrementCount 4294967290 7 = Z.min (7 + 4294967290) maxUint32 /\
  is_u32 (incrementCount 4294967290 7) /\
  7 <= incrementCount 4294967290 7.
Proof.
  assert (is_u32 4294967290) as H1 by (unfold is_u32, maxUint32; lia).
  assert (is_u32 7) as H2 by (unfold is_u32, maxUint32; lia).
  split; [exact H1|]. split; [exact H2|].
  exact (incrementCount_saturates 4294967290 7 H1 H2).
Defined.

(** ** Lookup *)

Lemma set_cache_id s : set_cache s (cache s) = s.
Proof. by destruct s. Qed.

Ltac run_cases H :=
  unfold mbind, run_mbind, run_bind in H;
  repeat (case_match; try discriminate; simplify_eq).

Lemma Lookup_too_large fuel s p v k :
  MaxDictionaryEditDistance s < k ->
  Lookup fuel s p v k = Val (s, Error "distance too large").
Proof.
  intros Hk. unfold Lookup.
  by destruct (Z.ltb_spec (MaxDictionaryEditDistance s) k); [|lia].
Qed.

(** C4 (as the code has it).  [Lookup] returns its error exactly when
    the bound exceeds [MaxDictionaryEditDistance]; a negative bound is
    not rejected. *)
Theorem Lookup_error_iff fuel s p v k :
  (exists s' msg, Lookup fuel s p v k = Val (s', Error msg))
  <-> MaxDictionaryEditDistance s < k.
Proof.
  split.
  - intros (s' & msg & H). unfold Lookup in H.
    destruct (Z.ltb_spec (MaxDictionaryEditDistance s) k); [done|].
    exfalso. run_cases H.
  - intros Hk. exists s, "distance too large"%string. by apply Lookup_too_large.
Qed.

(** C4 (as stated) fails: with the default options, where
    [MaxDictionaryEditDistance] is 2, the bound [-1] lies outside
    [0 .. 2], and the call returns an empty list and no error. *)
Lemma Lookup_negative_bound_not_rejected :
  ~ (0 <= -1 <= opt_MaxDictionaryEditDistance DefaultOptions) /\
  (s ← buildDictionary DefaultOptions [];
   '(_, r) ← Lookup 0 s (str "a") All (-1);
   Val r) = Val (Suggestions []).
Proof. split; [cbn; lia|reflexivity]. Qed.

(** *** The order of the result *)

Lemma item_le_ranked x y : item_le x y <-> ranked x y.
Proof.
  unfold item_le, ranked, less.
  destruct (Z.eqb_spec (Distance_ y) (Distance_ x)),
    (Z.ltb_spec (Count x) (Count y)), (Z.ltb_spec (Distance_ y) (Distance_ x));
    split; intros; try done; lia.
Qed.

#[local] Instance item_le_total : Total item_le.
Proof.
  intros x y. rewrite !item_le_ranked. unfold ranked.
  destruct (Z.lt_trichotomy (Distance_ x) (Distance_ y)) as [H|[H|H]].
  - left. lia.
  - destruct (Z.le_ge_cases (Count x) (Count y)); [right|left]; lia.
  - right. lia.
Qed.

Lemma Sorted_short {A} (R : relation A) (l : list A) :
  (length l <= 1)%nat -> Sorted R l.
Proof.
  destruct l as [|x [|y l]]; cbn; intros H; [constructor|repeat constructor|lia].
Qed.

Lemma Sorted_weaken {A} (R R' : relation A) (l : list A) :
  (forall x y, R x y -> R' x y) -> Sorted R l -> Sorted R' l.
Proof.
  intros HR. induction 1 as [|x l Hs IH Hh]; constructor; [done|].
  destruct Hh; constructor. by apply HR.
Qed.

Lemma sortCandidate_sorted cp : Sorted ranked (suggestions (sortCandidate cp)).
Proof.
  unfold sortCandidate. destruct (Z.ltb_spec 1 (len (suggestions cp))) as [H|H].
  - cbn. apply (Sorted_weaken item_le); [intros x y; apply item_le_ranked|].
    apply Sorted_merge_sort. apply _.
  - apply Sorted_short. unfold len in H. lia.
Qed.

Lemma sortCandidate_perm cp : suggestions (sortCandidate cp) ≡ₚ suggestions cp.
Proof.
  unfold sortCandidate. destruct (1 <? len (suggestions cp)); [|done].
  cbn. apply merge_sort_Permutation.
Qed.

Lemma checkExactMatch_suggestions s p v cp cp' e :
  checkExactMatch s p v cp = Val (cp', e) ->
  (Words s !! p = None /\ exactItem e = None /\ suggestions cp' = suggestions cp) \/
  (exists idx c, Words s !! p = Some idx /\ rd (counts s) idx = Val c /\
     exactItem e = Some (Item p 0 c) /\
     suggestions cp' = suggestions cp ++ [Item p 0 c] /\
     shouldStop e = bool_decide (v <> All) && (FrequencyThreshold s <=? c)).
Proof.
  unfold checkExactMatch. intros H.
  destruct (Words s !! p) as [idx|]; [|left; by simplify_eq].
  destruct (rd (counts s) idx) as [c| |] eqn:Ec; [|done..].
  cbn [mbind run_mbind run_bind] in H.
  right. exists idx, c. destruct (_ && _) eqn:Eb; simplify_eq; cbn; by rewrite ?Eb.
Qed.

(** C8.  Every list of suggestions that [Lookup] returns is sorted:
    from one item to the next the distance does not decrease, and at
    equal distance the count does not increase. *)
Theorem Lookup_sorted fuel s p v k s' l :
  Lookup fuel s p v k = Val (s', Suggestions l) -> Sorted ranked l.
Proof.
  unfold Lookup. intros H.
  destruct (MaxDictionaryEditDistance s <? k); [done|].
  destruct (if decide (v = Top) then _ else _) as [c [item|]].
  { simplify_eq. repeat constructor. }
  cbv zeta in H.
  destruct (maxLength (set_cache s c) <? _).
  { simplify_eq. constructor. }
  destruct (checkExactMatch _ p v _) as [[cp e]| |] eqn:Ee; [|done..].
  cbn [mbind run_mbind run_bind] in H.
  assert (length (suggestions cp) <= 1)%nat as Hlen.
  { apply checkExactMatch_suggestions in Ee as [(_ & _ & ->)|(idx & c0 & _ & _ & _ & -> & _)];
      cbn; lia. }
  destruct (shouldStop e); [simplify_eq; by apply Sorted_short|].
  destruct (k =? 0); [simplify_eq; by apply Sorted_short|].
  destruct (getOriginPrefix _ _) as [pre| |]; [|done..].
  cbn [mbind run_mbind run_bind] in H.
  destruct (processCandidate _ _ _ _) as [cp1| |]; [|done..].
  cbn [mbind run_mbind run_bind] in H.
  pose proof (sortCandidate_sorted
    (finalizeWithFrequencyCheck (set_cache s c) cp1 (exactItem e))) as Hs.
  destruct v, (suggestions (sortCandidate _)); simplify_eq; done.
Qed.

(** ** Reachable stores *)

Lemma u32_range z : is_u32 (u32 z).
Proof.
  unfold is_u32, u32, maxUint32.
  pose proof (Z.mod_pos_bound z 4294967296). lia.
Qed.

Lemma u32_le z : 0 <= z -> u32 z <= z.
Proof. intros. unfold u32. apply Z.mod_le; lia. Qed.

Lemma incrementCount_u32 c p : is_u32 (incrementCount c p).
Proof.
  unfold incrementCount. destruct (_ <? _); [apply u32_range|].
  unfold is_u32, maxUint32. lia.
Qed.

Lemma Val_inj {A} (x y : A) : Val x = Val y -> x = y.
Proof. by intros [= ->]. Qed.

Lemma store_inv_set_cache s c : store_inv s -> store_inv (set_cache s c).
Proof. intros []. by constructor. Qed.

Lemma store_inv_set_Deletes s ix d : store_inv s -> store_inv (set_Deletes s ix d).
Proof. intros []. by constructor. Qed.

Lemma store_inv_set_Below s w : store_inv s -> store_inv (set_BelowThresholdWords s w).
Proof. intros []. by constructor. Qed.

Lemma NewSymSpell_inv o s : options_ok o -> NewSymSpell o = inl s -> store_inv s.
Proof.
  intros (H1 & H2 & H3 & H4 & H5). unfold NewSymSpell, is_int in *.
  destruct (Z.ltb_spec (opt_MaxDictionaryEditDistance o) 0); [done|].
  destruct (Z.ltb_spec (opt_PrefixLength o) 1); [done|].
  destruct (Z.leb_spec (opt_PrefixLength o) (opt_MaxDictionaryEditDistance o)); [done|].
  destruct (Z.ltb_spec (opt_CountThreshold o) 0); [done|].
  destruct (Z.ltb_spec (opt_FrequencyThreshold o) 0); [done|].
  destruct (Z.leb_spec (opt_FrequencyMultiplier o) 1); [done|].
  intros [= <-]. constructor; cbn; try lia; try done.
Qed.

Lemma foldM_inv {A S} (I : S -> Prop) (f : S -> A -> run S) l s s' :
  (forall s x s', I s -> f s x = Val s' -> I s') ->
  I s -> foldM f s l = Val s' -> I s'.
Proof.
  intros Hf. revert s. induction l as [|x l IH]; intros s Hs H; cbn in H.
  - by simplify_eq.
  - destruct (f s x) as [s1| |] eqn:E; [|done..]. eauto.
Qed.

Lemma for_loop_preserves {S} (I : S -> Prop) cnt lo (body : Z -> S -> run S) s s' :
  (forall j s s', I s -> body j s = Val s' -> I s') ->
  I s -> for_loop cnt lo body s = Val s' -> I s'.
Proof.
  intros Hb. revert lo s. induction cnt as [|cnt IH]; intros lo s Hs H; cbn in H.
  - by simplify_eq.
  - destruct (body lo s) as [s1| |] eqn:E; [|done..]. eauto.
Qed.

Lemma addDelete_inv index s d s' :
  store_inv s -> addDelete index s d = Val s' -> store_inv s'.
Proof.
  intros Hs H. unfold addDelete in H.
  destruct (DeletesIdx s !! d) as [v|];
    [|apply Val_inj in H; subst s'; by apply store_inv_set_Deletes].
  destruct (slice_from _ _) as [src| |]; [|done..].
  cbn [mbind run_mbind run_bind] in H.
  destruct (copy_at _ _ _) as [data| |]; [|done..].
  cbn [mbind run_mbind run_bind] in H.
  destruct (wr _ _ _) as [data'| |]; [|done..].
  cbn [mbind run_mbind run_bind] in H.
  apply Val_inj in H. subst s'. by apply store_inv_set_Deletes.
Qed.

Lemma addWordEntry_inv s k count s' ok :
  is_u32 count -> store_inv s -> addWordEntry s k count = Val (s', ok) -> store_inv s'.
Proof.
  intros Hc Hs H. unfold addWordEntry in H.
  destruct ((count =? 0) && (0 <? CountThreshold s)); [by simplify_eq|].
  destruct (addWordEntry_merge s k count) as [[[s1 c1]|s1]| |] eqn:Em; [| |done..];
    cbn [mbind run_mbind run_bind] in H.
  - assert (store_inv s1 /\ is_u32 c1) as [Hs1 Hc1].
    { unfold addWordEntry_merge in Em. run_cases Em; split;
        auto using store_inv_set_Below, incrementCount_u32. }
    destruct (c1 <? CountThreshold s1); [simplify_eq; by apply store_inv_set_Below|].
    simplify_eq. destruct Hs1 as [? ? ? Hcs Hl HW].
    assert (forall m, maxLength s1 <= m -> len k <= m ->
      store_inv (set_maxLength
        (set_Words (set_counts (set_words s1 (words s1 ++ [k])) (counts s1 ++ [c1]))
           (<[k := u32 (len (words s1))]> (Words s1))) m)) as Hnew.
    { intros m Hm Hk. constructor; cbn; try done.
      - apply Forall_app. split; [done|by constructor].
      - rewrite !length_app. cbn. lia.
      - intros k' idx. unfold len in *. rewrite length_app. cbn [length].
        destruct (decide (k = k')) as [->|Hne].
        + rewrite lookup_insert_eq. intros [= <-].
          pose proof (u32_range (Z.of_nat (length (words s1)))) as Hu.
          pose proof (u32_le (Z.of_nat (length (words s1))) ltac:(lia)).
          unfold is_u32 in Hu. split; lia.
        + rewrite lookup_insert_ne by done. intros Hk'.
          destruct (HW k' idx Hk'). split; lia. }
    cbn [maxLength set_Words set_counts set_words].
    destruct (Z.ltb_spec (maxLength s1) (len k)).
    + apply Hnew; lia.
    + specialize (Hnew (maxLength s1) ltac:(lia) ltac:(lia)).
      by destruct s1.
  - simplify_eq. unfold addWordEntry_merge in Em. run_cases Em.
    + by apply store_inv_set_Below.
    + destruct Hs as [? ? ? Hcs Hl HW]. constructor; cbn; try done.
      * match goal with H : wr _ _ _ = Val _ |- _ =>
          unfold wr in H; case_decide; [|done]; simplify_eq end.
        apply Forall_insert; [done|apply incrementCount_u32].
      * match goal with H : wr _ _ _ = Val _ |- _ =>
          unfold wr in H; case_decide; [|done]; simplify_eq end.
        by rewrite length_insert.
      * match goal with H : wr _ _ _ = Val _ |- _ =>
          unfold wr in H; case_decide; [|done]; simplify_eq end.
        unfold len. rewrite length_insert. apply HW.
Qed.

Lemma createDictionaryEntry_inv s k count s' ok :
  is_u32 count -> store_inv s -> createDictionaryEntry s k count = Val (s', ok) ->
  store_inv s'.
Proof.
  intros Hc Hs H. unfold createDictionaryEntry in H.
  destruct (addWordEntry s k count) as [[s1 ok1]| |] eqn:Ea; [|done..].
  cbn [mbind run_mbind run_bind] in H.
  apply addWordEntry_inv in Ea; [|done..].
  destruct ok1; cbn [negb] in H; [|by simplify_eq].
  unfold addDeletesForIndex in H.
  destruct (editsPrefix s1 k) as [es| |]; [|done..].
  cbn [mbind run_mbind run_bind] in H.
  destruct (foldM _ s1 _) as [s2| |] eqn:Ef; [|done..].
  cbn [mbind run_mbind run_bind] in H. simplify_eq.
  eapply (foldM_inv store_inv); [|exact Ea|exact Ef].
  intros ? ? ?. apply addDelete_inv.
Qed.

Lemma Lookup_store fuel s p v k s' r :
  Lookup fuel s p v k = Val (s', r) -> s' = set_cache s (cache s').
Proof.
  unfold Lookup. intros H.
  destruct (MaxDictionaryEditDistance s <? k); [simplify_eq; by destruct s'|].
  destruct (if decide (v = Top) then _ else _) as [c hit].
  run_cases H; done.
Qed.

Theorem reachable_inv s : reachable s -> store_inv s.
Proof.
  induction 1 as [o s Ho Hs|s k c s' ok _ IH Hc Ha|s k c s' ok _ IH Hc Ha
                 |s ix data _ IH|fuel s p v k s' r _ IH Hl].
  - by eapply NewSymSpell_inv.
  - by eapply createDictionaryEntry_inv.
  - by eapply addWordEntry_inv.
  - by apply store_inv_set_Below, store_inv_set_Deletes.
  - rewrite (Lookup_store _ _ _ _ _ _ _ Hl). by apply store_inv_set_cache.
Qed.

(** *** The exact match *)

Lemma wrap_le z : int_min <= z -> wrap z <= z.
Proof.
  unfold int_min, wrap. intros H.
  pose proof (Z.mod_le (z + 9223372036854775808) 18446744073709551616
                ltac:(lia) ltac:(lia)). lia.
Qed.

Lemma phraseLen_acquire k v p : 0 <= phraseLen (acquireCandidateProcessor k v p) <= len p.
Proof.
  cbn. pose proof (len_runes p). pose proof (len_nonneg p).
  pose proof (len_nonneg (runes p)). destruct (negb (isASCII p)); lia.
Qed.

(** C3.  A phrase of the term store whose count reaches
    [FrequencyThreshold] is answered at once when the verbosity is not
    All and [0 < k <= MaxDictionaryEditDistance] (and, for Top, the
    phrase is not cached): the result is the one item
    [(phrase, 0, count)], whatever fuel the search would have had, and
    the store is left as it was. *)
Theorem Lookup_exact_match_returns_at_once fuel s p v k idx count :
  reachable s ->
  Words s !! p = Some idx -> counts s !! Z.to_nat idx = Some count ->
  FrequencyThreshold s <= count ->
  v <> All -> 0 < k <= MaxDictionaryEditDistance s ->
  (v = Top -> cache_find (ll (cache s)) p = None) ->
  Lookup fuel s p v k = Val (s, Suggestions [Item p 0 count]).
Proof.
  intros Hr HW Hc Hf Hv Hk Hcache.
  apply reachable_inv in Hr as [Hmax _ _ _ _ HWs].
  destruct (HWs p idx HW) as [Hidx Hlen].
  unfold Lookup.
  destruct (Z.ltb_spec (MaxDictionaryEditDistance s) k); [lia|].
  assert ((if decide (v = Top) then cache_Get (cache s) p else (cache s, None))
          = (cache s, None)) as ->.
  { case_decide; [|done]. unfold cache_Get. by rewrite Hcache. }
  rewrite set_cache_id. cbv zeta.
  pose proof (phraseLen_acquire k v p) as Hp.
  set (cp := acquireCandidateProcessor k v p) in *.
  assert (sub (phraseLen cp) k <= phraseLen cp - k) as Hsub
    by (apply wrap_le; unfold int_min, int_max in *; lia).
  destruct (Z.ltb_spec (maxLength s) (sub (phraseLen cp) k)); [lia|].
  unfold checkExactMatch. rewrite HW.
  rewrite (rd_Val (counts s) idx count), bind_Val by (done || lia).
  rewrite bool_decide_true by done.
  destruct (Z.leb_spec (FrequencyThreshold s) count); [|lia].
  reflexivity.
Qed.

(** *** The cache *)

(** C10, the general part: a cached phrase is answered from the cache
    for every admissible bound. *)
Lemma Lookup_Top_cache_hit fuel s p k i item :
  k <= MaxDictionaryEditDistance s ->
  cache_find (ll (cache s)) p = Some (i, item) ->
  suggestions_of (Lookup fuel s p Top k) = Some [item].
Proof.
  intros Hk Hc. unfold Lookup.
  destruct (Z.ltb_spec (MaxDictionaryEditDistance s) k); [lia|].
  rewrite decide_True by done. unfold cache_Get. by rewrite Hc.
Qed.

(** *** The frequency check *)

Abbreviation counts_ok cp := (Forall (fun y => is_u32 (Count y)) (suggestions cp)).

Lemma rd_Forall {A} (P : A -> Prop) (l : list A) i x :
  Forall P l -> rd l i = Val x -> P x.
Proof.
  intros Hl H. apply rd_inv in H as [_ H].
  by eapply Forall_lookup_1.
Qed.

Lemma updateSuggestions_counts s idx sug cp cp' :
  Forall is_u32 (counts s) -> counts_ok cp ->
  updateSuggestions s idx sug cp = Val cp' -> counts_ok cp'.
Proof.
  intros Hs Hcp H. unfold updateSuggestions in H.
  destruct (rd (counts s) idx) as [c| |] eqn:Ec; [|done..].
  cbn [mbind run_mbind run_bind] in H.
  pose proof (rd_Forall _ _ _ _ Hs Ec) as Hc.
  unfold updateBestSuggestion in H.
  run_cases H; cbn; rewrite ?Forall_app, ?Forall_singleton; cbn;
    try (split; [done|]); try done.
  all: try by constructor.
  all: match goal with H : wr _ _ _ = Val _ |- _ =>
         unfold wr in H; case_decide; [|done]; simplify_eq end.
  all: by apply Forall_insert.
Qed.

Lemma updateSuggestion_suggestions cp sug :
  suggestions (updateSuggestion cp sug) = suggestions cp.
Proof. unfold updateSuggestion. by destruct (unicode cp). Qed.

Lemma updateMinDistance_suggestions s k cp :
  suggestions (updateMinDistance s k cp) = suggestions cp.
Proof. unfold updateMinDistance. by destruct (_ =? _). Qed.

Lemma checkFirstRuneDistance_suggestions cp sug cp' b :
  checkFirstRuneDistance cp sug = Val (cp', b) -> suggestions cp' = suggestions cp.
Proof.
  unfold checkFirstRuneDistance. intros H.
  destruct (if unicode cp then _ else _) as [found| |]; [|done..].
  cbn [mbind run_mbind run_bind] in H.
  destruct (_ <? _); [apply Val_inj in H; by inversion H|].
  destruct (bool_decide _); apply Val_inj in H; by inversion H.
Qed.

Lemma checkDistanceToSkip_suggestions s k cp sug cp' b :
  checkDistanceToSkip s k cp sug = Val (cp', b) -> suggestions cp' = suggestions cp.
Proof.
  unfold checkDistanceToSkip. intros H.
  destruct (if _ =? _ then _ else _) as [skip| |]; [|done..].
  cbn [mbind run_mbind run_bind] in H.
  destruct skip; [apply Val_inj in H; by inversion H|].
  destruct (bool_decide _); [apply Val_inj in H; by inversion H|].
  destruct (distanceCompare _ _ _ _) as [d| |]; [|done..].
  cbn [mbind run_mbind run_bind] in H.
  apply Val_inj in H. by inversion H.
Qed.

Lemma processPosting_counts s k cand i cp cp' :
  Forall is_u32 (counts s) -> counts_ok cp ->
  processPosting s k cand i cp = Val cp' -> counts_ok cp'.
Proof.
  intros Hs Hcp H. unfold processPosting in H.
  destruct (rd (DeletesData s) i) as [idx| |]; [|done..].
  cbn [mbind run_mbind run_bind] in H.
  destruct (rd (words s) idx) as [sug| |]; [|done..].
  cbn [mbind run_mbind run_bind] in H.
  destruct (bool_decide _); [apply Val_inj in H; by subst|].
  destruct (checkSuggestionToSkip _ _ _ _).
  { apply Val_inj in H. subst. by rewrite updateSuggestion_suggestions. }
  set (cp1 := resetDistance (updateSuggestion cp sug)) in H.
  assert (suggestions cp1 = suggestions cp) as E1
    by (subst cp1; cbn; apply updateSuggestion_suggestions).
  destruct (if candidateLen cp1 =? 0 then _ else _) as [[cp2 skip]| |] eqn:E2;
    [|done..].
  cbn [mbind run_mbind run_bind] in H.
  assert (suggestions cp2 = suggestions cp1) as E3.
  { destruct (candidateLen cp1 =? 0).
    - destruct (_ <? _); [apply Val_inj in E2; by inversion E2|].
      destruct (bool_decide _); apply Val_inj in E2; by inversion E2.
    - destruct (suggestionLen cp1 =? 1).
      + by apply checkFirstRuneDistance_suggestions in E2.
      + apply checkDistanceToSkip_suggestions in E2.
        by rewrite updateMinDistance_suggestions in E2. }
  assert (counts_ok cp2) as Hcp2 by (rewrite E3, E1; done).
  destruct skip; [apply Val_inj in H; by subst|].
  destruct (_ <=? _); [|apply Val_inj in H; by subst].
  by eapply updateSuggestions_counts.
Qed.

Lemma enqueueDelete_suggestions cp d :
  suggestions (enqueueDelete cp d) = suggestions cp.
Proof. unfold enqueueDelete. by destruct (bool_decide _). Qed.

Lemma addEditDistance_suggestions cand cp cp' :
  addEditDistance cand cp = Val cp' -> suggestions cp' = suggestions cp.
Proof.
  unfold addEditDistance. intros H.
  destruct (negb (unicode cp));
    (eapply (for_loop_preserves (fun c => suggestions c = suggestions cp));
      [|reflexivity|exact H]);
    intros j c c' Hc Hb; cbv beta in Hb;
    (match type of Hb with context [slice ?l ?x ?y] =>
       destruct (slice l x y) as [pre| |] end; [|done..]);
    cbn [mbind run_mbind run_bind] in Hb;
    (match type of Hb with context [slice_from ?l ?x] =>
       destruct (slice_from l x) as [post| |] end; [|done..]);
    cbn [mbind run_mbind run_bind] in Hb;
    apply Val_inj in Hb; subst c'; by rewrite enqueueDelete_suggestions.
Qed.

Lemma processOne_counts s k cp o :
  Forall is_u32 (counts s) -> counts_ok cp ->
  processOne s k cp = Val o ->
  match o with inl cp' | inr cp' => counts_ok cp' end.
Proof.
  intros Hs Hcp H. unfold processOne in H.
  destruct (preProcessCandidate cp) as [[cp1 cand]| |] eqn:E1; [|done..].
  cbn [mbind run_mbind run_bind] in H.
  assert (suggestions cp1 = suggestions cp) as S1.
  { unfold preProcessCandidate in E1.
    destruct (rd _ _) as [c| |]; [|done..].
    cbn [mbind run_mbind run_bind] in E1. apply Val_inj in E1.
    inversion E1. by destruct (unicode _). }
  assert (counts_ok cp1) as Hcp1 by (by rewrite S1).
  destruct (_ <? _).
  { destruct (bool_decide _); apply Val_inj in H; by subst. }
  destruct (match DeletesIdx s !! cand with Some _ => _ | None => _ end)
    as [cp2| |] eqn:E2; [|done..].
  cbn [mbind run_mbind run_bind] in H.
  assert (counts_ok cp2) as Hcp2.
  { destruct (DeletesIdx s !! cand); [|apply Val_inj in E2; by subst].
    eapply (for_loop_preserves (fun c => counts_ok c)); [|exact Hcp1|exact E2].
    intros j c c' Hc Hb. by eapply processPosting_counts. }
  destruct (_ && _); [|apply Val_inj in H; by subst].
  destruct (_ && _); [apply Val_inj in H; by subst|].
  destruct (addEditDistance cand cp2) as [cp3| |] eqn:E3; [|done..].
  cbn [mbind run_mbind run_bind] in H.
  apply Val_inj in H. subst.
  by rewrite (addEditDistance_suggestions _ _ _ E3).
Qed.

Lemma processCandidate_counts fuel s k cp cp' :
  Forall is_u32 (counts s) -> counts_ok cp ->
  processCandidate fuel s k cp = Val cp' -> counts_ok cp'.
Proof.
  intros Hs. revert cp. induction fuel as [|fuel IH]; intros cp Hcp H; cbn in H.
  - destruct (_ <? _); [done|]. apply Val_inj in H. by subst.
  - destruct (_ <? _); [|apply Val_inj in H; by subst].
    destruct (processOne s k cp) as [[cp1|cp1]| |] eqn:E; [| |done..];
      apply processOne_counts in E; try done.
    + by apply IH in H.
    + cbn in H. apply Val_inj in H. by subst.
Qed.

Lemma betterAlternative_keeps s e b x :
  is_Some b -> is_Some (betterAlternative s e b x).
Proof.
  intros [b0 ->]. unfold betterAlternative.
  repeat (case_match; try done).
Qed.

Lemma betterAlternative_takes s e b x :
  Distance_ x <> 0 -> Distance_ x <= 2 ->
  mul (Count e) (FrequencyMultiplier s) <= Count x ->
  is_Some (betterAlternative s e b x).
Proof.
  intros H0 H2 Hreq. unfold betterAlternative.
  destruct (Z.eqb_spec (Distance_ x) 0); [done|].
  destruct (Z.leb_spec (Distance_ x) 2); [|lia].
  destruct (Z.leb_spec (mul (Count e) (FrequencyMultiplier s)) (Count x)); [|lia].
  destruct b; [|done]. by destruct (_ || _).
Qed.

Lemma foldl_betterAlternative s e l b x :
  (is_Some b \/
   (x ∈ l /\ Distance_ x <> 0 /\ Distance_ x <= 2 /\
    mul (Count e) (FrequencyMultiplier s) <= Count x)) ->
  is_Some (foldl (betterAlternative s e) b l).
Proof.
  revert b. induction l as [|y l IH]; intros b H; cbn.
  - destruct H as [H|[H _]]; [done|]. by apply elem_of_nil in H.
  - apply IH. destruct H as [H|(Hx & H0 & H2 & Hreq)].
    + left. by apply betterAlternative_keeps.
    + apply elem_of_cons in Hx as [<-|Hx].
      * left. by apply betterAlternative_takes.
      * right. done.
Qed.

Lemma finalize_subset s cp e :
  suggestions (finalizeWithFrequencyCheck s cp e) ⊆ suggestions cp.
Proof.
  unfold finalizeWithFrequencyCheck. destruct e as [e|]; [|done].
  destruct (_ <=? _); [done|]. destruct (foldl _ _ _); [|done].
  cbn. intros y Hy. by apply list_elem_of_filter in Hy as [_ Hy].
Qed.

(** The exact match goes when a close and much more frequent
    suggestion is in the list. *)
Lemma finalize_drops_exact s cp e x :
  x ∈ suggestions cp -> 1 <= Distance_ x <= 2 ->
  mul (Count e) (FrequencyMultiplier s) <= Count x ->
  forall y, y ∈ suggestions (finalizeWithFrequencyCheck s cp (Some e)) ->
    Distance_ y <> 0.
Proof.
  intros Hx Hd Hreq y Hy. unfold finalizeWithFrequencyCheck in Hy.
  destruct (Z.leb_spec (len (suggestions cp)) 1) as [Hl|Hl].
  - destruct (suggestions cp) as [|z [|z' l]]; unfold len in Hl; cbn in Hl; [|..|lia].
    + by apply elem_of_nil in Hx.
    + apply list_elem_of_singleton in Hx, Hy. subst. lia.
  - destruct (foldl_betterAlternative s e (suggestions cp) None x) as [b Hb].
    { right. repeat split; try done; lia. }
    rewrite Hb in Hy. cbn in Hy.
    by apply list_elem_of_filter in Hy as [Hy _].
Qed.

(** C2.  When the phrase is in the term store with count [c] and the
    returned list holds a suggestion at distance 1 or 2 whose count is
    at least [c * FrequencyMultiplier], the returned list holds no
    item at distance 0, for every verbosity. *)
Theorem Lookup_drops_rare_exact_match fuel s p v k s' l idx c x :
  reachable s ->
  Lookup fuel s p v k = Val (s', Suggestions l) ->
  Words s !! p = Some idx -> counts s !! Z.to_nat idx = Some c ->
  x ∈ l -> 1 <= Distance_ x <= 2 -> c * FrequencyMultiplier s <= Count x ->
  forall y, y ∈ l -> Distance_ y <> 0.
Proof.
  intros Hr H HW Hc Hx Hd Hfreq y Hy.
  apply reachable_inv in Hr as [_ _ Hmult Hcs _ _].
  unfold Lookup in H.
  destruct (MaxDictionaryEditDistance s <? k); [done|].
  destruct (if decide (v = Top) then _ else _) as [c0 [item|]].
  { apply Val_inj in H. inversion H; subst.
    apply list_elem_of_singleton in Hx, Hy. subst. lia. }
  cbv zeta in H.
  destruct (maxLength (set_cache s c0) <? _).
  { apply Val_inj in H. inversion H; subst. by apply elem_of_nil in Hx. }
  destruct (checkExactMatch _ p v _) as [[cp e]| |] eqn:Ee; [|done..].
  cbn [mbind run_mbind run_bind] in H.
  apply checkExactMatch_suggestions in Ee
    as [(HN & _)|(idx' & c' & HW' & Hc' & He & Hsug & _)].
  { cbn in HN. congruence. }
  cbn in HW', Hc', Hsug.
  assert (idx' = idx) as -> by congruence.
  apply rd_inv in Hc' as [_ Hc'].
  assert (c' = c) as -> by congruence.
  assert (is_u32 c) as Hcu by (by eapply Forall_lookup_1).
  assert (forall z, z ∈ suggestions cp -> Distance_ z = 0) as Hexact.
  { intros z Hz. rewrite Hsug in Hz. apply list_elem_of_singleton in Hz. by subst. }
  destruct (shouldStop e).
  { apply Val_inj in H. inversion H; subst. apply Hexact in Hx. lia. }
  destruct (k =? 0).
  { apply Val_inj in H. inversion H; subst. apply Hexact in Hx. lia. }
  destruct (getOriginPrefix _ _) as [pre| |]; [|done..].
  cbn [mbind run_mbind run_bind] in H.
  destruct (processCandidate _ _ _ _) as [cp1| |] eqn:Ep; [|done..].
  cbn [mbind run_mbind run_bind] in H.
  apply processCandidate_counts in Ep; [|done|cbn; rewrite Hsug; by constructor].
  rewrite He in H.
  set (cpF := finalizeWithFrequencyCheck (set_cache s c0) cp1 (Some (Item p 0 c))) in H.
  assert (l = suggestions (sortCandidate cpF)) as ->.
  { destruct v, (suggestions (sortCandidate cpF)); apply Val_inj in H; by inversion H. }
  rewrite sortCandidate_perm in Hx, Hy.
  pose proof (finalize_subset _ _ _ _ Hx) as Hx1.
  assert (is_u32 (Count x)) as Hxu.
  { rewrite Forall_forall in Ep. by apply Ep. }
  eapply (finalize_drops_exact (set_cache s c0) cp1 (Item p 0 c) x); try done.
  cbn. unfold is_u32, maxUint32 in *.
  rewrite mul_id; [done|]. unfold is_int, int_min, int_max. nia.
Qed.

(** *** Examples *)

Lemma foldM_addEntry_reachable entries s s' :
  reachable s -> Forall (fun e => is_u32 e.2) entries ->
  foldM addEntry s entries = Val s' -> reachable s'.
Proof.
  revert s. induction entries as [|e entries IH]; intros s Hs He H; cbn [foldM] in H.
  - apply Val_inj in H. by subst.
  - apply Forall_cons in He as [He1 He2].
    destruct (addEntry s e) as [s1| |] eqn:E;
      cbn [mbind run_mbind run_bind] in H; [|done..].
    apply (IH s1); [|done|done]. unfold addEntry in E.
    destruct (createDictionaryEntry s e.1 e.2) as [[s2 ok]| |] eqn:E2;
      cbn [mbind run_mbind run_bind] in E; [|done..].
    apply Val_inj in E. subst s2. by eapply reach_add.
Qed.

Lemma buildDictionary_reachable o entries s :
  options_ok o -> Forall (fun e => is_u32 e.2) entries ->
  buildDictionary o entries = Val s -> reachable s.
Proof.
  intros Ho He H. unfold buildDictionary in H.
  destruct (NewSymSpell o) as [s0|] eqn:E; [|done].
  eapply foldM_addEntry_reachable; [|done..]. by eapply reach_new.
Qed.

Lemma DefaultOptions_ok : options_ok DefaultOptions.
Proof. unfold options_ok, is_int, int_min, int_max. cbn. lia. Qed.

Lemma is_u32_dec_true z : (0 <=? z) && (z <=? maxUint32) = true -> is_u32 z.
Proof. unfold is_u32. lia. Qed.

Lemma rareStore_reachable : reachable rareStore.
Proof.
  apply (buildDictionary_reachable DefaultOptions rareEntries).
  - apply DefaultOptions_ok.
  - repeat constructor; by apply is_u32_dec_true.
  - vm_compute. reflexivity.
Qed.

Lemma frequentStore_reachable : reachable frequentStore.
Proof.
  apply (buildDictionary_reachable DefaultOptions frequentEntries).
  - apply DefaultOptions_ok.
  - repeat constructor; by apply is_u32_dec_true.
  - vm_compute. reflexivity.
Qed.

Lemma Lookup_sorted_witness :
  Lookup 100 helloStore (str "helo") All 2
    = Val (helloStore, Suggestions [Item (str "hello") 1 500; Item (str "help") 1 400]) /\
  Sorted ranked [Item (str "hello") 1 500; Item (str "help") 1 400].
Proof.
  assert (Lookup 100 helloStore (str "helo") All 2
    = Val (helloStore, Suggestions [Item (str "hello") 1 500; Item (str "help") 1 400]))
    as H by (vm_compute; reflexivity).
  split; [exact H|].
  exact (Lookup_sorted 100 helloStore (str "helo") All 2 helloStore _ H).
Defined.

Lemma Lookup_exact_match_returns_at_once_witness :
  Lookup 0 frequentStore (str "the") Top 2
    = Val (frequentStore, Suggestions [Item (str "the") 0 10000]).
Proof.
  apply (Lookup_exact_match_returns_at_once 0 frequentStore (str "the") Top 2 0 10000).
  - apply frequentStore_reachable.
  - vm_compute. reflexivity.
  - reflexivity.
  - cbn. lia.
  - discriminate.
  - cbn. lia.
  - reflexivity.
Defined.

Lemma Lookup_drops_rare_exact_match_witness :
  Lookup 100 rareStore (str "the") All 2
    = Val (rareStore, Suggestions [Item (str "then") 1 50000]) /\
  Distance_ (Item (str "then") 1 50000) <> 0.
Proof.
  assert (Lookup 100 rareStore (str "the") All 2
    = Val (rareStore, Suggestions [Item (str "then") 1 50000]))
    as H by (vm_compute; reflexivity).
  split; [exact H|].
  apply (Lookup_drops_rare_exact_match 100 rareStore (str "the") All 2 rareStore
           [Item (str "then") 1 50000] 0 10 (Item (str "then") 1 50000)).
  - apply rareStore_reachable.
  - exact H.
  - vm_compute. reflexivity.
  - reflexivity.
  - apply list_elem_of_singleton. reflexivity.
  - cbn. lia.
  - cbn. lia.
  - apply list_elem_of_singleton. reflexivity.
Defined.

(** C10.  The top-result cache is keyed by the phrase alone.  A cached
    phrase is answered from the cache for every admissible bound,
    before the length gate and the search; so after
    [Lookup("hexxo", Top, 2)] has cached [("hello", 2, 500)], the call
    [Lookup("hexxo", Top, 1)] returns that item, at distance 2 > 1. *)
Theorem Lookup_Top_cache_ignores_bound :
  (forall fuel s p k i item,
     k <= MaxDictionaryEditDistance s ->
     cache_find (ll (cache s)) p = Some (i, item) ->
     suggestions_of (Lookup fuel s p Top k) = Some [item]) /\
  suggestions_of
    (s0 ← buildDictionary DefaultOptions helloEntries;
     '(s1, _) ← Lookup 100 s0 (str "hexxo") Top 2;
     Lookup 100 s1 (str "hexxo") Top 1)
  = Some [Item (str "hello") 2 500].
Proof.
  split; [apply Lookup_Top_cache_hit|]. vm_compute. reflexivity.
Qed.

Lemma Lookup_Top_cache_ignores_bound_witness :
  suggestions_of (Lookup 0 cachedStore (str "hexxo") Top 1)
  = Some [Item (str "hello") 2 500].
Proof.
  apply (proj1 Lookup_Top_cache_ignores_bound 0%nat cachedStore (str "hexxo") 1 0%nat
           (Item (str "hello") 2 500)).
  - cbn. lia.
  - vm_compute. reflexivity.
Defined.

(** ** UTF-8: decoding inverts encoding *)

Ltac dlia := Z.to_euclidean_division_equations; lia.

Lemma byte_val_of z : 0 <= z < 256 -> byte_val (byte_of z) = z.
Proof.
  intros Hz. unfold byte_val, byte_of.
  rewrite N_ascii_embedding by lia. lia.
Qed.

Lemma valid_RuneError : valid_rune RuneError.
Proof. unfold valid_rune, RuneError, MaxRune. lia. Qed.

Lemma lead_inv b0 sz lo hi :
  lead b0 = Some (sz, lo, hi) ->
  (sz = 2%nat /\ 194 <= b0 <= 223 /\ lo = 128 /\ hi = 191) \/
  (sz = 3%nat /\ b0 = 224 /\ lo = 160 /\ hi = 191) \/
  (sz = 3%nat /\ (225 <= b0 <= 236 \/ 238 <= b0 <= 239) /\ lo = 128 /\ hi = 191) \/
  (sz = 3%nat /\ b0 = 237 /\ lo = 128 /\ hi = 159) \/
  (sz = 4%nat /\ b0 = 240 /\ lo = 144 /\ hi = 191) \/
  (sz = 4%nat /\ 241 <= b0 <= 243 /\ lo = 128 /\ hi = 191) \/
  (sz = 4%nat /\ b0 = 244 /\ lo = 128 /\ hi = 143).
Proof.
  unfold lead, in_range.
  repeat match goal with
  | |- context [?x <=? ?y] => destruct (Z.leb_spec x y); cbn [andb]
  | |- context [?x =? ?y] => destruct (Z.eqb_spec x y)
  end; intros [= <- <- <-]; lia.
Qed.

Lemma in_range_spec lo hi x : in_range lo hi x = true <-> lo <= x <= hi.
Proof. unfold in_range. lia. Qed.

Lemma decodeRune_valid c s : valid_rune (decodeRune c s).1.
Proof.
  unfold decodeRune, RuneSelf. pose proof (byte_val_range c) as H0.
  destruct (Z.ltb_spec (byte_val c) 128); [unfold valid_rune, MaxRune; cbn; lia|].
  destruct (lead (byte_val c)) as [[[sz lo] hi]|] eqn:El; [|apply valid_RuneError].
  apply lead_inv in El.
  destruct s as [|c1 s1]; [apply valid_RuneError|].
  pose proof (byte_val_range c1) as H1.
  destruct (in_range lo hi (byte_val c1)) eqn:E1; cbn [negb]; [|apply valid_RuneError].
  apply in_range_spec in E1.
  destruct sz as [|[|[|[|sz]]]]; try (exfalso; lia).
  - unfold valid_rune, MaxRune. cbn [fst].
    dlia.
  - destruct s1 as [|c2 s2]; [apply valid_RuneError|].
    pose proof (byte_val_range c2) as H2.
    destruct (in_range 128 191 (byte_val c2)) eqn:E2; cbn [negb]; [|apply valid_RuneError].
    apply in_range_spec in E2.
    unfold valid_rune, MaxRune. cbn [fst]. dlia.
  - destruct s1 as [|c2 s2]; [apply valid_RuneError|].
    pose proof (byte_val_range c2) as H2.
    destruct (in_range 128 191 (byte_val c2)) eqn:E2; cbn [negb]; [|apply valid_RuneError].
    apply in_range_spec in E2.
    destruct s2 as [|c3 s3]; [apply valid_RuneError|].
    pose proof (byte_val_range c3) as H3.
    destruct (in_range 128 191 (byte_val c3)) eqn:E3; cbn [negb]; [|apply valid_RuneError].
    apply in_range_spec in E3.
    unfold valid_rune, MaxRune. cbn [fst]. dlia.
Qed.

Lemma runes_skip_valid k s : Forall valid_rune (runes_skip k s).
Proof.
  revert k. induction s as [|c s IH]; intros k; cbn [runes_skip]; [constructor|].
  destruct k; [|apply IH].
  pose proof (decodeRune_valid c s) as Hv.
  destruct (decodeRune c s) as [r w]. constructor; [done|apply IH].
Qed.

(** What [[]rune(s)] yields are valid code points. *)
Lemma runes_valid s : Forall valid_rune (runes s).
Proof. apply runes_skip_valid. Qed.

Lemma encodeRune_decode r rest :
  valid_rune r ->
  exists c s' w, encodeRune r ++ rest = c :: s' /\
    decodeRune c s' = (r, w) /\ runes_skip (Nat.pred w) s' = runes_skip 0 rest.
Proof.
  intros [Hr Hs]. unfold MaxRune in Hr. unfold encodeRune, in_range, MaxRune.
  destruct (Z.leb_spec 0 r); [|dlia]. cbn [andb].
  destruct (Z.leb_spec r 127).
  { cbn [app]; eexists _, _, 1%nat. split; [reflexivity|].
    unfold decodeRune, RuneSelf. rewrite byte_val_of by dlia.
    destruct (Z.ltb_spec r 128); [|dlia]. done. }
  destruct (Z.leb_spec 128 r); [|dlia]. cbn [andb].
  destruct (Z.leb_spec r 2047).
  { cbn [app]; eexists _, _, 2%nat. split; [reflexivity|].
    unfold decodeRune, RuneSelf. rewrite ?byte_val_of by dlia.
    destruct (Z.ltb_spec (192 + r / 64) 128); [dlia|].
    destruct (lead (192 + r / 64)) as [[[sz lo] hi]|] eqn:El.
    2:{ unfold lead, in_range in El.
        destruct (Z.leb_spec 194 (192 + r / 64)); [|dlia].
        by destruct (Z.leb_spec (192 + r / 64) 223); [|dlia]. }
    apply lead_inv in El.
    destruct (in_range lo hi (128 + r mod 64)) eqn:E1.
    2:{ apply not_true_iff_false in E1. exfalso. apply E1, in_range_spec. dlia. }
    cbn [negb].
    destruct sz as [|[|[|[|sz]]]]; try (exfalso; dlia).
    split; [f_equal; dlia|done]. }
  replace (r <=? 1114111) with true by lia.
  replace ((55296 <=? r) && (r <=? 57343)) with false by lia.
  cbn [andb negb orb].
  assert (forall b0, 224 <= b0 <= 244 -> exists sz lo hi, lead b0 = Some (sz, lo, hi))
    as Hlead.
  { intros b0 Hb. unfold lead, in_range.
    repeat match goal with
    | |- context [?x <=? ?y] => destruct (Z.leb_spec x y); cbn [andb]
    | |- context [?x =? ?y] => destruct (Z.eqb_spec x y)
    end; try (by eauto); lia. }
  destruct (Z.leb_spec r 65535).
  - cbn [app]. eexists _, _, 3%nat. split; [reflexivity|].
    unfold decodeRune, RuneSelf. rewrite ?byte_val_of by dlia.
    destruct (Z.ltb_spec (224 + r / 4096) 128); [dlia|].
    destruct (Hlead (224 + r / 4096)) as (sz & lo & hi & El); [dlia|].
    rewrite El. apply lead_inv in El.
    destruct (in_range lo hi (128 + (r / 64) mod 64)) eqn:E1;
      [|apply not_true_iff_false in E1; exfalso; apply E1, in_range_spec; dlia].
    cbn [negb].
    destruct (in_range 128 191 (128 + r mod 64)) eqn:E2;
      [|apply not_true_iff_false in E2; exfalso; apply E2, in_range_spec; dlia].
    cbn [negb].
    destruct sz as [|[|[|[|sz]]]]; try (exfalso; dlia).
    split; [f_equal; dlia|done].
  - cbn [app]. eexists _, _, 4%nat. split; [reflexivity|].
    unfold decodeRune, RuneSelf. rewrite ?byte_val_of by dlia.
    destruct (Z.ltb_spec (240 + r / 262144) 128); [dlia|].
    destruct (Hlead (240 + r / 262144)) as (sz & lo & hi & El); [dlia|].
    rewrite El. apply lead_inv in El.
    destruct (in_range lo hi (128 + (r / 4096) mod 64)) eqn:E1;
      [|apply not_true_iff_false in E1; exfalso; apply E1, in_range_spec; dlia].
    cbn [negb].
    destruct (in_range 128 191 (128 + (r / 64) mod 64)) eqn:E2;
      [|apply not_true_iff_false in E2; exfalso; apply E2, in_range_spec; dlia].
    cbn [negb].
    destruct (in_range 128 191 (128 + r mod 64)) eqn:E3;
      [|apply not_true_iff_false in E3; exfalso; apply E3, in_range_spec; dlia].
    cbn [negb].
    destruct sz as [|[|[|[|sz]]]]; try (exfalso; dlia).
    split; [f_equal; dlia|done].
Qed.

Lemma runes_encode_app r rest :
  valid_rune r -> runes (encodeRune r ++ rest) = r :: runes rest.
Proof.
  intros Hr. destruct (encodeRune_decode r rest Hr) as (c & s' & w & E & Ed & Es).
  unfold runes. rewrite E. cbn [runes_skip]. rewrite Ed. by rewrite Es.
Qed.

Lemma runes_string_of_runes_app rs rest :
  Forall valid_rune rs -> runes (string_of_runes rs ++ rest) = rs ++ runes rest.
Proof.
  unfold string_of_runes. induction 1 as [|r rs Hr _ IH]; [done|].
  cbn [fmap list_fmap concat]. rewrite <- app_assoc.
  rewrite runes_encode_app by done. by rewrite IH.
Qed.

(** [[]rune(string(rs)) = rs] for valid code points. *)
Lemma runes_string_of_runes rs :
  Forall valid_rune rs -> runes (string_of_runes rs) = rs.
Proof.
  intros H. pose proof (runes_string_of_runes_app rs [] H) as E.
  by rewrite !app_nil_r in E.
Qed.

Lemma string_of_runes_app rs1 rs2 :
  string_of_runes (rs1 ++ rs2) = string_of_runes rs1 ++ string_of_runes rs2.
Proof. unfold string_of_runes. by rewrite fmap_app, concat_app. Qed.

(** ** Delete enumeration *)

Lemma slice_take {A} (l : list A) i :
  0 <= i <= len l -> slice l 0 i = Val (take (Z.to_nat i) l).
Proof.
  intros Hi. unfold slice. rewrite decide_True by lia.
  by replace (i - 0) with i by lia.
Qed.

Lemma slice_from_drop {A} (l : list A) i :
  0 <= i <= len l -> slice_from l i = Val (drop (Z.to_nat i) l).
Proof.
  intros Hi. unfold slice_from, slice. rewrite decide_True by lia.
  rewrite take_ge; [done|]. rewrite length_drop. unfold len in *. lia.
Qed.

Lemma string_of_runes_nil rs : string_of_runes rs = [] -> rs = [].
Proof.
  destruct rs as [|r rs]; [done|]. unfold string_of_runes. cbn.
  unfold encodeRune. repeat case_match; done.
Qed.

Lemma runes_deleteRune rs i :
  Forall valid_rune rs -> 0 <= i < len rs ->
  runes (deleteRune rs i) = take (Z.to_nat i) rs ++ drop (Z.to_nat (i + 1)) rs /\
  len (runes (deleteRune rs i)) = len rs - 1.
Proof.
  intros Hv Hi. unfold deleteRune. rewrite <- string_of_runes_app.
  rewrite runes_string_of_runes.
  - split; [done|]. unfold len in *.
    rewrite length_app, length_take, length_drop. lia.
  - apply Forall_app. split; [by apply Forall_take|by apply Forall_drop].
Qed.

Section Edits.
Variable s : SymSpell.
Hypothesis Hmax : 0 <= MaxDictionaryEditDistance s < int_max.

Abbreviation maxD := (MaxDictionaryEditDistance s).

Lemma edits_spec fuel word ed dw cur :
  0 <= cur -> 0 <= ed <= maxD -> (Z.to_nat (maxD - ed) < fuel)%nat ->
  exists res, edits fuel s word ed dw cur = Val res /\
    dw ⊆ res /\
    ([] ∈ res -> [] ∈ dw \/ len (runes word) <= Z.max (maxD - ed) 1) /\
    (forall i, cur <= i < len (runes word) -> deleteRune (runes word) i ∈ res).
Proof.
  revert word ed dw cur. induction fuel as [|fuel IH];
    intros word ed dw cur Hcur Hed Hfuel; [lia|].
  cbn [edits].
  rewrite add_id by (unfold is_int, int_min, int_max in *; lia).
  pose proof (runes_valid word) as Hv.
  pose proof (len_nonneg (runes word)) as HL.
  set (rs := runes word) in *. set (L := len rs) in *.
  destruct (Z.eqb_spec L 0) as [HL0|HL0].
  { destruct (_ <=? _); eexists; (split; [reflexivity|]);
      (split; [first [done|apply union_subseteq_r]|]); (split; [intros _; right; lia|intros; lia]). }
  destruct (for_loop_inv
    (fun j dwj => dw ⊆ dwj /\
       ([] ∈ dwj -> [] ∈ dw \/ L <= Z.max (maxD - ed) 1) /\
       (forall i, cur <= i < j -> deleteRune rs i ∈ dwj))
    (trips cur (L - 1)) cur
    (fun i deleteWords =>
       pre ← slice rs 0 i;
       post ← slice_from rs (i + 1);
       let deleteWord := string_of_runes pre ++ string_of_runes post in
       let deleteWords := {[ deleteWord ]} ∪ deleteWords in
       if ed + 1 <? maxD
       then edits fuel s deleteWord (ed + 1) deleteWords i
       else Val deleteWords) dw) as (res & E & Hsub & Hemp & Hdel).
  - split; [done|]. split; [by left|]. intros; lia.
  - intros j dwj Hj (Hsub & Hemp & Hdel). unfold trips in Hj.
    rewrite slice_take, bind_Val by (fold L; lia).
    rewrite slice_from_drop, bind_Val by (fold L; lia).
    cbv zeta. fold (deleteRune rs j).
    destruct (runes_deleteRune rs j Hv ltac:(fold L; lia)) as [_ Hlen].
    fold L in Hlen.
    assert ([] = deleteRune rs j -> L <= 1) as Hnil.
    { intros Hn. rewrite <- Hn in Hlen.
      change (len (runes [])) with 0 in Hlen. lia. }
    destruct (Z.ltb_spec (ed + 1) maxD) as [Hlt|Hge].
    + destruct (IH (deleteRune rs j) (ed + 1) ({[deleteRune rs j]} ∪ dwj) j)
        as (res & E & Hsub' & Hemp' & _); [lia|lia|lia|].
      exists res. split; [done|]. split; [etrans; [exact Hsub|]; etrans; [apply union_subseteq_r|exact Hsub']|]. split.
      * intros Hin. destruct (Hemp' Hin) as [Hin'|Hle].
        -- apply elem_of_union in Hin' as [Hin'|Hin'].
           ++ apply elem_of_singleton in Hin'. right. specialize (Hnil Hin'). lia.
           ++ by apply Hemp.
        -- right. lia.
      * intros i Hi. destruct (decide (i = j)) as [->|Hne]; [apply Hsub', elem_of_union_l, elem_of_singleton; done|].
        apply Hsub'. apply elem_of_union_r. apply Hdel. lia.
    + eexists. split; [reflexivity|]. split; [etrans; [exact Hsub|apply union_subseteq_r]|]. split.
      * intros Hin. apply elem_of_union in Hin as [Hin|Hin].
        -- apply elem_of_singleton in Hin. right. specialize (Hnil Hin). lia.
        -- by apply Hemp.
      * intros i Hi. destruct (decide (i = j)) as [->|Hne]; [apply elem_of_union_l, elem_of_singleton; done|].
        apply elem_of_union_r. apply Hdel. lia.
  - exists res. split; [done|]. split; [done|]. split; [done|].
    intros i Hi. apply Hdel. unfold trips. lia.
Qed.

Hypothesis Hprefix : maxD < PrefixLength s.

Lemma truncateKey_spec k :
  exists tk, truncateKey s k = Val tk /\
    len (runes tk) = Z.min (RuneCountInString k) (PrefixLength s).
Proof.
  unfold truncateKey, RuneCountInString.
  pose proof (runes_valid k) as Hv.
  destruct (Z.ltb_spec (PrefixLength s) (len (runes k))) as [Hlt|Hge].
  - rewrite slice_take, bind_Val by lia. eexists. split; [reflexivity|].
    rewrite runes_string_of_runes by (by apply Forall_take).
    unfold len in *. rewrite length_take. lia.
  - eexists. split; [reflexivity|]. lia.
Qed.

(** What [editsPrefix] returns, for every key and every admissible
    configuration: it does return; the truncated key is in the set;
    and the empty string is in the set exactly when the truncated
    key has at most [max(MaxDictionaryEditDistance, 1)] runes. *)
Theorem editsPrefix_spec k :
  exists tk es, truncateKey s k = Val tk /\ editsPrefix s k = Val es /\
    tk ∈ es /\
    ([] ∈ es <->
     Z.min (RuneCountInString k) (PrefixLength s) <= Z.max maxD 1).
Proof.
  destruct (truncateKey_spec k) as (tk & Et & Hlen).
  unfold editsPrefix. rewrite Et, bind_Val.
  set (hs := {[tk]} ∪ _).
  destruct (edits_spec (S (Z.to_nat maxD)) tk 0 hs 0)
    as (es & Ee & Hsub & Hemp & Hdel); [lia|lia|lia|].
  exists tk, es. split; [done|]. split; [done|]. split; [apply Hsub; subst hs; apply elem_of_union_l, elem_of_singleton; done|].
  pose proof (len_nonneg (runes k)) as HL. unfold RuneCountInString in *.
  split.
  - intros Hin. destruct (Hemp Hin) as [Hh|Hle]; [|lia].
    subst hs. apply elem_of_union in Hh as [Hh|Hh].
    + apply elem_of_singleton in Hh. subst tk.
      change (len (runes [])) with 0 in Hlen. lia.
    + destruct (Z.leb_spec (len (runes k)) maxD); [lia|by apply elem_of_empty in Hh].
  - intros Hle.
    destruct (Z.leb_spec (len (runes k)) maxD) as [Hk|Hk].
    + apply Hsub. subst hs.
      destruct (Z.leb_spec (len (runes k)) maxD); [apply elem_of_union_r, elem_of_singleton; done|lia].
    + assert (len (runes tk) = 1) as H1 by lia.
      specialize (Hdel 0 ltac:(lia)).
      assert (deleteRune (runes tk) 0 = []) as E0.
      { unfold deleteRune. cbn [Z.to_nat take].
        rewrite drop_ge by (unfold len in H1; cbn; lia). done. }
      by rewrite E0 in Hdel.
Qed.
End Edits.

(** With at least one edit allowed the contract of the delete
    enumeration holds: the truncated key is in the set, and the empty
    string is in it exactly when the key has at most
    [MaxDictionaryEditDistance] code points. *)
Corollary editsPrefix_contract s k :
  1 <= MaxDictionaryEditDistance s < PrefixLength s -> PrefixLength s <= int_max ->
  exists tk es, truncateKey s k = Val tk /\ editsPrefix s k = Val es /\
    tk ∈ es /\ ([] ∈ es <-> RuneCountInString k <= MaxDictionaryEditDistance s).
Proof.
  intros H1 H2.
  destruct (editsPrefix_spec s ltac:(lia) ltac:(lia) k) as (tk & es & Et & Ee & Hin & Hiff).
  exists tk, es. split; [done|]. split; [done|]. split; [done|].
  rewrite Hiff. lia.
Qed.

(** C6.  The empty string is claimed to be in the set only for keys
    of at most [MaxDictionaryEditDistance] code points.  The first
    level of deletions is made without asking whether any edit is
    allowed: with [MaxDictionaryEditDistance = 0] the key "a", of one
    code point, yields the set {"a", ""}. *)
Theorem editsPrefix_adds_empty_string_at_distance_zero :
  MaxDictionaryEditDistance exactOnlyStore = 0 /\
  MaxDictionaryEditDistance exactOnlyStore < PrefixLength exactOnlyStore /\
  RuneCountInString (str "a") = 1 /\
  editsPrefix exactOnlyStore (str "a") = Val ({[ str "a" ]} ∪ {[ [] ]}).
Proof. vm_compute. repeat split; discriminate. Qed.

(** ** The term map and the term array *)

Lemma addDelete_terms index s d s' :
  addDelete index s d = Val s' ->
  words s' = words s /\ Words s' = Words s /\ CountThreshold s' = CountThreshold s.
Proof.
  intros H. unfold addDelete in H.
  destruct (DeletesIdx s !! d) as [v|]; [|apply Val_inj in H; by subst s'].
  destruct (slice_from _ _) as [src| |]; [|done..].
  cbn [mbind run_mbind run_bind] in H.
  destruct (copy_at _ _ _) as [data| |]; [|done..].
  cbn [mbind run_mbind run_bind] in H.
  destruct (wr _ _ _) as [data'| |]; [|done..].
  cbn [mbind run_mbind run_bind] in H.
  apply Val_inj in H. by subst s'.
Qed.

Lemma addDeletesForIndex_terms s k index s' :
  addDeletesForIndex s k index = Val s' ->
  words s' = words s /\ Words s' = Words s /\ CountThreshold s' = CountThreshold s.
Proof.
  unfold addDeletesForIndex. intros H.
  destruct (editsPrefix s k) as [es| |]; [|done..].
  cbn [mbind run_mbind run_bind] in H.
  eapply (foldM_inv (fun t => words t = words s /\ Words t = Words s /\
                               CountThreshold t = CountThreshold s));
    [|done|exact H].
  intros t d t' (E1 & E2 & E3) Hd.
  apply addDelete_terms in Hd as (-> & -> & ->). done.
Qed.

(** At [CountThreshold <= 1] an entry for a term that is already in
    the store only adds to its count, and the term map stays the
    inverse of the term array. *)
Lemma addWordEntry_index_inv s k count s' ok :
  CountThreshold s <= 1 -> len (words s) < 4294967296 ->
  index_inv s -> addWordEntry s k count = Val (s', ok) ->
  index_inv s' /\ CountThreshold s' = CountThreshold s /\
  (ok = false -> words s' = words s).
Proof.
  intros Hct Hlen Hinv H. unfold addWordEntry in H.
  destruct ((count =? 0) && (0 <? CountThreshold s));
    [apply Val_inj in H; by inversion H; subst|].
  unfold addWordEntry_merge in H.
  destruct (Z.ltb_spec 1 (CountThreshold s)); [lia|].
  destruct (Words s !! k) as [idx|] eqn:EW.
  - destruct (rd (counts s) idx) as [c| |]; [|done..].
    cbn [mbind run_mbind run_bind] in H.
    destruct (wr (counts s) idx _) as [cs| |]; [|done..].
    cbn [mbind run_mbind run_bind] in H.
    apply Val_inj in H. inversion H; subst. done.
  - cbn [mbind run_mbind run_bind] in H.
    destruct (count <? CountThreshold s); [apply Val_inj in H; by inversion H; subst|].
    apply Val_inj in H. inversion H; subst. clear H.
    assert (index_inv (set_Words (set_counts (set_words s (words s ++ [k]))
              (counts s ++ [count])) (<[k := u32 (len (words s))]> (Words s)))) as Hnew.
    { intros i w. cbn. intros Hi.
      apply lookup_app_Some in Hi as [Hi|[Hge Hi]].
      - rewrite lookup_insert_ne; [by apply Hinv|].
        intros <-. apply Hinv in Hi. congruence.
      - apply list_lookup_singleton_Some in Hi as [Hi <-].
        rewrite lookup_insert_eq. f_equal.
        unfold u32, len in *. rewrite Z.mod_small by lia. lia. }
    split; [|split; [|done]].
    + destruct (_ <? _); [|done]. intros i w. cbn. apply Hnew.
    + by destruct (_ <? _).
Qed.

Lemma createDictionaryEntry_index_inv s k count s' ok :
  CountThreshold s <= 1 -> len (words s) < 4294967296 ->
  index_inv s -> createDictionaryEntry s k count = Val (s', ok) ->
  index_inv s' /\ CountThreshold s' = CountThreshold s.
Proof.
  intros Hct Hlen Hinv H. unfold createDictionaryEntry in H.
  destruct (addWordEntry s k count) as [[s1 ok1]| |] eqn:Ea; [|done..].
  cbn [mbind run_mbind run_bind] in H.
  apply addWordEntry_index_inv in Ea as (Hinv1 & Hct1 & _); [|done..].
  destruct ok1; cbn [negb] in H; [|apply Val_inj in H; by inversion H; subst].
  destruct (addDeletesForIndex s1 k _) as [s2| |] eqn:Ed; [|done..].
  cbn [mbind run_mbind run_bind] in H. apply Val_inj in H. inversion H; subst.
  apply addDeletesForIndex_terms in Ed as (Ew & EW & Ec).
  split; [|congruence]. intros i w. rewrite Ew, EW. apply Hinv1.
Qed.

(** C5.  The term map is claimed to invert the term array after any
    sequence of [createDictionaryEntry] calls, for every
    [CountThreshold].  Above a threshold of 1 the store is only asked
    whether the term waits below the threshold, never whether it is
    already a term: with [CountThreshold = 2], adding ("a", 5) twice
    makes two entries for "a", and the map sends "a" to the second. *)
Theorem createDictionaryEntry_duplicates_term_above_threshold_one :
  buildDictionary thresholdTwoOptions [(str "a", 5); (str "a", 5)] = Val twiceStore /\
  words twiceStore = [str "a"; str "a"] /\
  counts twiceStore = [5; 5] /\
  Words twiceStore !! str "a" = Some 1 /\
  ~ index_inv twiceStore.
Proof.
  split; [vm_compute; reflexivity|].
  split; [reflexivity|]. split; [reflexivity|].
  assert (Words twiceStore !! str "a" = Some 1) as H by (vm_compute; reflexivity).
  split; [exact H|].
  intros Hinv. specialize (Hinv 0%nat (str "a") eq_refl).
  rewrite H in Hinv. discriminate.
Qed.

(** ** Termination of the search *)

Lemma fin_Val {A} (x : A) : finished (Val x).
Proof. done. Qed.

Lemma fin_Panic {A} : finished (@Panic A).
Proof. done. Qed.

Lemma fin_rd {A} (l : list A) i : finished (rd l i).
Proof. unfold rd. repeat case_match; done. Qed.

Lemma fin_wr {A} (l : list A) i x : finished (wr l i x).
Proof. unfold wr. case_match; done. Qed.

Lemma fin_slice {A} (l : list A) lo hi : finished (slice l lo hi).
Proof. unfold slice. case_match; done. Qed.

Lemma fin_slice_from {A} (l : list A) lo : finished (slice_from l lo).
Proof. apply fin_slice. Qed.

Lemma fin_bind {A B} (x : run A) (f : A -> run B) :
  finished x -> (forall a, finished (f a)) -> finished (x ≫= f).
Proof. destruct x; cbn; [auto|done|done]. Qed.

Lemma fin_for_loop {S} cnt lo (body : Z -> S -> run S) s :
  (forall j s, finished (body j s)) -> finished (for_loop cnt lo body s).
Proof.
  intros Hb. revert lo s. induction cnt as [|cnt IH]; intros lo s; cbn [for_loop]; [done|].
  apply fin_bind; [apply Hb|]. intros a. apply IH.
Qed.

Lemma fin_for_loop_ret {S R} cnt lo (body : Z -> S -> run (S + R)) s :
  (forall j s, finished (body j s)) -> finished (for_loop_ret cnt lo body s).
Proof.
  intros Hb. revert lo s. induction cnt as [|cnt IH]; intros lo s;
    cbn [for_loop_ret]; [done|].
  apply fin_bind; [apply Hb|]. intros [a|r]; [apply IH|done].
Qed.

Ltac fin_with known :=
  repeat first
    [ known | apply fin_Val | apply fin_Panic | apply fin_rd | apply fin_wr
    | apply fin_slice | apply fin_slice_from
    | apply fin_for_loop | apply fin_for_loop_ret
    | apply fin_bind
    | progress intros
    | match goal with
      | |- finished (match ?x with _ => _ end) => destruct x
      | |- finished (let '(_, _) := ?x in _) => destruct x
      | |- finished (if ?b then _ else _) => destruct b
      end ].

Ltac fin := fin_with fail.

Lemma fin_dlCell {C} (ceq : C -> C -> bool) a b p2 p1 c i j :
  finished (dlCell ceq a b p2 p1 c i j).
Proof. unfold dlCell. fin. Qed.

Lemma fin_dlDistanceMax {C} (ceq : C -> C -> bool) p a b k :
  finished (dlDistanceMax ceq p a b k).
Proof.
  unfold dlDistanceMax. unfold dlRowMax. fin_with ltac:(apply fin_dlCell).
Qed.

Lemma fin_DistanceMax d p a b k : finished (DistanceMax d p a b k).
Proof.
  unfold DistanceMax, damerauLevenshteinDistanceMax, damerauLevenshteinDistanceMaxRunes.
  fin_with ltac:(apply fin_dlDistanceMax).
Qed.

Lemma fin_processPosting s k cand i cp : finished (processPosting s k cand i cp).
Proof.
  unfold processPosting, updateSuggestions, updateBestSuggestion,
    checkFirstRuneDistance, checkDistanceToSkip, checkProcessShouldSkip,
    suffixSkip, distanceCompare.
  fin_with ltac:(apply fin_DistanceMax).
Qed.

Lemma fin_processOne s k cp : finished (processOne s k cp).
Proof.
  unfold processOne, preProcessCandidate, addEditDistance.
  fin_with ltac:(apply fin_processPosting).
Qed.

(** *** What the loop over the postings leaves alone *)

Lemma updateSuggestion_frame cp sug : frame (updateSuggestion cp sug) = frame cp.
Proof. unfold updateSuggestion. by destruct (unicode cp). Qed.

Lemma updateMinDistance_frame s k cp : frame (updateMinDistance s k cp) = frame cp.
Proof. unfold updateMinDistance. by destruct (_ =? _). Qed.

Lemma checkFirstRuneDistance_frame cp sug cp' b :
  checkFirstRuneDistance cp sug = Val (cp', b) -> frame cp' = frame cp.
Proof.
  unfold checkFirstRuneDistance. intros H.
  destruct (if unicode cp then _ else _) as [found| |]; [|done..].
  cbn [mbind run_mbind run_bind] in H.
  destruct (_ <? _); [apply Val_inj in H; by inversion H|].
  destruct (bool_decide _); apply Val_inj in H; by inversion H.
Qed.

Lemma checkDistanceToSkip_frame s k cp sug cp' b :
  checkDistanceToSkip s k cp sug = Val (cp', b) -> frame cp' = frame cp.
Proof.
  unfold checkDistanceToSkip. intros H.
  destruct (if _ =? _ then _ else _) as [skip| |]; [|done..].
  cbn [mbind run_mbind run_bind] in H.
  destruct skip; [apply Val_inj in H; by inversion H|].
  destruct (bool_decide _); [apply Val_inj in H; by inversion H|].
  destruct (distanceCompare _ _ _ _) as [d| |]; [|done..].
  cbn [mbind run_mbind run_bind] in H.
  apply Val_inj in H. by inversion H.
Qed.

Lemma updateSuggestions_frame s idx sug cp cp' :
  updateSuggestions s idx sug cp = Val cp' -> frame cp' = frame cp.
Proof.
  intros H. unfold updateSuggestions in H.
  destruct (rd (counts s) idx) as [c| |]; [|done..].
  cbn [mbind run_mbind run_bind] in H.
  unfold updateBestSuggestion in H.
  run_cases H; reflexivity.
Qed.

Lemma processPosting_frame s k cand i cp cp' :
  processPosting s k cand i cp = Val cp' -> frame cp' = frame cp.
Proof.
  intros H. unfold processPosting in H.
  destruct (rd (DeletesData s) i) as [idx| |]; [|done..].
  cbn [mbind run_mbind run_bind] in H.
  destruct (rd (words s) idx) as [sug| |]; [|done..].
  cbn [mbind run_mbind run_bind] in H.
  destruct (bool_decide _); [apply Val_inj in H; by subst|].
  destruct (checkSuggestionToSkip _ _ _ _).
  { apply Val_inj in H. subst. apply updateSuggestion_frame. }
  set (cp1 := resetDistance (updateSuggestion cp sug)) in H.
  assert (frame cp1 = frame cp) as E1
    by (subst cp1; etrans; [|apply (updateSuggestion_frame cp sug)]; done).
  destruct (if candidateLen cp1 =? 0 then _ else _) as [[cp2 skip]| |] eqn:E2;
    [|done..].
  cbn [mbind run_mbind run_bind] in H.
  assert (frame cp2 = frame cp1) as E3.
  { destruct (candidateLen cp1 =? 0).
    - destruct (_ <? _); [apply Val_inj in E2; by inversion E2|].
      destruct (bool_decide _); apply Val_inj in E2; by inversion E2.
    - destruct (suggestionLen cp1 =? 1).
      + by apply checkFirstRuneDistance_frame in E2.
      + apply checkDistanceToSkip_frame in E2.
        by rewrite updateMinDistance_frame in E2. }
  destruct skip; [apply Val_inj in H; subst; congruence|].
  destruct (_ <=? _); [|apply Val_inj in H; subst; congruence].
  apply updateSuggestions_frame in H. congruence.
Qed.

(** *** The queue stays within the subsequences of the prefix *)

Lemma elem_of_subseqs {A} (k l : list A) : k `sublist_of` l -> k ∈ subseqs l.
Proof.
  induction 1 as [|x k l _ IH|x k l _ IH]; cbn [subseqs].
  - apply list_elem_of_singleton. reflexivity.
  - apply elem_of_app. right. apply list_elem_of_fmap. eauto.
  - apply elem_of_app. by left.
Qed.

Lemma length_subseqs {A} (l : list A) : length (subseqs l) = (2 ^ length l)%nat.
Proof.
  induction l as [|x l IH]; cbn [subseqs]; [done|].
  rewrite length_app, length_fmap, IH. cbn [length Nat.pow]. lia.
Qed.

Lemma size_universe {A} (F : list A -> list ascii) (X : list A) :
  (size (universe F X) <= 2 ^ length X)%nat.
Proof.
  unfold universe. rewrite <- length_subseqs, <- (length_fmap F).
  generalize (F <$> subseqs X). intros l.
  induction l as [|x l IH]; cbn [list_to_set length].
  - rewrite size_empty. lia.
  - destruct (decide (x ∈ (list_to_set l : gset (list ascii)))) as [Hx|Hx].
    + replace ({[x]} ∪ list_to_set l) with (list_to_set l : gset (list ascii)).
      * lia.
      * apply leibniz_equiv. symmetry. apply subseteq_union_1.
        by apply singleton_subseteq_l.
    + rewrite size_union, size_singleton by (by apply disjoint_singleton_l). lia.
Qed.

Section QueueFacts.
Context {A : Type} (view : list ascii -> list A) (F : list A -> list ascii) (X : list A).
Hypothesis view_F : forall l, l `sublist_of` X -> view (F l) = l.

Lemma enqueueDelete_ok cp (c : list ascii) (i : nat) :
  queue_ok view F X cp -> good view X c -> (i < length (view c))%nat ->
  queue_ok view F X (enqueueDelete cp (F (delete i (view c)))).
Proof.
  intros (Hc & Hd & Hl) Hg Hi.
  assert (delete i (view c) `sublist_of` X) as Hs
    by (etrans; [apply sublist_delete|exact Hg]).
  unfold enqueueDelete. case_bool_decide as Hin; [done|].
  split; [|split]; cbn.
  - apply Forall_app. split; [done|]. apply Forall_singleton.
    unfold good. by rewrite view_F.
  - apply union_least; [|done]. apply singleton_subseteq_l.
    unfold universe. apply elem_of_list_to_set, list_elem_of_fmap.
    eexists. split; [reflexivity|]. by apply elem_of_subseqs.
  - rewrite length_app, size_union, size_singleton by
      (apply disjoint_singleton_l; exact Hin).
    cbn. lia.
Qed.
End QueueFacts.

Lemma for_loop_preserves_in {S} (I : S -> Prop) cnt lo (body : Z -> S -> run S) s s' :
  (forall j s s', lo <= j < lo + Z.of_nat cnt -> I s -> body j s = Val s' -> I s') ->
  I s -> for_loop cnt lo body s = Val s' -> I s'.
Proof.
  revert lo s. induction cnt as [|cnt IH]; intros lo s Hb Hs H; cbn in H.
  - apply Val_inj in H. by subst.
  - destruct (body lo s) as [s1| |] eqn:E; [|done..].
    cbn [mbind run_mbind run_bind] in H.
    eapply (IH (lo + 1) s1); [|by eapply (Hb lo); [lia|..]|exact H].
    intros j t t' Hj. apply Hb. lia.
Qed.

Lemma sublist_Forall {A} (P : A -> Prop) (k l : list A) :
  k `sublist_of` l -> Forall P l -> Forall P k.
Proof.
  induction 1 as [|x k l _ IH|x k l _ IH]; intros H; [done|..].
  - apply Forall_cons in H as [? ?]. apply Forall_cons. auto.
  - apply Forall_cons in H as [? ?]. auto.
Qed.

Lemma runes_view pre l :
  l `sublist_of` runes pre -> runes (string_of_runes l) = l.
Proof.
  intros H. apply runes_string_of_runes.
  eapply sublist_Forall; [exact H|apply runes_valid].
Qed.

Lemma enqueueDelete_frame cp d :
  candidatePointer (enqueueDelete cp d) = candidatePointer cp /\
  unicode (enqueueDelete cp d) = unicode cp.
Proof. unfold enqueueDelete. by destruct (bool_decide _). Qed.

Lemma addEditDistance_queue pre cand cp cp' :
  queue_inv pre cp ->
  (if unicode cp
   then candidateRunes cp = runes cand /\ good runes (runes pre) cand
   else good id pre cand) ->
  addEditDistance cand cp = Val cp' ->
  queue_inv pre cp' /\ candidatePointer cp' = candidatePointer cp /\
  unicode cp' = unicode cp.
Proof.
  unfold addEditDistance, queue_inv. intros Hq Hg H.
  destruct (unicode cp) eqn:Eu; cbn [negb] in H.
  - destruct Hg as [Er Hg]. rewrite Er in H.
    cut (unicode cp' = true /\ queue_ok runes string_of_runes (runes pre) cp' /\
         candidatePointer cp' = candidatePointer cp).
    { intros (Hu & ? & ?). rewrite Hu. done. }
    revert H. apply (for_loop_preserves_in (fun c =>
      unicode c = true /\ queue_ok runes string_of_runes (runes pre) c /\
      candidatePointer c = candidatePointer cp)); [|done].
    intros j c c' Hj (Hu & Hc & Hp) Hb. cbv beta in Hb.
    unfold trips in Hj.
    assert (0 <= len (runes cand)) by apply len_nonneg.
    rewrite slice_take in Hb by lia. cbn [mbind run_mbind run_bind] in Hb.
    rewrite slice_from_drop in Hb by lia. cbn [mbind run_mbind run_bind] in Hb.
    apply Val_inj in Hb. subst c'.
    rewrite <- string_of_runes_app.
    replace (Z.to_nat (j + 1)) with (Datatypes.S (Z.to_nat j)) by lia.
    rewrite <- delete_take_drop.
    destruct (enqueueDelete_frame c
      (string_of_runes (delete (Z.to_nat j) (runes cand)))) as [E1 E2].
    rewrite E1, E2. split; [done|]. split; [|done].
    apply (enqueueDelete_ok runes string_of_runes (runes pre) (runes_view pre));
      [done|done|]. unfold len in *. lia.
  - cut (unicode cp' = false /\ queue_ok id id pre cp' /\
         candidatePointer cp' = candidatePointer cp).
    { intros (Hu & ? & ?). rewrite Hu. done. }
    revert H. apply (for_loop_preserves_in (fun c =>
      unicode c = false /\ queue_ok id id pre c /\
      candidatePointer c = candidatePointer cp)); [|done].
    intros j c c' Hj (Hu & Hc & Hp) Hb. cbv beta in Hb.
    unfold trips in Hj.
    assert (0 <= len cand) by apply len_nonneg.
    rewrite slice_take in Hb by lia. cbn [mbind run_mbind run_bind] in Hb.
    rewrite slice_from_drop in Hb by lia. cbn [mbind run_mbind run_bind] in Hb.
    apply Val_inj in Hb. subst c'.
    replace (Z.to_nat (j + 1)) with (Datatypes.S (Z.to_nat j)) by lia.
    rewrite <- delete_take_drop.
    destruct (enqueueDelete_frame c (delete (Z.to_nat j) cand)) as [E1 E2].
    rewrite E1, E2. split; [done|]. split; [|done].
    apply (enqueueDelete_ok id id pre (fun l _ => eq_refl) c cand (Z.to_nat j));
      [done|done|]. unfold len in *. cbn. lia.
Qed.

Lemma queue_inv_frame pre cp cp' :
  frame cp' = frame cp -> queue_inv pre cp -> queue_inv pre cp'.
Proof.
  unfold frame, queue_inv, queue_ok. intros E. inversion E as [[E1 E2 E3 E4 E5]].
  by rewrite E1, E2, E4.
Qed.

Lemma processOne_queue pre s k cp cp' :
  queue_inv pre cp -> 0 <= candidatePointer cp -> candidatePointer cp + 1 <= int_max ->
  processOne s k cp = Val (inl cp') ->
  queue_inv pre cp' /\ candidatePointer cp' = candidatePointer cp + 1 /\
  unicode cp' = unicode cp.
Proof.
  intros Hq Hp0 Hp1 H. unfold processOne in H.
  destruct (preProcessCandidate cp) as [[cp1 cand]| |] eqn:E1; [|done..].
  cbn [mbind run_mbind run_bind] in H.
  unfold preProcessCandidate in E1.
  destruct (rd (candidates cp) (candidatePointer cp)) as [c| |] eqn:Ec; [|done..].
  cbn [mbind run_mbind run_bind] in E1. apply Val_inj in E1.
  inversion E1 as [[E1a E1b]]. subst c. clear E1.
  assert (candidates cp1 = candidates cp /\ consideredDeletes cp1 = consideredDeletes cp /\
          unicode cp1 = unicode cp /\ candidatePointer cp1 = candidatePointer cp + 1 /\
          (unicode cp = true -> candidateRunes cp1 = runes cand)) as (F1 & F2 & F3 & F4 & F5).
  { subst cp1. cbn. destruct (unicode cp) eqn:Eu; cbn;
      rewrite add_id by (unfold is_int, int_min; lia); done. }
  clear E1a.
  assert (queue_inv pre cp1) as Hq1.
  { revert Hq. unfold queue_inv, queue_ok. by rewrite F1, F2, F3. }
  assert (cand ∈ candidates cp) as Hin.
  { apply rd_inv in Ec as [_ Ec]. by eapply list_elem_of_lookup_2. }
  assert (if unicode cp1
          then candidateRunes cp1 = runes cand /\ good runes (runes pre) cand
          else good id pre cand) as Hg.
  { rewrite F3. unfold queue_inv in Hq. destruct (unicode cp).
    - split; [auto|]. destruct Hq as [Hq _]. by eapply Forall_forall in Hq.
    - destruct Hq as [Hq _]. by eapply Forall_forall in Hq. }
  destruct (_ <? _).
  { destruct (bool_decide _); apply Val_inj in H; [|done].
    inversion H. subst cp'. done. }
  destruct (match DeletesIdx s !! cand with Some _ => _ | None => _ end)
    as [cp2| |] eqn:E2; [|done..].
  cbn [mbind run_mbind run_bind] in H.
  assert (frame cp2 = frame cp1) as Hf.
  { destruct (DeletesIdx s !! cand) as [v|]; [|apply Val_inj in E2; by subst].
    revert E2. apply (for_loop_preserves (fun c => frame c = frame cp1)); [|done].
    intros j c c' Hc Hb. apply processPosting_frame in Hb. congruence. }
  assert (queue_inv pre cp2) as Hq2 by (by eapply queue_inv_frame).
  assert (candidatePointer cp2 = candidatePointer cp + 1) as Hp2.
  { unfold frame in Hf. inversion Hf. congruence. }
  assert (if unicode cp2
          then candidateRunes cp2 = runes cand /\ good runes (runes pre) cand
          else good id pre cand) as Hg2.
  { unfold frame in Hf. inversion Hf as [[G1 G2 G3 G4 G5]]. by rewrite G4, G5. }
  assert (unicode cp2 = unicode cp) as Hu2
    by (unfold frame in Hf; inversion Hf; congruence).
  destruct (_ && _); [|apply Val_inj in H; inversion H; by subst].
  destruct (_ && _); [apply Val_inj in H; inversion H; by subst|].
  destruct (addEditDistance cand cp2) as [cp3| |] eqn:E3; [|done..].
  cbn [mbind run_mbind run_bind] in H. apply Val_inj in H. inversion H. subst cp3.
  destruct (addEditDistance_queue pre cand cp2 cp' Hq2 Hg2 E3) as (? & ? & ?).
  split; [done|]. split; congruence.
Qed.

Lemma queue_inv_size pre cp :
  queue_inv pre cp ->
  (length (candidates cp) <= S (universe_size (unicode cp) pre))%nat.
Proof.
  unfold queue_inv, universe_size.
  destruct (unicode cp); intros (_ & Hs & Hl); apply subseteq_size in Hs; lia.
Qed.

Lemma processCandidate_finished pre s k fuel : forall cp,
  queue_inv pre cp -> 0 <= candidatePointer cp ->
  Z.of_nat (universe_size (unicode cp) pre) + 2 <= int_max ->
  (universe_size (unicode cp) pre + 2 <= fuel + Z.to_nat (candidatePointer cp))%nat ->
  finished (processCandidate fuel s k cp).
Proof.
  induction fuel as [|fuel IH]; intros cp Hq Hp Hmax Hfuel;
    pose proof (queue_inv_size pre cp Hq) as Hsz; cbn [processCandidate];
    destruct (candidatePointer cp <? len (candidates cp)) eqn:E; try done;
    apply Z.ltb_lt in E; unfold len in E.
  - lia.
  - destruct (processOne s k cp) as [[cp'|cp']| |] eqn:E1;
      cbn [mbind run_mbind run_bind]; try done.
    + destruct (processOne_queue pre s k cp cp' Hq Hp) as (Hq' & Hp' & Hu'); [lia|done|].
      apply IH; rewrite ?Hu'; [done|lia|done|lia].
    + by apply fin_processOne in E1.
Qed.

Lemma universe_size_bytes pre (n : nat) :
  (length pre <= n)%nat -> (universe_size false pre <= 2 ^ n)%nat.
Proof.
  intros H. unfold universe_size. etrans; [apply size_universe|].
  apply Nat.pow_le_mono_r; lia.
Qed.

Lemma universe_size_runes pre (n : nat) :
  (length (runes pre) <= n)%nat -> (universe_size true pre <= 2 ^ n)%nat.
Proof.
  intros H. unfold universe_size. etrans; [apply size_universe|].
  apply Nat.pow_le_mono_r; lia.
Qed.

Lemma pow2_le_int_max (n : nat) : (n <= 62)%nat -> Z.of_nat (2 ^ n) + 2 <= int_max.
Proof.
  intros H. rewrite Nat2Z.inj_pow.
  assert (2 ^ Z.of_nat n <= 2 ^ 62) by (apply Z.pow_le_mono_r; lia).
  change (2 ^ 62) with 4611686018427387904 in *. unfold int_max. cbn in *. lia.
Qed.

Lemma getOriginPrefix_size s cp pre :
  getOriginPrefix s cp = Val pre ->
  phraseLen cp = (if unicode cp then len (runes (phrase cp)) else len (phrase cp)) ->
  (unicode cp = true -> phraseRunes cp = runes (phrase cp)) ->
  ((if unicode cp then length (runes pre) else length pre)
     <= Z.to_nat (Z.min (len (phrase cp)) (PrefixLength s)))%nat.
Proof.
  unfold getOriginPrefix. intros H Hl Hr.
  pose proof (len_runes (phrase cp)) as Hlr.
  destruct (PrefixLength s <? phraseLen cp) eqn:E;
    [apply Z.ltb_lt in E|apply Z.ltb_ge in E].
  - destruct (unicode cp).
    + rewrite Hr in H by done.
      unfold slice in H. case_decide as Hd; [|done].
      cbn [mbind run_mbind run_bind] in H. apply Val_inj in H. subst pre.
      rewrite runes_string_of_runes.
      * rewrite length_take, length_drop. unfold len in *. lia.
      * apply Forall_take, Forall_drop, runes_valid.
    + unfold slice in H. case_decide as Hd; [|done]. apply Val_inj in H. subst pre.
      rewrite length_take, length_drop. unfold len in *. lia.
  - apply Val_inj in H. subst pre. destruct (unicode cp).
    + unfold len in *. lia.
    + unfold len in *. lia.
Qed.

Lemma checkExactMatch_fields s p v cp cp' em :
  checkExactMatch s p v cp = Val (cp', em) ->
  cp' = set_suggestions cp (suggestions cp').
Proof.
  unfold checkExactMatch. intros H.
  destruct (Words s !! p) as [idx|].
  - destruct (rd (counts s) idx) as [c| |]; [|done..].
    cbn [mbind run_mbind run_bind] in H.
    destruct (_ && _); apply Val_inj in H; inversion H; reflexivity.
  - apply Val_inj in H. inversion H. subst. by destruct cp'.
Qed.

Lemma fin_checkExactMatch s p v cp : finished (checkExactMatch s p v cp).
Proof. unfold checkExactMatch. fin. Qed.

Lemma fin_getOriginPrefix s cp : finished (getOriginPrefix s cp).
Proof. unfold getOriginPrefix. fin. Qed.

(** X1: [Lookup] finishes.  The queue of candidates only ever holds the
    phrase prefix and distinct strings left of it after deletions, so
    the loop of [processCandidate] makes at most [2 ^ n + 1] turns for
    a prefix of [n] bytes or runes: with that much fuel [Lookup]
    returns or panics, it does not run on. *)
Theorem Lookup_finishes fuel s p v k :
  Z.min (len p) (PrefixLength s) <= 62 ->
  (2 ^ Z.to_nat (Z.min (len p) (PrefixLength s)) + 2 <= fuel)%nat ->
  Lookup fuel s p v k <> NoFuel.
Proof.
  intros Hn Hfuel. unfold Lookup.
  destruct (_ <? _); [done|].
  destruct (if decide (v = Top) then _ else _) as [c [item|]]; [done|].
  set (cp0 := acquireCandidateProcessor k v p).
  destruct (_ <? _); [done|].
  destruct (checkExactMatch (set_cache s c) p v cp0) as [[cp1 em]| |] eqn:E1;
    cbn [mbind run_mbind run_bind]; [|done|by apply fin_checkExactMatch in E1].
  apply checkExactMatch_fields in E1.
  destruct (shouldStop em); [done|]. destruct (_ =? _); [done|].
  assert (phrase cp1 = p /\ unicode cp1 = negb (isASCII p) /\
          candidates cp1 = [] /\ consideredDeletes cp1 = ∅ /\
          candidatePointer cp1 = 0 /\
          phraseLen cp1 = (if unicode cp1 then len (runes p) else len p) /\
          (unicode cp1 = true -> phraseRunes cp1 = runes p))
    as (F1 & F2 & F3 & F4 & F5 & F6 & F7).
  { rewrite E1. cbn. destruct (isASCII p); cbn; done. }
  clear E1. set (cp2 := set_consideredSuggestions cp1 _).
  destruct (getOriginPrefix (set_cache s c) cp2) as [pre| |] eqn:E2;
    cbn [mbind run_mbind run_bind]; [|done|by apply fin_getOriginPrefix in E2].
  apply getOriginPrefix_size in E2;
    [|change (phraseLen cp2) with (phraseLen cp1);
      change (unicode cp2) with (unicode cp1);
      change (phrase cp2) with (phrase cp1); by rewrite F1
     |change (phraseRunes cp2) with (phraseRunes cp1);
      change (unicode cp2) with (unicode cp1);
      change (phrase cp2) with (phrase cp1); by rewrite F1].
  change (phrase cp2) with (phrase cp1) in E2.
  change (unicode cp2) with (unicode cp1) in E2.
  rewrite F1 in E2. change (PrefixLength (set_cache s c)) with (PrefixLength s) in E2.
  set (cp3 := set_candidates cp2 _).
  assert (universe_size (unicode cp3) pre <=
          2 ^ Z.to_nat (Z.min (len p) (PrefixLength s)))%nat as Hu.
  { change (unicode cp3) with (unicode cp1).
    destruct (unicode cp1); [by apply universe_size_runes|by apply universe_size_bytes]. }
  apply fin_bind; [|intros cp4; by repeat case_match].
  apply (processCandidate_finished pre).
  - unfold queue_inv. change (unicode cp3) with (unicode cp1).
    destruct (unicode cp1); (split; [|split]); subst cp3; cbn; rewrite ?F3, ?F4; cbn.
    + apply Forall_singleton. unfold good. reflexivity.
    + apply empty_subseteq.
    + lia.
    + apply Forall_singleton. unfold good. reflexivity.
    + apply empty_subseteq.
    + lia.
  - change (candidatePointer cp3) with (candidatePointer cp1). lia.
  - assert (Z.to_nat (Z.min (len p) (PrefixLength s)) <= 62)%nat as Hn' by lia.
    apply pow2_le_int_max in Hn'. lia.
  - lia.
Qed.

Lemma Lookup_finishes_witness :
  Lookup 40 helloStore (str "hexxo") Closest 2 <> NoFuel.
Proof.
  apply Lookup_finishes.
  - apply Z.leb_le. reflexivity.
  - apply Nat.leb_le. reflexivity.
Defined.

(** ** More about the distance matrix *)

Section MatrixSymmetry.
Context {C : Type} (ceq : C -> C -> bool).
Hypothesis ceq_spec : forall x y, ceq x y = true <-> x = y.

Lemma ceq_sym x y : ceq x y = ceq y x.
Proof.
  destruct (ceq x y) eqn:E1, (ceq y x) eqn:E2; try done.
  - apply ceq_spec in E1. subst. assert (ceq y y = true) by (by apply ceq_spec). congruence.
  - apply ceq_spec in E2. subst. assert (ceq x x = true) by (by apply ceq_spec). congruence.
Qed.

Lemma same_sym (a b : list C) i j : same ceq a b i j = same ceq b a j i.
Proof. unfold same. destruct (a !! i), (b !! j); try done. apply ceq_sym. Qed.

Lemma cost_of_sym (a b : list C) i j : cost_of ceq a b i j = cost_of ceq b a j i.
Proof. unfold cost_of. by rewrite same_sym. Qed.

Lemma dlD_sym (a b : list C) i j : dlD ceq a b i j = dlD ceq b a j i.
Proof.
  revert j. induction (lt_wf i) as [i _ IHi]. intros j.
  destruct i as [|i]; [by rewrite dlD_i0|].
  induction j as [|j IHj]; [by rewrite dlD_i0|].
  rewrite !dlD_SS. cbv zeta.
  rewrite (IHi i ltac:(lia) (S j)), (IHi i ltac:(lia) j), IHj, (cost_of_sym a b i j).
  destruct i as [|i'], j as [|j']; try lia.
  rewrite (IHi i' ltac:(lia) j'), (same_sym a b (S i') j'), (same_sym a b i' (S j')).
  rewrite andb_comm. destruct (_ && _); lia.
Qed.

Lemma same_refl (a : list C) i : (i < length a)%nat -> same ceq a a i i = true.
Proof.
  intros Hi. apply lookup_lt_is_Some in Hi as [x Hx].
  unfold same. rewrite Hx. by apply ceq_spec.
Qed.

Lemma dlD_diag (a : list C) i : (i <= length a)%nat -> dlD ceq a a i i = 0.
Proof.
  induction i as [|i IH]; intros Hi; [done|].
  pose proof (dlD_sub ceq a a i i) as H1. pose proof (dlD_nonneg ceq a a (S i) (S i)).
  unfold cost_of in H1. rewrite same_refl in H1 by lia. rewrite IH in H1 by lia. lia.
Qed.

Lemma dlD_le_max (a b : list C) i j : dlD ceq a b i j <= Z.of_nat (Nat.max i j).
Proof.
  revert j. induction i as [|i IH]; intros j; [cbn [dlD]; lia|].
  destruct j as [|j]; [rewrite dlD_i0; lia|].
  pose proof (dlD_sub ceq a b i j). pose proof (cost_range ceq a b i j).
  specialize (IH j). lia.
Qed.

Lemma dlD_zero (a b : list C) i j :
  dlD ceq a b i j = 0 -> i = j /\ take i a = take j b.
Proof.
  intros H0. pose proof (dlD_diff ceq a b i j) as Hd.
  assert (i = j) as <- by lia. split; [done|]. clear Hd.
  induction (lt_wf i) as [i _ IH].
  destruct i as [|i]; [done|].
  rewrite dlD_SS in H0. cbv zeta in H0.
  pose proof (dlD_nonneg ceq a b i (S i)). pose proof (dlD_nonneg ceq a b (S i) i).
  pose proof (dlD_nonneg ceq a b i i). pose proof (cost_range ceq a b i i).
  assert (cost_of ceq a b i i = 0 /\
          (dlD ceq a b i i = 0 \/
           exists i', i = S i' /\ dlD ceq a b i' i' = 0 /\
             same ceq a b i i' = true /\ same ceq a b i' i = true))
    as (Hc & Hcase).
  { destruct i as [|i']; [split; [lia|left; lia]|].
    pose proof (dlD_nonneg ceq a b i' i').
    destruct (same ceq a b (S i') i') eqn:S1, (same ceq a b i' (S i')) eqn:S2;
      cbn [andb] in H0; try (split; [lia|left; lia]).
    split; [lia|].
    destruct (decide (dlD ceq a b (S i') (S i') = 0)) as [?|Hne]; [by left|].
    right. exists i'. repeat split; [lia|done|done]. }
  unfold cost_of in Hc. destruct (same ceq a b i i) eqn:Hs; [|done].
  apply (same_inv ceq ceq_spec) in Hs as (x & Hx & Hy).
  destruct Hcase as [Hz|(i' & -> & Hz & S1 & S2)].
  - rewrite (take_S_r a i x), (take_S_r b i x) by done.
    f_equal. apply IH; [lia|done].
  - apply (same_inv ceq ceq_spec) in S1 as (y & Hy1 & Hy2).
    apply (same_inv ceq ceq_spec) in S2 as (z & Hz1 & Hz2).
    rewrite (take_S_r a (S i') x), (take_S_r b (S i') x) by done.
    rewrite (take_S_r a i' z), (take_S_r b i' y) by done.
    assert (y = z) by congruence. subst z.
    do 2 f_equal. apply IH; [lia|done].
Qed.
End MatrixSymmetry.

(** ** Package editdistance: what [Distance] and [DistanceMax] compute *)

Lemma take_len {A} (l : list A) : take (Z.to_nat (len l)) l = l.
Proof. apply take_ge. unfold len. lia. Qed.

(** X2.  [Distance] is symmetric, and the recycled buffers do not
    matter: for every content of the pool on either side,
    [Distance(a, b) = Distance(b, a)]. *)
Theorem Distance_symmetric d p p' a b :
  len a + len b + 1 <= int_max ->
  Distance d p a b = Distance d p' b a.
Proof.
  intros Hmax. unfold Distance. case_decide; [|done].
  pose proof (len_runes a). pose proof (len_runes b).
  rewrite (andb_comm (isASCII b)). destruct (isASCII a && isASCII b).
  - unfold damerauLevenshteinDistance.
    rewrite !dlDistance_spec by lia. f_equal. apply (dlD_sym _ ascii_eqb_spec).
  - unfold damerauLevenshteinDistanceRunes.
    rewrite !dlDistance_spec by lia. f_equal. apply (dlD_sym _ Z_eqb_spec).
Qed.

Lemma Distance_symmetric_witness :
  Distance (NewEditDistance DamerauLevenshtein) fresh_pool (str "ab") (str "bca") =
  Distance (NewEditDistance DamerauLevenshtein) (Pool3 [7; 7] [] [1; 2; 3; 4; 5])
    (str "bca") (str "ab").
Proof. apply Distance_symmetric. apply Z.leb_le. reflexivity. Defined.

(** X3.  The distance is 0 exactly for equal inputs: equal strings when
    both are ASCII, equal rune sequences otherwise (two strings that
    decode to the same runes, as invalid UTF-8 can, are at distance
    0). *)
Theorem Distance_zero_iff d p a b :
  Type_ d = DamerauLevenshtein ->
  len a + len b + 1 <= int_max ->
  Distance d p a b = Val 0 <->
  (if isASCII a && isASCII b then a = b else runes a = runes b).
Proof.
  intros Hd Hmax. unfold Distance. rewrite decide_True by done.
  pose proof (len_runes a). pose proof (len_runes b).
  destruct (isASCII a && isASCII b).
  - unfold damerauLevenshteinDistance. rewrite dlDistance_spec by lia. split.
    + intros H1. apply Val_inj in H1.
      apply (dlD_zero _ ascii_eqb_spec) in H1 as [_ H1].
      by rewrite !take_len in H1.
    + intros <-. f_equal. apply (dlD_diag _ ascii_eqb_spec). unfold len. lia.
  - unfold damerauLevenshteinDistanceRunes. rewrite dlDistance_spec by lia. split.
    + intros H1. apply Val_inj in H1.
      apply (dlD_zero _ Z_eqb_spec) in H1 as [_ H1].
      by rewrite !take_len in H1.
    + intros <-. f_equal. apply (dlD_diag _ Z_eqb_spec). unfold len. lia.
Qed.

Lemma Distance_zero_iff_witness :
  Distance (NewEditDistance DamerauLevenshtein) fresh_pool
    [byte_of 255] [byte_of 254] = Val 0 <->
  runes [byte_of 255] = runes [byte_of 254].
Proof.
  apply (Distance_zero_iff (NewEditDistance DamerauLevenshtein) fresh_pool
           [byte_of 255] [byte_of 254]).
  - reflexivity.
  - apply Z.leb_le. reflexivity.
Defined.

(** X4.  [Distance] returns a value between the difference and the
    larger of the two lengths, counted in bytes for ASCII input and in
    runes otherwise. *)
Theorem Distance_bounds d p a b :
  Type_ d = DamerauLevenshtein ->
  len a + len b + 1 <= int_max ->
  let n x := if isASCII a && isASCII b then len x else len (runes x) in
  exists dist,
    Distance d p a b = Val dist /\
    Z.abs (n a - n b) <= dist <= Z.max (n a) (n b).
Proof.
  intros Hd Hmax. unfold Distance. rewrite decide_True by done. cbv zeta.
  pose proof (len_runes a). pose proof (len_runes b).
  destruct (isASCII a && isASCII b).
  - unfold damerauLevenshteinDistance. rewrite dlDistance_spec by lia.
    eexists. split; [done|].
    pose proof (dlD_diff Ascii.eqb a b (Z.to_nat (len a)) (Z.to_nat (len b))).
    pose proof (dlD_le_max Ascii.eqb a b (Z.to_nat (len a)) (Z.to_nat (len b))).
    unfold len in *. lia.
  - unfold damerauLevenshteinDistanceRunes. rewrite dlDistance_spec by lia.
    eexists. split; [done|].
    pose proof (dlD_diff Z.eqb (runes a) (runes b)
                  (Z.to_nat (len (runes a))) (Z.to_nat (len (runes b)))).
    pose proof (dlD_le_max Z.eqb (runes a) (runes b)
                  (Z.to_nat (len (runes a))) (Z.to_nat (len (runes b)))).
    unfold len in *. lia.
Qed.

Lemma Distance_bounds_witness :
  exists dist,
    Distance (NewEditDistance DamerauLevenshtein) fresh_pool (str "kitten") (str "sitting")
      = Val dist /\
    Z.abs (6 - 7) <= dist <= Z.max 6 7.
Proof.
  apply (Distance_bounds (NewEditDistance DamerauLevenshtein) fresh_pool
           (str "kitten") (str "sitting")).
  - reflexivity.
  - apply Z.leb_le. reflexivity.
Defined.

(** X5.  A negative bound is never met: [DistanceMax(a, b, k)] with
    [k < 0] is [k + 1] for every pair of strings, equal ones
    included, and the buffers are not touched. *)
Theorem DistanceMax_negative_bound d p a b k :
  Type_ d = DamerauLevenshtein ->
  int_min <= k < 0 -> len a <= int_max -> len b <= int_max ->
  DistanceMax d p a b k = Val (k + 1).
Proof.
  intros Hd Hk Ha Hb. unfold DistanceMax. rewrite decide_True by done.
  pose proof (len_runes a). pose proof (len_runes b).
  assert (forall {C} (ceq : C -> C -> bool) (x y : list C),
            len x <= int_max -> len y <= int_max ->
            dlDistanceMax ceq p x y k = Val (k + 1)) as Hgen.
  { intros C ceq x y Hx Hy. unfold dlDistanceMax.
    pose proof (len_nonneg x). pose proof (len_nonneg y).
    rewrite add_id by (unfold is_int, int_min, int_max in *; lia).
    destruct (len x =? 0); [by rewrite (proj2 (Z.leb_gt _ _)) by lia|].
    destruct (len y =? 0); [by rewrite (proj2 (Z.leb_gt _ _)) by lia|].
    rewrite sub_id by (unfold is_int, int_min, int_max in *; lia).
    destruct (Z.ltb_spec k (len x - len y)) as [|Hle]; [done|].
    cbn [orb]. destruct (Z.eq_dec k int_min) as [->|Hne].
    - unfold int_min, int_max in *. lia.
    - rewrite neg_id by (unfold is_int, int_min, int_max in *; lia).
      by rewrite (proj2 (Z.ltb_lt _ _)) by lia. }
  destruct (isASCII a && isASCII b); apply Hgen; lia.
Qed.

Lemma DistanceMax_negative_bound_witness :
  DistanceMax (NewEditDistance DamerauLevenshtein) fresh_pool (str "a") (str "a") (-1)
  = Val (-1 + 1).
Proof.
  apply DistanceMax_negative_bound.
  - reflexivity.
  - unfold int_min. lia.
  - apply Z.leb_le. reflexivity.
  - apply Z.leb_le. reflexivity.
Defined.

(** ** The delete index *)

Lemma u32_id z : is_u32 z -> u32 z = z.
Proof. unfold is_u32, maxUint32, u32. intros H. apply Z.mod_small. lia. Qed.

Lemma pack_add o l : is_u32 o -> is_u32 l -> pack o l = o * 4294967296 + l.
Proof.
  unfold is_u32, maxUint32, pack, u64. intros Ho Hl.
  rewrite Z.shiftl_mul_pow2 by lia. change (2 ^ 32) with 4294967296.
  rewrite Z.mod_small by lia.
  pose proof (Z.add_lor_land (o * 4294967296) l) as H.
  assert (Z.land (o * 4294967296) l = 0) as H0.
  { apply Z.bits_inj'. intros n Hn. rewrite Z.land_spec, Z.bits_0.
    destruct (Z.ltb_spec n 32).
    - change 4294967296 with (2 ^ 32). rewrite Z.mul_pow2_bits_low by lia. done.
    - replace l with (l mod 2 ^ 32) by (apply Z.mod_small; change (2 ^ 32) with 4294967296; lia).
      rewrite Z.mod_pow2_bits_high by lia. apply andb_false_r. }
  lia.
Qed.

(** The two halves of a packed entry come back as they went in. *)
Lemma unpack_pack o l :
  is_u32 o -> is_u32 l ->
  unpack_offset (pack o l) = o /\ unpack_length (pack o l) = l.
Proof.
  intros Ho Hl. rewrite pack_add by done.
  unfold unpack_offset, unpack_length, u32, is_u32, maxUint32 in *.
  rewrite Z.shiftr_div_pow2 by lia. change (2 ^ 32) with 4294967296.
  split; Z.to_euclidean_division_equations; lia.
Qed.

Lemma unpack_offset_u32 v : is_u32 (unpack_offset v).
Proof. apply u32_range. Qed.

Lemma unpack_length_u32 v : is_u32 (unpack_length v).
Proof. apply u32_range. Qed.

Section InsertAt.
Context {A : Type} (data : list A) (x : A) (ip : nat).
Hypothesis Hip : (ip <= length data)%nat.

Lemma insert_at_before o l :
  (o + l <= ip)%nat ->
  take l (drop o (take ip data ++ x :: drop ip data)) = take l (drop o data).
Proof.
  intros H. rewrite !take_drop_commute.
  rewrite take_app_le by (rewrite length_take; lia).
  rewrite take_take. by replace ((o + l) `min` ip)%nat with (o + l)%nat by lia.
Qed.

Lemma insert_at_after o l :
  (ip <= o)%nat ->
  take l (drop (S o) (take ip data ++ x :: drop ip data)) = take l (drop o data).
Proof.
  intros H. f_equal.
  rewrite drop_app_ge by (rewrite length_take; lia).
  rewrite length_take. replace (S o - ip `min` length data)%nat with (S (o - ip)) by lia.
  cbn [drop]. rewrite drop_drop. f_equal. lia.
Qed.

Lemma insert_at_end o l :
  (o + l = ip)%nat ->
  take (S l) (drop o (take ip data ++ x :: drop ip data)) = take l (drop o data) ++ [x].
Proof.
  intros H.
  assert (length (take ip data) = ip) as Hl by (rewrite length_take; lia).
  rewrite drop_app_le by lia.
  assert (length (drop o (take ip data)) = l) as Hl2 by (rewrite length_drop; lia).
  rewrite take_app_ge by lia. rewrite Hl2.
  replace (S l - l)%nat with 1%nat by lia. cbn [take]. f_equal.
  rewrite (take_drop_commute data). replace (o + l)%nat with ip by lia.
  done.
Qed.
End InsertAt.

(** The three steps that make room at [insertPos] and store the index
    there: append, shift the tail by one, write. *)
Lemma insert_pipeline (data : list Z) ip index :
  0 <= ip <= len data -> len data < maxUint32 ->
  (src ← slice_from (data ++ [0]) ip;
   d1 ← copy_at (data ++ [0]) (u32 (ip + 1)) src;
   wr d1 ip index)
  = Val (take (Z.to_nat ip) data ++ index :: drop (Z.to_nat ip) data).
Proof.
  intros Hip Hlen. unfold maxUint32 in Hlen.
  assert (len (data ++ [0]) = len data + 1) as Hl0
    by (unfold len; rewrite length_app; cbn; lia).
  rewrite slice_from_drop by lia. rewrite bind_Val.
  rewrite u32_id by (unfold is_u32, maxUint32; lia).
  unfold copy_at. rewrite slice_from_drop by lia. rewrite bind_Val, bind_Val.
  set (n := Z.to_nat ip). replace (Z.to_nat (ip + 1)) with (S n) by lia.
  assert (n <= length data)%nat as Hn by (unfold len in *; lia).
  rewrite !length_drop, !length_app. cbn [length].
  replace ((length data + 1 - S n) `min` (length data + 1 - n))%nat
    with (length data - n)%nat by lia.
  rewrite (drop_ge (drop (S n) _)) by (rewrite length_drop, length_app; cbn; lia).
  rewrite app_nil_r.
  rewrite (drop_app_le data [0] n) by lia.
  rewrite (take_app_le (drop n data)) by (rewrite length_drop; lia).
  rewrite (take_ge (drop n data)) by (rewrite length_drop; lia).
  assert (exists y, take (S n) (data ++ [0]) = take n data ++ [y]) as [y Hy].
  { destruct ((data ++ [0]) !! n) as [y|] eqn:E.
    - exists y. rewrite (take_S_r _ _ _ E). by rewrite take_app_le by lia.
    - apply lookup_ge_None in E. rewrite length_app in E. cbn in E. lia. }
  rewrite Hy. rewrite wr_Val.
  - f_equal. rewrite <- (app_assoc (take n data) [y]). cbn [app].
    replace (Z.to_nat ip) with (length (take n data) + 0)%nat
      by (rewrite length_take; lia).
    by rewrite insert_app_r.
  - unfold len in *. rewrite !length_app, length_take, length_drop. cbn. lia.
Qed.

Lemma bind_Val_inv {A B} (x : run A) (f : A -> run B) y :
  x ≫= f = Val y -> exists a, x = Val a /\ f a = Val y.
Proof. destruct x; [eauto|done..]. Qed.

Lemma addDelete_postings index s d :
  deletes_inv s -> len (DeletesData s) < maxUint32 ->
  exists s', addDelete index s d = Val s' /\
    deletes_inv s' /\
    len (DeletesData s') = len (DeletesData s) + 1 /\
    postings s' d = Some (default [] (postings s d) ++ [index]) /\
    (forall d', d' <> d -> postings s' d' = postings s d').
Proof.
  intros [Hrange Hdisj] Hlen. unfold addDelete, postings. cbv zeta.
  pose proof (len_nonneg (DeletesData s)) as Hn0.
  set (data := DeletesData s) in *.
  destruct (DeletesIdx s !! d) as [v|] eqn:Ed.
  - destruct (Hrange d v Ed) as [Hl1 Hol].
    pose proof (unpack_offset_u32 v) as Ho. pose proof (unpack_length_u32 v) as Hl.
    set (o := unpack_offset v) in *. set (l := unpack_length v) in *.
    unfold is_u32, maxUint32 in *.
    rewrite (u32_id (o + l)) by (unfold is_u32, maxUint32; lia).
    rewrite (u32_id (l + 1)) by (unfold is_u32, maxUint32; lia).
    destruct (bind_Val_inv _ _ _
      (insert_pipeline data (o + l) index ltac:(lia) ltac:(unfold maxUint32; lia)))
      as (src & -> & Hp).
    rewrite bind_Val. destruct (bind_Val_inv _ _ _ Hp) as (d1 & -> & Hp').
    rewrite bind_Val, Hp', bind_Val. clear Hp Hp'.
    set (data' := take (Z.to_nat (o + l)) data ++ index :: drop (Z.to_nat (o + l)) data).
    set (ix := <[d := pack o (l + 1)]> _).
    assert (len data' = len data + 1) as Hlen'.
    { subst data'. unfold len in *.
      rewrite length_app, length_take. cbn [length]. rewrite length_drop. lia. }
    assert (forall d' w, ix !! d' = Some w ->
      (d' = d /\ unpack_offset w = o /\ unpack_length w = l + 1) \/
      (d' <> d /\ exists v', DeletesIdx s !! d' = Some v' /\
         unpack_length w = unpack_length v' /\
         ((o + l <= unpack_offset v' /\ unpack_offset w = unpack_offset v' + 1) \/
          (unpack_offset v' + unpack_length v' <= o /\
           unpack_offset w = unpack_offset v')))) as Hview.
    { intros d' w Hw. subst ix. destruct (decide (d' = d)) as [->|Hne].
      - left. rewrite lookup_insert_eq in Hw. apply (inj Some) in Hw. subst w.
        split; [done|]. apply unpack_pack; unfold is_u32, maxUint32; lia.
      - right. split; [done|]. rewrite lookup_insert_ne in Hw by done.
        rewrite map_lookup_imap in Hw.
        destruct (DeletesIdx s !! d') as [v'|] eqn:Ed'; [|done].
        cbn in Hw. apply (inj Some) in Hw. exists v'. split; [done|].
        rewrite decide_False in Hw by done.
        destruct (Hrange d' v' Ed') as [Hl1' Hol'].
        pose proof (unpack_offset_u32 v') as Ho'. pose proof (unpack_length_u32 v') as Hl'.
        unfold is_u32, maxUint32 in *.
        destruct (Z.leb_spec (o + l) (unpack_offset v')) as [Hge|Hlt].
        + rewrite u32_id in Hw by (unfold is_u32, maxUint32; lia). subst w.
          destruct (unpack_pack (unpack_offset v' + 1) (unpack_length v'))
            as [E1 E2]; [unfold is_u32, maxUint32; lia..|].
          rewrite E1, E2. split; [done|]. left. done.
        + subst w. split; [done|]. right. split; [|done].
          pose proof (Hdisj d d' v v' ltac:(done) Ed Ed') as Hd. subst o l. lia. }
    eexists. split; [reflexivity|]. cbn [DeletesIdx DeletesData set_Deletes].
    split; [|split; [done|split]].
    + split; cbn [DeletesIdx DeletesData set_Deletes].
      * intros d' w Hw. apply Hview in Hw as [(-> & E1 & E2)|(Hne & v' & Ev' & E1 & E2)].
        -- rewrite E1, E2. lia.
        -- destruct (Hrange d' v' Ev'). rewrite E1.
           destruct E2 as [[? ->]|[? ->]]; lia.
      * intros d1' d2' w1 w2 Hne H1 H2.
        apply Hview in H1 as [(-> & E1 & E2)|(Hne1 & v1 & Ev1 & E1 & E2)];
        apply Hview in H2 as [(-> & F1 & F2)|(Hne2 & v2 & Ev2 & F1 & F2)];
          try done; rewrite ?E1, ?F1; try rewrite E2; try rewrite F2.
        -- destruct (Hrange d2' v2 Ev2). destruct F2 as [[? ->]|[? ->]]; lia.
        -- destruct (Hrange d1' v1 Ev1). destruct E2 as [[? ->]|[? ->]]; lia.
        -- destruct (Hrange d1' v1 Ev1). destruct (Hrange d2' v2 Ev2).
           pose proof (Hdisj d1' d2' v1 v2 Hne Ev1 Ev2).
           destruct E2 as [[? ->]|[? ->]], F2 as [[? ->]|[? ->]]; lia.
    + destruct (ix !! d) as [w|] eqn:Ew;
        [|subst ix; by rewrite lookup_insert_eq in Ew].
      apply Hview in Ew as [(_ & E1 & E2)|(? & _)]; [|done].
      rewrite E1, E2. cbn [default]. f_equal.
      replace (Z.to_nat (l + 1)) with (S (Z.to_nat l)) by lia.
      subst data'. apply insert_at_end; unfold len in *; lia.
    + intros d' Hne. destruct (ix !! d') as [w|] eqn:Ew.
      * apply Hview in Ew as [(? & _)|(_ & v' & Ev' & E1 & E2)]; [done|].
        rewrite Ev'. f_equal. rewrite E1.
        destruct (Hrange d' v' Ev').
        pose proof (unpack_offset_u32 v') as Ho'. unfold is_u32 in Ho'.
        destruct E2 as [[? ->]|[? ->]]; subst data'.
        -- replace (Z.to_nat (unpack_offset v' + 1))
             with (S (Z.to_nat (unpack_offset v'))) by lia.
           apply insert_at_after; unfold len in *; lia.
        -- apply insert_at_before; unfold len in *; lia.
      * subst ix. rewrite lookup_insert_ne in Ew by done.
        rewrite map_lookup_imap in Ew.
        destruct (DeletesIdx s !! d') as [v'|]; [done|done].
  - rewrite (u32_id (len data)) by (unfold is_u32, maxUint32 in *; lia).
    set (ix := <[d := pack (len data) 1]> _).
    assert (forall d' w, ix !! d' = Some w ->
      (d' = d /\ unpack_offset w = len data /\ unpack_length w = 1) \/
      (d' <> d /\ DeletesIdx s !! d' = Some w)) as Hview.
    { intros d' w Hw. subst ix. destruct (decide (d' = d)) as [->|Hne].
      - left. rewrite lookup_insert_eq in Hw. apply (inj Some) in Hw. subst w.
        split; [done|]. apply unpack_pack; unfold is_u32, maxUint32 in *; lia.
      - right. by rewrite lookup_insert_ne in Hw by done. }
    assert (len (data ++ [index]) = len data + 1) as Hlen'
      by (unfold len; rewrite length_app; cbn; lia).
    assert (data ++ [index] =
            take (Z.to_nat (len data)) data ++ index :: drop (Z.to_nat (len data)) data)
      as Hdata.
    { rewrite take_ge, drop_ge by (unfold len; lia). done. }
    eexists. split; [reflexivity|]. cbn [DeletesIdx DeletesData set_Deletes].
    split; [|split; [done|split]].
    + split; cbn [DeletesIdx DeletesData set_Deletes].
      * intros d' w Hw. apply Hview in Hw as [(-> & E1 & E2)|(Hne & Ev')].
        -- rewrite E1, E2. lia.
        -- destruct (Hrange d' w Ev'). lia.
      * intros d1' d2' w1 w2 Hne H1 H2.
        apply Hview in H1 as [(-> & E1 & E2)|(Hne1 & Ev1)];
        apply Hview in H2 as [(-> & F1 & F2)|(Hne2 & Ev2)];
          try done; rewrite ?E1, ?F1, ?E2, ?F2.
        -- destruct (Hrange d2' w2 Ev2). lia.
        -- destruct (Hrange d1' w1 Ev1). lia.
        -- by apply (Hdisj d1' d2').
    + destruct (ix !! d) as [w|] eqn:Ew;
        [|subst ix; by rewrite lookup_insert_eq in Ew].
      apply Hview in Ew as [(_ & E1 & E2)|(? & _)]; [|done].
      rewrite E1, E2. cbn [default app]. f_equal.
      rewrite drop_app_le by (unfold len; lia).
      rewrite drop_ge by (unfold len; lia). done.
    + intros d' Hne. destruct (ix !! d') as [w|] eqn:Ew.
      * apply Hview in Ew as [(? & _)|(_ & Ev')]; [done|].
        rewrite Ev'. f_equal. destruct (Hrange d' w Ev').
        pose proof (unpack_offset_u32 w) as Ho'. unfold is_u32 in Ho'.
        rewrite Hdata. apply insert_at_before; unfold len in *; lia.
      * subst ix. rewrite lookup_insert_ne in Ew by done. by rewrite Ew.
Qed.

Lemma foldM_addDelete_postings index l : forall s,
  NoDup l -> deletes_inv s ->
  len (DeletesData s) + len l <= maxUint32 ->
  exists s', foldM (addDelete index) s l = Val s' /\
    deletes_inv s' /\
    len (DeletesData s') = len (DeletesData s) + len l /\
    forall d, postings s' d =
      if decide (d ∈ l) then Some (default [] (postings s d) ++ [index])
      else postings s d.
Proof.
  induction l as [|x l IH]; intros s Hnd Hinv Hlen.
  - exists s. split; [done|]. split; [done|]. split; [unfold len; cbn; lia|].
    intros d. rewrite decide_False; [done|]. apply not_elem_of_nil.
  - apply NoDup_cons in Hnd as [Hx Hnd].
    assert (len (x :: l) = len l + 1) as Hl by (unfold len; cbn [length]; lia).
    pose proof (len_nonneg l).
    destruct (addDelete_postings index s x Hinv) as (s1 & E1 & Hinv1 & Hlen1 & Hp1 & Hq1);
      [lia|].
    destruct (IH s1 Hnd Hinv1) as (s' & E' & Hinv' & Hlen' & Hp'); [lia|].
    exists s'. split; [cbn [foldM]; by rewrite E1|].
    split; [done|]. split; [lia|].
    intros d. rewrite Hp'. destruct (decide (d = x)) as [->|Hne].
    + rewrite (decide_False _ _ Hx), (decide_True _ _ (list_elem_of_here x l)). done.
    + rewrite (Hq1 d Hne).
      destruct (decide (d ∈ l)) as [Hin|Hin].
      * rewrite decide_True; [done|]. by apply list_elem_of_further.
      * rewrite decide_False; [done|]. by intros [?|?]%elem_of_cons.
Qed.

Lemma addDeletesForIndex_run s key index es :
  editsPrefix s key = Val es ->
  deletes_inv s ->
  len (DeletesData s) + Z.of_nat (size es) <= maxUint32 ->
  exists s', addDeletesForIndex s key index = Val s' /\
    deletes_inv s' /\
    forall d, postings s' d =
      if decide (d ∈ es) then Some (default [] (postings s d) ++ [index])
      else postings s d.
Proof.
  intros Hes Hinv Hlen. unfold addDeletesForIndex. rewrite Hes, bind_Val.
  destruct (foldM_addDelete_postings index (elements es) s)
    as (s' & E & Hinv' & _ & Hp); [apply NoDup_elements|done|by unfold len, size in *|].
  exists s'. split; [done|]. split; [done|].
  intros d. rewrite Hp.
  destruct (decide (d ∈ elements es)) as [Hin|Hin].
  - apply elem_of_elements in Hin. by rewrite decide_True.
  - rewrite decide_False; [done|]. intros Hd. by apply Hin, elem_of_elements.
Qed.

(** X6.  [addDeletesForIndex] adds the index at the end of the postings
    of every delete word of the key and leaves all other postings as
    they were, whatever the order in which the delete words are
    visited; the runs of [DeletesData] stay inside the array and apart
    from each other. *)
Theorem addDeletesForIndex_postings s key index es :
  editsPrefix s key = Val es ->
  deletes_inv s ->
  len (DeletesData s) + Z.of_nat (size es) <= maxUint32 ->
  exists s', addDeletesForIndex s key index = Val s' /\
    deletes_inv s' /\
    forall d, postings s' d =
      if decide (d ∈ es) then Some (default [] (postings s d) ++ [index])
      else postings s d.
Proof. apply addDeletesForIndex_run. Qed.

Lemma deletes_inv_empty s : DeletesIdx s = ∅ -> deletes_inv s.
Proof. intros E. split; intros *; rewrite E, ?lookup_empty; done. Qed.

Lemma addDeletesForIndex_postings_witness :
  exists s', addDeletesForIndex emptyStore (str "ab") 0 = Val s' /\
    deletes_inv s' /\
    forall d, postings s' d =
      if decide (d ∈ ({[ str "ab"; str "a"; str "b"; [] ]} : gset (list ascii)))
      then Some (default [] (postings emptyStore d) ++ [0])
      else postings emptyStore d.
Proof.
  apply (addDeletesForIndex_postings emptyStore (str "ab") 0).
  - vm_compute. reflexivity.
  - by apply deletes_inv_empty.
  - apply Z.leb_le. vm_compute. reflexivity.
Defined.

(** ** Entries of the dictionary *)



Lemma incrementCount_zero c : is_u32 c -> incrementCount 0 c = c.
Proof.
  unfold incrementCount, is_u32, maxUint32, u32. intros H.
  rewrite Z.mod_small by lia.
  destruct (Z.ltb_spec 0 (4294967295 - c)); [|lia].
  rewrite Z.mod_small; lia.
Qed.

Lemma incrementCount_zero_r c : is_u32 c -> incrementCount c 0 = c.
Proof.
  unfold incrementCount, is_u32, maxUint32, u32. intros H.
  rewrite Z.mod_small by lia.
  destruct (Z.ltb_spec c (4294967295 - 0)); [|lia].
  rewrite Z.mod_small; lia.
Qed.



(** X8.  A term that is already a word of a store with
    [CountThreshold <= 1] is not added again: [createDictionaryEntry]
    answers false and only adds the count to the count the word has,
    up to the largest [uint32]. *)
Theorem createDictionaryEntry_known_term s key count idx :
  store_inv s -> CountThreshold s <= 1 -> is_u32 count ->
  Words s !! key = Some idx ->
  exists c, counts s !! Z.to_nat idx = Some c /\
    createDictionaryEntry s key count =
    Val (set_counts s (<[Z.to_nat idx := incrementCount count c]> (counts s)), false).
Proof.
  intros Hs HT Hc HW. destruct (inv_Words s Hs key idx HW) as [Hidx _].
  destruct (lookup_lt_is_Some_2 (counts s) (Z.to_nat idx)) as [c Ec];
    [unfold len in *; lia|].
  exists c. split; [done|].
  assert (is_u32 c) as Hcu by (eapply Forall_lookup_1; [apply (inv_counts s Hs)|done]).
  unfold createDictionaryEntry, addWordEntry.
  destruct ((count =? 0) && (0 <? CountThreshold s)) eqn:E0.
  - rewrite bind_Val. cbn [negb]. assert (count = 0) as -> by lia.
    rewrite incrementCount_zero by done. rewrite list_insert_id by done.
    by destruct s.
  - unfold addWordEntry_merge.
    rewrite (proj2 (Z.ltb_ge 1 (CountThreshold s))) by lia.
    rewrite HW, (rd_Val _ _ c), bind_Val by (done || lia).
    rewrite wr_Val by lia. rewrite !bind_Val. done.
Qed.

Lemma helloStore_reachable : reachable helloStore.
Proof.
  apply (buildDictionary_reachable DefaultOptions helloEntries).
  - apply DefaultOptions_ok.
  - repeat constructor; by apply is_u32_dec_true.
  - vm_compute. reflexivity.
Qed.

Lemma createDictionaryEntry_known_term_witness :
  exists c, counts helloStore !! Z.to_nat 1 = Some c /\
    createDictionaryEntry helloStore (str "help") 4294967295 =
    Val (set_counts helloStore
           (<[Z.to_nat 1 := incrementCount 4294967295 c]> (counts helloStore)), false).
Proof.
  apply createDictionaryEntry_known_term.
  - apply reachable_inv, helloStore_reachable.
  - apply Z.leb_le. reflexivity.
  - by apply is_u32_dec_true.
  - vm_compute. reflexivity.
Defined.

(** X9.  Above a [CountThreshold] of 1 the counts of a term add up in
    [BelowThresholdWords] until they reach the threshold; then the
    term leaves the waiting map and becomes the last word with the
    sum as its count. *)
Theorem addWordEntry_below_threshold s key count :
  1 < CountThreshold s -> is_u32 count -> count <> 0 ->
  let total := incrementCount count (default 0 (BelowThresholdWords s !! key)) in
  addWordEntry s key count =
  if total <? CountThreshold s
  then Val (set_BelowThresholdWords s (<[key := total]> (BelowThresholdWords s)), false)
  else
    let s1 := set_BelowThresholdWords s (delete key (BelowThresholdWords s)) in
    let s2 := set_Words
                (set_counts (set_words s1 (words s ++ [key])) (counts s ++ [total]))
                (<[key := u32 (len (words s))]> (Words s)) in
    Val (if maxLength s <? len key then set_maxLength s2 (len key) else s2, true).
Proof.
  intros HT Hc H0. cbv zeta. unfold addWordEntry, addWordEntry_merge.
  replace ((count =? 0) && (0 <? CountThreshold s)) with false by lia.
  rewrite (proj2 (Z.ltb_lt 1 (CountThreshold s))) by lia.
  destruct (BelowThresholdWords s !! key) as [prev|] eqn:Eb; cbn [default id]; unfold id.
  - destruct (incrementCount count prev <? CountThreshold s) eqn:E; rewrite bind_Val.
    + done.
    + cbn [CountThreshold set_BelowThresholdWords]. rewrite E. done.
  - rewrite bind_Val, incrementCount_zero_r by done.
    destruct (count <? CountThreshold s) eqn:E; [done|].
    rewrite delete_id by done. by destruct s.
Qed.

Lemma addWordEntry_below_threshold_witness :
  addWordEntry twiceStore (str "b") 1 =
  Val (set_BelowThresholdWords twiceStore
         (<[str "b" := incrementCount 1 (default 0 (BelowThresholdWords twiceStore !! str "b"))]>
            (BelowThresholdWords twiceStore)), false).
Proof.
  apply (addWordEntry_below_threshold twiceStore (str "b") 1).
  - apply Z.ltb_lt. reflexivity.
  - by apply is_u32_dec_true.
  - discriminate.
Defined.

Lemma index_inv_NoDup s : index_inv s -> NoDup (words s).
Proof.
  intros Hinv. apply NoDup_alt. intros i j w Hi Hj.
  apply Hinv in Hi, Hj. rewrite Hi in Hj. apply (inj Some) in Hj. lia.
Qed.

Lemma createDictionaryEntry_words_grow s k count s' ok :
  createDictionaryEntry s k count = Val (s', ok) ->
  (length (words s') <= S (length (words s)))%nat /\
  (length (words s) <= length (words s'))%nat /\
  CountThreshold s' = CountThreshold s.
Proof.
  intros H. unfold createDictionaryEntry in H.
  destruct (addWordEntry s k count) as [[s1 ok1]| |] eqn:Ea; [|done..].
  cbn [mbind run_mbind run_bind] in H.
  assert ((length (words s1) <= S (length (words s)))%nat /\
          (length (words s) <= length (words s1))%nat /\
          CountThreshold s1 = CountThreshold s) as (G1 & G2 & G3).
  { clear H. unfold addWordEntry in Ea.
    destruct (_ && _); [apply Val_inj in Ea; inversion Ea; subst; lia|].
    unfold addWordEntry_merge in Ea.
    destruct (1 <? CountThreshold s).
    - destruct (BelowThresholdWords s !! k) as [prev|].
      + destruct (incrementCount count prev <? CountThreshold s) eqn:E;
          cbn [mbind run_mbind run_bind] in Ea.
        * apply Val_inj in Ea. inversion Ea; subst. cbn. lia.
        * cbn [CountThreshold set_BelowThresholdWords] in Ea. rewrite E in Ea.
          apply Val_inj in Ea. inversion Ea; subst.
          match goal with |- context [if ?b then _ else _] => destruct b end;
          cbn; rewrite ?length_app; cbn; lia.
      + cbn [mbind run_mbind run_bind] in Ea.
        destruct (count <? CountThreshold s);
          apply Val_inj in Ea; inversion Ea; subst; [cbn; lia|].
        match goal with |- context [if ?b then _ else _] => destruct b end;
          cbn; rewrite ?length_app; cbn; lia.
    - destruct (Words s !! k) as [idx|].
      + destruct (rd (counts s) idx) as [c| |]; [|done..].
        cbn [mbind run_mbind run_bind] in Ea.
        destruct (wr (counts s) idx _) as [cs| |]; [|done..].
        cbn [mbind run_mbind run_bind] in Ea.
        apply Val_inj in Ea. inversion Ea; subst. cbn. lia.
      + cbn [mbind run_mbind run_bind] in Ea.
        destruct (count <? CountThreshold s);
          apply Val_inj in Ea; inversion Ea; subst; [cbn; lia|].
        match goal with |- context [if ?b then _ else _] => destruct b end;
          cbn; rewrite ?length_app; cbn; lia. }
  destruct ok1; cbn [negb] in H; [|apply Val_inj in H; inversion H; by subst].
  destruct (addDeletesForIndex s1 k _) as [s2| |] eqn:Ed; [|done..].
  cbn [mbind run_mbind run_bind] in H. apply Val_inj in H. inversion H; subst.
  apply addDeletesForIndex_terms in Ed as (Ew & _ & Ec). rewrite Ew, Ec. done.
Qed.

Lemma foldM_addEntry_index_inv entries : forall s s',
  CountThreshold s <= 1 -> len (words s) + len entries <= 4294967296 ->
  index_inv s -> foldM addEntry s entries = Val s' -> index_inv s'.
Proof.
  induction entries as [|e entries IH]; intros s s' HT Hlen Hinv H; cbn [foldM] in H.
  - apply Val_inj in H. by subst.
  - destruct (addEntry s e) as [s1| |] eqn:E;
      cbn [mbind run_mbind run_bind] in H; [|done..].
    unfold addEntry in E.
    destruct (createDictionaryEntry s e.1 e.2) as [[s2 ok]| |] eqn:E2;
      cbn [mbind run_mbind run_bind] in E; [|done..].
    apply Val_inj in E. subst s2.
    assert (len (e :: entries) = len entries + 1) as Hl
      by (unfold len; cbn [length]; lia).
    pose proof (len_nonneg entries).
    apply createDictionaryEntry_words_grow in E2 as Hg. destruct Hg as (G1 & G2 & G3).
    apply createDictionaryEntry_index_inv in E2 as [Hinv1 _]; [|done|lia|done].
    apply (IH s1); [lia|unfold len in *; lia|done|done].
Qed.

(** X10.  With [CountThreshold <= 1] the term map inverts the term
    array after any sequence of entries, and no term is stored
    twice. *)
Theorem buildDictionary_index o entries s :
  opt_CountThreshold o <= 1 -> len entries <= 4294967296 ->
  buildDictionary o entries = Val s ->
  index_inv s /\ NoDup (words s).
Proof.
  intros HT Hlen H. unfold buildDictionary in H.
  destruct (NewSymSpell o) as [s0|] eqn:E; [|done].
  assert (CountThreshold s0 = opt_CountThreshold o /\ words s0 = []) as [E1 E2].
  { unfold NewSymSpell in E. repeat case_match; try done. by inversion E. }
  assert (index_inv s) as Hinv.
  { apply (foldM_addEntry_index_inv entries s0); [lia|rewrite E2; unfold len; cbn; unfold len in Hlen; lia| |done].
    intros i w. by rewrite E2. }
  split; [done|by apply index_inv_NoDup].
Qed.

Lemma buildDictionary_index_witness :
  index_inv helloStore /\ NoDup (words helloStore).
Proof.
  apply (buildDictionary_index DefaultOptions helloEntries).
  - apply Z.leb_le. reflexivity.
  - apply Z.leb_le. reflexivity.
  - vm_compute. reflexivity.
Defined.

(** ** The top-result cache (lru.go) *)

Lemma cache_find_None l k : cache_find l k = None <-> k ∉ key <$> l.
Proof.
  induction l as [|e l IH]; cbn [cache_find fmap list_fmap].
  - split; [intros _; apply not_elem_of_nil|done].
  - rewrite not_elem_of_cons. case_decide as Hk.
    + split; [done|]. intros [? _]. congruence.
    + destruct (cache_find l k) as [[i v]|].
      * split; [done|]. intros [_ H]. by apply IH in H.
      * split; [|done]. intros _. split; [congruence|by apply IH].
Qed.

Lemma cache_find_Some l k i v :
  cache_find l k = Some (i, v) ->
  l !! i = Some (CacheEntry k v) /\ k ∉ key <$> take i l.
Proof.
  revert i. induction l as [|e l IH]; intros i; cbn [cache_find]; [done|].
  case_decide as Hk.
  - intros [= <- <-]. split; [destruct e; cbn in *; by subst|].
    cbn. apply not_elem_of_nil.
  - destruct (cache_find l k) as [[j w]|]; [|done].
    intros [= <- <-]. destruct (IH j eq_refl) as [H1 H2].
    split; [done|]. cbn [take fmap list_fmap]. apply not_elem_of_cons.
    split; [congruence|done].
Qed.

Lemma cache_find_front l k v : cache_find (CacheEntry k v :: l) k = Some (0%nat, v).
Proof. cbn [cache_find key val]. by rewrite decide_True. Qed.

Lemma NoDup_move_front l k i v :
  NoDup (key <$> l) -> l !! i = Some (CacheEntry k v) ->
  NoDup (key <$> (CacheEntry k v :: delete i l)).
Proof.
  intros Hnd Hi. cbn [fmap list_fmap key].
  rewrite <- (take_drop_middle l i _ Hi) in Hnd.
  rewrite fmap_app in Hnd. cbn [fmap list_fmap key] in Hnd.
  apply NoDup_app in Hnd as (H1 & H2 & H3). apply NoDup_cons in H3 as [H3 H4].
  rewrite delete_take_drop, fmap_app. apply NoDup_cons. split.
  - rewrite elem_of_app. intros [H|H]; [|done].
    apply (H2 k H). apply list_elem_of_here.
  - apply NoDup_app. split; [done|]. split; [|done].
    intros x Hx Hx'. apply (H2 x Hx). by apply list_elem_of_further.
Qed.

(** X11.  A cache that can hold at least one entry answers [Get] with
    the value that [Add] has just stored for the key, and that [Get]
    changes nothing. *)
Theorem cache_Add_then_Get c k v :
  1 <= capacity c ->
  cache_Get (cache_Add c k v) k = (cache_Add c k v, Some v).
Proof.
  intros Hcap. unfold cache_Add.
  destruct (cache_find (ll c) k) as [[i w]|] eqn:E.
  - unfold cache_Get. cbn [ll capacity]. by rewrite cache_find_front.
  - cbv zeta. destruct (Z.ltb_spec (capacity c) (len (CacheEntry k v :: ll c))) as [Hlt|Hge].
    + destruct (ll c) as [|e l] eqn:El; [unfold len in Hlt; cbn in Hlt; lia|].
      unfold cache_Get. cbn [ll capacity].
      change (removelast (CacheEntry k v :: e :: l))
        with (CacheEntry k v :: removelast (e :: l)).
      by rewrite cache_find_front.
    + unfold cache_Get. cbn [ll capacity]. by rewrite cache_find_front.
Qed.

Lemma cache_Add_then_Get_witness :
  cache_Get (cache_Add (newTopCache 128) (str "a") (Item (str "b") 1 7)) (str "a") =
  (cache_Add (newTopCache 128) (str "a") (Item (str "b") 1 7), Some (Item (str "b") 1 7)).
Proof. apply cache_Add_then_Get. apply Z.leb_le. reflexivity. Defined.

Lemma removelast_take {A} (l : list A) : removelast l = take (length l - 1) l.
Proof.
  induction l as [|x l IH]; [done|]. destruct l as [|y l]; [done|].
  change (removelast (x :: y :: l)) with (x :: removelast (y :: l)).
  rewrite IH. cbn [length]. replace (S (S (length l)) - 1)%nat with (S (S (length l) - 1)) by lia.
  done.
Qed.

Lemma cache_ok_step c k v :
  cache_ok c -> cache_ok (cache_Add c k v) /\ cache_ok (cache_Get c k).1.
Proof.
  intros [Hnd Hlen]. unfold cache_Add, cache_Get, cache_ok.
  destruct (cache_find (ll c) k) as [[i w]|] eqn:E; cbn [fst ll capacity].
  - apply cache_find_Some in E as [Hi _].
    assert (len (CacheEntry k w :: delete i (ll c)) = len (ll c)) as Hl.
    { unfold len. cbn [length]. rewrite length_delete by (by eexists).
      apply lookup_lt_Some in Hi. lia. }
    assert (len (CacheEntry k v :: delete i (ll c)) = len (ll c)) as Hl' by exact Hl.
    split; (split; [|lia]).
    + pose proof (NoDup_move_front _ _ _ _ Hnd Hi) as H. exact H.
    + by apply NoDup_move_front.
  - split; [|done]. apply cache_find_None in E. cbv zeta.
    assert (NoDup (key <$> CacheEntry k v :: ll c)) as Hnd'
      by (cbn [fmap list_fmap key]; by apply NoDup_cons).
    destruct (Z.ltb_spec (capacity c) (len (CacheEntry k v :: ll c))); cbn [ll capacity].
    + rewrite removelast_take. split.
      * rewrite fmap_take. rewrite <- (take_drop (length (CacheEntry k v :: ll c) - 1) (key <$> CacheEntry k v :: ll c)) in Hnd'.
        by apply NoDup_app in Hnd' as [? _].
      * unfold len in *. rewrite length_take. cbn [length] in *. lia.
    + done.
Qed.

(** X12.  [Add] and [Get] keep the cache well formed: no key is in the
    list twice, and the list is never longer than the capacity. *)
Theorem cache_ok_preserved c k v :
  cache_ok c -> cache_ok (cache_Add c k v) /\ cache_ok (cache_Get c k).1.
Proof. apply cache_ok_step. Qed.

Lemma cache_ok_preserved_witness :
  cache_ok (cache_Add (newTopCache 128) (str "a") (Item (str "b") 1 7)) /\
  cache_ok (cache_Get (newTopCache 128) (str "a")).1.
Proof.
  apply cache_ok_preserved. split.
  - apply NoDup_nil_2.
  - apply Z.leb_le. reflexivity.
Defined.

Lemma cache_find_cons_ne e l k :
  key e <> k ->
  snd <$> cache_find (e :: l) k = snd <$> cache_find l k.
Proof.
  intros H. cbn [cache_find]. rewrite decide_False by done.
  by destruct (cache_find l k) as [[i v]|].
Qed.

Lemma cache_find_delete_ne l i e k :
  l !! i = Some e -> key e <> k ->
  snd <$> cache_find (delete i l) k = snd <$> cache_find l k.
Proof.
  revert i. induction l as [|x l IH]; intros i Hi Hk; [done|].
  destruct i as [|i]; cbn in Hi.
  - apply (inj Some) in Hi. subst x. cbn [delete list_delete].
    by rewrite cache_find_cons_ne.
  - cbn [delete list_delete]. cbn [cache_find]. case_decide; [done|].
    specialize (IH i Hi Hk).
    destruct (cache_find (delete i l) k) as [[? ?]|], (cache_find l k) as [[? ?]|];
      cbn in *; congruence.
Qed.

Lemma cache_find_snoc_ne l e k :
  key e <> k ->
  snd <$> cache_find (l ++ [e]) k = snd <$> cache_find l k.
Proof.
  intros Hk. induction l as [|x l IH]; cbn [app].
  - by rewrite cache_find_cons_ne.
  - cbn [cache_find]. case_decide; [done|].
    destruct (cache_find (l ++ [e]) k) as [[? ?]|], (cache_find l k) as [[? ?]|];
      cbn in *; congruence.
Qed.

Lemma removelast_snoc {A} (l : list A) x : removelast (l ++ [x]) = l.
Proof. by rewrite removelast_last. Qed.

(** X13.  [Add] leaves the values of all other keys alone, with one
    exception: when a new key enters a full cache, the key at the back
    of the recency list, and no other, is dropped. *)
Theorem cache_Add_other_keys c k v k' :
  cache_ok c -> 1 <= capacity c -> k' <> k ->
  snd <$> cache_find (ll (cache_Add c k v)) k' =
  if decide (cache_find (ll c) k = None /\ len (ll c) = capacity c /\
             key <$> last (ll c) = Some k')
  then None
  else snd <$> cache_find (ll c) k'.
Proof.
  intros [Hnd Hlen] Hcap Hne. unfold cache_Add.
  destruct (cache_find (ll c) k) as [[i w]|] eqn:E; cbn [ll].
  - rewrite decide_False by (by intros [? _]).
    apply cache_find_Some in E as [Hi _].
    rewrite cache_find_cons_ne by (cbn; congruence).
    by apply (cache_find_delete_ne _ _ _ _ Hi).
  - cbv zeta.
    destruct (Z.ltb_spec (capacity c) (len (CacheEntry k v :: ll c))) as [Hlt|Hge];
      cbn [ll].
    + assert (len (ll c) = capacity c) as Hfull
        by (unfold len in *; cbn [length] in Hlt; lia).
      destruct (ll c) as [|x l] eqn:El using rev_ind;
        [unfold len in Hfull; cbn in Hfull; lia|]. clear IHl.
      rewrite last_snoc. cbn [fmap option_fmap option_map].
      rewrite app_comm_cons, removelast_snoc.
      rewrite cache_find_cons_ne by (cbn; congruence).
      rewrite fmap_app in Hnd. apply NoDup_app in Hnd as (_ & Hd & _).
      destruct (decide (key x = k')) as [Hx|Hx].
      * rewrite decide_True by (split; [done|split; [done|by f_equal]]).
        assert (cache_find l k' = None) as ->; [|done].
        apply cache_find_None. intros Hin. apply (Hd k' Hin). subst k'.
        cbn. apply list_elem_of_here.
      * rewrite decide_False by (intros (_ & _ & [=]); done).
        by rewrite cache_find_snoc_ne.
    + rewrite decide_False.
      * by rewrite cache_find_cons_ne by (cbn; congruence).
      * intros (_ & Hfull & _). unfold len in *. cbn [length] in Hge. lia.
Qed.

Lemma cache_Add_other_keys_witness :
  let c := cache_Add (cache_Add (newTopCache 2) (str "a") (Item (str "a") 0 1))
             (str "b") (Item (str "b") 0 2) in
  snd <$> cache_find (ll (cache_Add c (str "c") (Item (str "c") 0 3))) (str "a") =
  if decide (cache_find (ll c) (str "c") = None /\ len (ll c) = capacity c /\
             key <$> last (ll c) = Some (str "a"))
  then None
  else snd <$> cache_find (ll c) (str "a").
Proof.
  intros c. apply (cache_Add_other_keys c (str "c") (Item (str "c") 0 3) (str "a")).
  - split.
    + apply (bool_decide_unpack _). vm_compute. exact I.
    + apply Z.leb_le. reflexivity.
  - apply Z.leb_le. reflexivity.
  - discriminate.
Defined.

(** ** What [Lookup] returns *)

Lemma updateSuggestion_sframe cp sug : sframe (updateSuggestion cp sug) = sframe cp.
Proof. unfold updateSuggestion. by destruct (unicode cp). Qed.

Lemma updateMinDistance_sframe s k cp : sframe (updateMinDistance s k cp) = sframe cp.
Proof. unfold updateMinDistance. by destruct (_ =? _). Qed.

Lemma checkFirstRuneDistance_sframe cp sug cp' b :
  checkFirstRuneDistance cp sug = Val (cp', b) -> sframe cp' = sframe cp.
Proof.
  unfold checkFirstRuneDistance. intros H.
  destruct (if unicode cp then _ else _) as [found| |]; [|done..].
  cbn [mbind run_mbind run_bind] in H.
  destruct (_ <? _); [apply Val_inj in H; by inversion H|].
  destruct (bool_decide _); apply Val_inj in H; by inversion H.
Qed.

Lemma checkDistanceToSkip_sframe s k cp sug cp' b :
  checkDistanceToSkip s k cp sug = Val (cp', b) -> sframe cp' = sframe cp.
Proof.
  unfold checkDistanceToSkip. intros H.
  destruct (if _ =? _ then _ else _) as [skip| |]; [|done..].
  cbn [mbind run_mbind run_bind] in H.
  destruct skip; [apply Val_inj in H; by inversion H|].
  destruct (bool_decide _); [apply Val_inj in H; by inversion H|].
  destruct (distanceCompare _ _ _ _) as [d| |]; [|done..].
  cbn [mbind run_mbind run_bind] in H.
  apply Val_inj in H. by inversion H.
Qed.

(** A turn of the loop over the postings either leaves the result
    alone or ends in [updateSuggestions], for a word of the store
    and a distance within the current bound. *)
Lemma processPosting_step s k cand i cp cp' :
  processPosting s k cand i cp = Val cp' ->
  sframe cp' = sframe cp \/
  exists cp0 idx sug,
    sframe cp0 = sframe cp /\ distance cp0 <= maxEditDistance2 cp0 /\
    rd (words s) idx = Val sug /\ updateSuggestions s idx sug cp0 = Val cp'.
Proof.
  intros H. unfold processPosting in H.
  destruct (rd (DeletesData s) i) as [idx| |]; [|done..].
  cbn [mbind run_mbind run_bind] in H.
  destruct (rd (words s) idx) as [sug| |] eqn:Ew; [|done..].
  cbn [mbind run_mbind run_bind] in H.
  destruct (bool_decide _); [apply Val_inj in H; subst; by left|].
  destruct (checkSuggestionToSkip _ _ _ _).
  { apply Val_inj in H. subst. left. apply updateSuggestion_sframe. }
  set (cp1 := resetDistance (updateSuggestion cp sug)) in H.
  assert (sframe cp1 = sframe cp) as E1
    by (subst cp1; etrans; [|apply (updateSuggestion_sframe cp sug)]; done).
  destruct (if candidateLen cp1 =? 0 then _ else _) as [[cp2 skip]| |] eqn:E2;
    [|done..].
  cbn [mbind run_mbind run_bind] in H.
  assert (sframe cp2 = sframe cp1) as E3.
  { destruct (candidateLen cp1 =? 0).
    - destruct (_ <? _); [apply Val_inj in E2; by inversion E2|].
      destruct (bool_decide _); apply Val_inj in E2; by inversion E2.
    - destruct (suggestionLen cp1 =? 1).
      + by apply checkFirstRuneDistance_sframe in E2.
      + apply checkDistanceToSkip_sframe in E2.
        by rewrite updateMinDistance_sframe in E2. }
  destruct skip; [apply Val_inj in H; subst; left; congruence|].
  destruct (Z.leb_spec (distance cp2) (maxEditDistance2 cp2));
    [|apply Val_inj in H; subst; left; congruence].
  right. exists cp2, idx, sug. repeat split; [congruence|done|done|done].
Qed.

Lemma enqueueDelete_sframe cp d : sframe (enqueueDelete cp d) = sframe cp.
Proof. unfold enqueueDelete. by destruct (bool_decide _). Qed.

Lemma addEditDistance_sframe cand cp cp' :
  addEditDistance cand cp = Val cp' -> sframe cp' = sframe cp.
Proof.
  unfold addEditDistance. intros H.
  destruct (negb (unicode cp));
    (eapply (for_loop_preserves (fun c => sframe c = sframe cp));
      [|reflexivity|exact H]);
    intros j c c' Hc Hb; cbv beta in Hb;
    (match type of Hb with context [slice ?l ?x ?y] =>
       destruct (slice l x y) as [pre| |] end; [|done..]);
    cbn [mbind run_mbind run_bind] in Hb;
    (match type of Hb with context [slice_from ?l ?x] =>
       destruct (slice_from l x) as [post| |] end; [|done..]);
    cbn [mbind run_mbind run_bind] in Hb;
    apply Val_inj in Hb; subst c'; by rewrite enqueueDelete_sframe.
Qed.

Section SearchInvariant.
Variable s : SymSpell.
Variable I : list SuggestItem * Z * Verbosity -> Prop.
Hypothesis I_update : forall cp idx sug cp',
  I (sframe cp) -> distance cp <= maxEditDistance2 cp ->
  rd (words s) idx = Val sug -> updateSuggestions s idx sug cp = Val cp' ->
  I (sframe cp').

Lemma processOne_sinv k cp o :
  I (sframe cp) -> processOne s k cp = Val o ->
  match o with inl cp' | inr cp' => I (sframe cp') end.
Proof.
  intros Hcp H. unfold processOne in H.
  destruct (preProcessCandidate cp) as [[cp1 cand]| |] eqn:E1; [|done..].
  cbn [mbind run_mbind run_bind] in H.
  assert (sframe cp1 = sframe cp) as S1.
  { unfold preProcessCandidate in E1.
    destruct (rd _ _) as [c| |]; [|done..].
    cbn [mbind run_mbind run_bind] in E1. apply Val_inj in E1.
    inversion E1. by destruct (unicode _). }
  assert (I (sframe cp1)) as Hcp1 by (by rewrite S1).
  destruct (_ <? _).
  { destruct (bool_decide _); apply Val_inj in H; by subst. }
  destruct (match DeletesIdx s !! cand with Some _ => _ | None => _ end)
    as [cp2| |] eqn:E2; [|done..].
  cbn [mbind run_mbind run_bind] in H.
  assert (I (sframe cp2)) as Hcp2.
  { destruct (DeletesIdx s !! cand); [|apply Val_inj in E2; by subst].
    eapply (for_loop_preserves (fun c => I (sframe c))); [|exact Hcp1|exact E2].
    intros j c c' Hc Hb.
    apply processPosting_step in Hb as [->|(cp0 & idx & sug & E & Hd & Hw & Hu)];
      [done|].
    eapply I_update; [|done..]. by rewrite E. }
  destruct (_ && _); [|apply Val_inj in H; by subst].
  destruct (_ && _); [apply Val_inj in H; by subst|].
  destruct (addEditDistance cand cp2) as [cp3| |] eqn:E3; [|done..].
  cbn [mbind run_mbind run_bind] in H.
  apply Val_inj in H. subst.
  by rewrite (addEditDistance_sframe _ _ _ E3).
Qed.

Lemma processCandidate_sinv fuel k cp cp' :
  I (sframe cp) -> processCandidate fuel s k cp = Val cp' -> I (sframe cp').
Proof.
  revert cp. induction fuel as [|fuel IH]; intros cp Hcp H; cbn in H.
  - destruct (_ <? _); [done|]. apply Val_inj in H. by subst.
  - destruct (_ <? _); [|apply Val_inj in H; by subst].
    destruct (processOne s k cp) as [[cp1|cp1]| |] eqn:E; [| |done..];
      apply processOne_sinv in E; try done.
    + by apply IH in H.
    + cbn in H. apply Val_inj in H. by subst.
Qed.
End SearchInvariant.

(** The ways [Lookup] comes to its list: from the cache; empty,
    because the phrase is too long or nothing matches at distance 0;
    the exact match alone; or the search, the frequency check and the
    sort. *)
Lemma Lookup_search fuel s p v k s' l :
  Lookup fuel s p v k = Val (s', Suggestions l) ->
  (v = Top /\ exists i item, cache_find (ll (cache s)) p = Some (i, item) /\ l = [item]) \/
  l = [] \/
  (exists idx c, Words s !! p = Some idx /\ rd (counts s) idx = Val c /\
     l = [Item p 0 c]) \/
  (exists c cp0 cp1 ex,
     ((ex = None /\ Words s !! p = None) \/
      (exists idx cnt, ex = Some (Item p 0 cnt) /\ Words s !! p = Some idx /\
         rd (counts s) idx = Val cnt)) /\
     sframe cp0 = (option_list ex, k, v) /\
     processCandidate fuel (set_cache s c) k cp0 = Val cp1 /\
     l = suggestions (sortCandidate
           (finalizeWithFrequencyCheck (set_cache s c) cp1 ex))).
Proof.
  unfold Lookup. intros H.
  destruct (MaxDictionaryEditDistance s <? k); [done|].
  destruct (if decide (v = Top) then _ else _) as [c [item|]] eqn:Eg.
  { left. destruct (decide (v = Top)) as [->|]; [|done]. split; [done|].
    unfold cache_Get in Eg.
    destruct (cache_find (ll (cache s)) p) as [[i w]|]; [|done].
    inversion Eg; subst. exists i, item. split; [done|].
    apply Val_inj in H. by inversion H. }
  right. clear Eg. cbv zeta in H.
  destruct (maxLength (set_cache s c) <? _).
  { left. apply Val_inj in H. by inversion H. }
  destruct (checkExactMatch _ p v _) as [[cp e]| |] eqn:Ee; [|done..].
  cbn [mbind run_mbind run_bind] in H.
  apply checkExactMatch_fields in Ee as Ef.
  apply checkExactMatch_suggestions in Ee
    as [(HW & He & Hsug)|(idx & cnt & HW & Hc & He & Hsug & _)];
    cbn [Words counts set_cache suggestions acquireCandidateProcessor app] in HW, Hsug.
  - destruct (shouldStop e).
    { left. apply Val_inj in H. inversion H. congruence. }
    destruct (k =? 0).
    { left. apply Val_inj in H. inversion H. congruence. }
    destruct (getOriginPrefix _ _) as [pre| |]; [|done..].
    cbn [mbind run_mbind run_bind] in H.
    destruct (processCandidate _ _ _ _) as [cp1| |] eqn:Ep; [|done..].
    cbn [mbind run_mbind run_bind] in H.
    right. right. eexists c, _, cp1, None. split; [left; done|].
    split; [|split; [exact Ep|]].
    + unfold sframe. cbn. rewrite Hsug. rewrite Ef. done.
    + rewrite He in H.
      destruct v, (suggestions (sortCandidate _)); apply Val_inj in H; by inversion H.
  - cbn in Hc.
    destruct (shouldStop e).
    { right. left. exists idx, cnt. apply Val_inj in H. inversion H.
      split; [done|]. split; [done|]. congruence. }
    destruct (k =? 0).
    { right. left. exists idx, cnt. apply Val_inj in H. inversion H.
      split; [done|]. split; [done|]. congruence. }
    destruct (getOriginPrefix _ _) as [pre| |]; [|done..].
    cbn [mbind run_mbind run_bind] in H.
    destruct (processCandidate _ _ _ _) as [cp1| |] eqn:Ep; [|done..].
    cbn [mbind run_mbind run_bind] in H.
    right. right. eexists c, _, cp1, (Some (Item p 0 cnt)).
    split; [right; by exists idx, cnt|].
    split; [|split; [exact Ep|]].
    + unfold sframe. cbn. rewrite Hsug. rewrite Ef. done.
    + rewrite He in H.
      destruct v, (suggestions (sortCandidate _)); apply Val_inj in H; by inversion H.
Qed.

Lemma finalize_length s cp e :
  (length (suggestions (finalizeWithFrequencyCheck s cp e))
     <= length (suggestions cp))%nat.
Proof.
  unfold finalizeWithFrequencyCheck. destruct e as [e|]; [|done].
  destruct (_ <=? _); [done|]. destruct (foldl _ _ _); [|done].
  cbn. apply length_filter.
Qed.

Lemma updateSuggestions_Top s idx sug cp cp' :
  verbosity cp = Top -> (length (suggestions cp) <= 1)%nat ->
  updateSuggestions s idx sug cp = Val cp' ->
  verbosity cp' = Top /\ (length (suggestions cp') <= 1)%nat.
Proof.
  intros Hv Hl H. unfold updateSuggestions in H.
  destruct (rd (counts s) idx) as [c| |]; [|done..].
  cbn [mbind run_mbind run_bind] in H.
  destruct (Z.ltb_spec 0 (len (suggestions cp))) as [Hpos|Hpos].
  - unfold updateBestSuggestion in H. rewrite Hv in H.
    destruct (if distance cp <? _ then _ else _) as [better| |]; [|done..].
    cbn [mbind run_mbind run_bind] in H.
    destruct better.
    + destruct (wr _ _ _) as [l'| |] eqn:Ew; [|done..].
      cbn [mbind run_mbind run_bind] in H. apply Val_inj in H. subst cp'.
      unfold wr in Ew. case_decide; [|done]. apply Val_inj in Ew. subst l'.
      cbn. by rewrite length_insert.
    + cbn [mbind run_mbind run_bind] in H. apply Val_inj in H. by subst cp'.
  - cbn [mbind run_mbind run_bind] in H. rewrite Hv in H.
    rewrite bool_decide_true in H by done.
    apply Val_inj in H. subst cp'. cbn.
    rewrite length_app. unfold len in Hpos. cbn. split; [done|lia].
Qed.

Lemma Lookup_Top_length fuel s p k s' l :
  Lookup fuel s p Top k = Val (s', Suggestions l) -> (length l <= 1)%nat.
Proof.
  intros H.
  apply Lookup_search in H
    as [(_ & i & item & _ & ->)|[->|[(idx & c & _ & _ & ->)|
        (c & cp0 & cp1 & ex & Hex & Hf & Hp & ->)]]]; cbn; try lia.
  rewrite sortCandidate_perm.
  etrans; [apply finalize_length|].
  apply (processCandidate_sinv (set_cache s c)
           (fun f => f.2 = Top /\ (length f.1.1 <= 1)%nat)) in Hp as [_ Hp]; [done| |].
  - intros cp idx sug cp' [Hv Hl] _ _ Hu. cbn in *.
    by apply (updateSuggestions_Top _ _ _ _ _ Hv Hl) in Hu.
  - rewrite Hf. cbn. split; [done|].
    destruct Hex as [[-> _]|(idx & cnt & -> & _)]; cbn; lia.
Qed.

(** X14.  With verbosity [Top], [Lookup] returns at most one
    suggestion. *)
Theorem Lookup_Top_at_most_one fuel s p k s' l :
  Lookup fuel s p Top k = Val (s', Suggestions l) -> (length l <= 1)%nat.
Proof. apply Lookup_Top_length. Qed.

Lemma Lookup_Top_at_most_one_witness :
  (length [Item (str "hello") 2 500] <= 1)%nat.
Proof.
  apply (Lookup_Top_at_most_one 100 helloStore (str "hexxo") 2 cachedStore).
  vm_compute. reflexivity.
Defined.

Lemma updateSuggestions_Closest s idx sug cp cp' :
  verbosity cp = Closest ->
  Forall (fun y => Distance_ y = maxEditDistance2 cp) (suggestions cp) ->
  distance cp <= maxEditDistance2 cp ->
  updateSuggestions s idx sug cp = Val cp' ->
  verbosity cp' = Closest /\
  Forall (fun y => Distance_ y = maxEditDistance2 cp') (suggestions cp').
Proof.
  intros Hv Hl Hd H. unfold updateSuggestions in H.
  destruct (rd (counts s) idx) as [c| |]; [|done..].
  cbn [mbind run_mbind run_bind] in H.
  destruct (0 <? len (suggestions cp)) eqn:Epos.
  - unfold updateBestSuggestion in H. rewrite Hv in H.
    destruct (Z.ltb_spec (distance cp) (maxEditDistance2 cp));
      cbn [mbind run_mbind run_bind] in H;
      cbn [verbosity set_suggestions] in H; rewrite Hv in H;
      rewrite bool_decide_true in H by done;
      apply Val_inj in H; subst cp'; cbn; (split; [done|]).
    + by apply Forall_singleton.
    + apply Forall_app. split; [|by apply Forall_singleton].
      eapply Forall_impl; [exact Hl|]. cbn. intros y ->. lia.
  - cbn [mbind run_mbind run_bind] in H. rewrite Hv in H.
    rewrite bool_decide_true in H by done.
    apply Val_inj in H. subst cp'. cbn. split; [done|].
    destruct (suggestions cp); [by apply Forall_singleton|].
    apply Z.ltb_ge in Epos. unfold len in Epos. cbn [length] in Epos. lia.
Qed.

(** X15.  With verbosity [Closest] and a phrase that is not itself a
    word of the store, all suggestions that [Lookup] returns are at
    the same distance. *)
Theorem Lookup_Closest_one_distance fuel s p k s' l x y :
  Words s !! p = None ->
  Lookup fuel s p Closest k = Val (s', Suggestions l) ->
  x ∈ l -> y ∈ l -> Distance_ x = Distance_ y.
Proof.
  intros HW H Hx Hy.
  apply Lookup_search in H
    as [(? & _)|[->|[(idx & c & ? & _)|
        (c & cp0 & cp1 & ex & Hex & Hf & Hp & ->)]]];
    [done|by apply elem_of_nil in Hx|congruence|].
  destruct Hex as [[-> _]|(idx & cnt & _ & ? & _)]; [|congruence].
  rewrite sortCandidate_perm in Hx, Hy. cbn [finalizeWithFrequencyCheck] in Hx, Hy.
  apply (processCandidate_sinv (set_cache s c)
           (fun f => f.2 = Closest /\ Forall (fun z => Distance_ z = f.1.2) f.1.1))
    in Hp as [_ Hp].
  - rewrite Forall_forall in Hp. cbn in Hp. rewrite (Hp x Hx), (Hp y Hy). done.
  - intros cp idx sug cp' [Hv Hl] Hd _ Hu. cbn in *.
    by apply (updateSuggestions_Closest _ _ _ _ _ Hv Hl Hd) in Hu.
  - rewrite Hf. cbn. done.
Qed.

Lemma Lookup_Closest_one_distance_witness :
  Distance_ (Item (str "hello") 1 500) = Distance_ (Item (str "help") 1 400).
Proof.
  apply (Lookup_Closest_one_distance 100 helloStore (str "helo") 2 helloStore
           [Item (str "hello") 1 500; Item (str "help") 1 400]).
  - vm_compute. reflexivity.
  - vm_compute. reflexivity.
  - apply list_elem_of_here.
  - apply list_elem_of_further, list_elem_of_here.
Defined.

Lemma updateSuggestions_from_store s0 s k idx sug cp cp' :
  words s = words s0 -> counts s = counts s0 ->
  maxEditDistance2 cp <= k -> Forall (from_store s0 k) (suggestions cp) ->
  distance cp <= maxEditDistance2 cp ->
  rd (words s) idx = Val sug ->
  updateSuggestions s idx sug cp = Val cp' ->
  maxEditDistance2 cp' <= k /\ Forall (from_store s0 k) (suggestions cp').
Proof.
  intros Ew Ec Hk Hl Hd Hw H. unfold updateSuggestions in H.
  destruct (rd (counts s) idx) as [c| |] eqn:Ecs; [|done..].
  cbn [mbind run_mbind run_bind] in H.
  assert (from_store s0 k (Item sug (distance cp) c)) as Hitem.
  { split; [cbn; lia|]. exists (Z.to_nat idx). cbn.
    apply rd_inv in Hw as [_ Hw]. apply rd_inv in Ecs as [_ Ecs].
    by rewrite <- Ew, <- Ec. }
  assert (forall cp1 : candidateProcessor,
            maxEditDistance2 cp1 <= k -> distance cp1 = distance cp ->
            maxEditDistance2
              (if bool_decide (verbosity cp1 <> All)
               then set_maxEditDistance2 cp1 (distance cp1) else cp1) <= k) as Hm.
  { intros cp1 H1 H2. destruct (bool_decide _); cbn; lia. }
  assert (forall cp1 : candidateProcessor,
            suggestions
              (if bool_decide (verbosity cp1 <> All)
               then set_maxEditDistance2 cp1 (distance cp1) else cp1)
            = suggestions cp1 /\
            distance
              (if bool_decide (verbosity cp1 <> All)
               then set_maxEditDistance2 cp1 (distance cp1) else cp1)
            = distance cp1) as Hs.
  { intros cp1. by destruct (bool_decide _). }
  destruct (0 <? len (suggestions cp)).
  - unfold updateBestSuggestion in H. destruct (verbosity cp) eqn:Hv.
    + destruct (if distance cp <? _ then _ else _) as [better| |]; [|done..].
      cbn [mbind run_mbind run_bind] in H.
      destruct better.
      * destruct (wr _ _ _) as [l'| |] eqn:Ewr; [|done..].
        cbn [mbind run_mbind run_bind] in H. apply Val_inj in H. subst cp'.
        unfold wr in Ewr. case_decide; [|done]. apply Val_inj in Ewr. subst l'.
        cbn. split; [lia|]. by apply Forall_insert.
      * cbn [mbind run_mbind run_bind] in H. apply Val_inj in H. by subst cp'.
    + destruct (distance cp <? maxEditDistance2 cp);
        cbn [mbind run_mbind run_bind] in H; apply Val_inj in H; subst cp';
        cbn [suggestions set_suggestions maxEditDistance2];
        (split; [by apply Hm|]);
        destruct (Hs (set_suggestions cp [])) as [Hs1 Hs2];
        destruct (Hs cp) as [Hs3 Hs4];
        rewrite ?Hs1, ?Hs2, ?Hs3, ?Hs4; cbn;
        rewrite ?Forall_app, ?Forall_singleton; done.
    + cbn [mbind run_mbind run_bind] in H. apply Val_inj in H. subst cp'.
      cbn [suggestions set_suggestions maxEditDistance2].
      split; [by apply Hm|].
      destruct (Hs cp) as [Hs3 Hs4]. rewrite Hs3, Hs4.
      apply Forall_app. split; [done|by apply Forall_singleton].
  - cbn [mbind run_mbind run_bind] in H. apply Val_inj in H. subst cp'.
    cbn [suggestions set_suggestions maxEditDistance2].
    split; [by apply Hm|].
    destruct (Hs cp) as [Hs3 Hs4]. rewrite Hs3, Hs4.
    apply Forall_app. split; [done|by apply Forall_singleton].
Qed.

Lemma finalize_sublist s cp e :
  suggestions (finalizeWithFrequencyCheck s cp e) `sublist_of` suggestions cp.
Proof.
  unfold finalizeWithFrequencyCheck. destruct e as [e|]; [|done].
  destruct (_ <=? _); [done|]. destruct (foldl _ _ _); [|done].
  cbn. apply sublist_filter.
Qed.

(** X16.  Every suggestion that the search of [Lookup] returns for a
    bound [k >= 0] is a word of the store with the count the store
    has for it, at a distance of at most [k]. *)
Theorem Lookup_from_store fuel s p v k s' l :
  Words_sound s -> 0 <= k ->
  (v = Top -> cache_find (ll (cache s)) p = None) ->
  Lookup fuel s p v k = Val (s', Suggestions l) ->
  Forall (from_store s k) l.
Proof.
  intros HW Hk Hmiss H.
  assert (forall idx c, Words s !! p = Some idx -> rd (counts s) idx = Val c ->
            from_store s k (Item p 0 c)) as Hexact.
  { intros idx c HWp Hc. split; [done|]. exists (Z.to_nat idx). cbn.
    destruct (HW p idx HWp) as [_ Hw]. apply rd_inv in Hc as [_ Hc]. done. }
  apply Lookup_search in H
    as [(Hv & i & item & Hc & _)|[->|[(idx & c & HWp & Hc & ->)|
        (c & cp0 & cp1 & ex & Hex & Hf & Hp & ->)]]].
  - rewrite (Hmiss Hv) in Hc. done.
  - done.
  - apply Forall_singleton. by eapply Hexact.
  - rewrite sortCandidate_perm.
    eapply sublist_Forall; [apply finalize_sublist|].
    apply (processCandidate_sinv (set_cache s c)
             (fun f => f.1.2 <= k /\ Forall (from_store s k) f.1.1))
      in Hp as [_ Hp]; [done| |].
    + intros cp idx sug cp' [Hm Hl] Hd Hw Hu. cbn in *.
      by eapply (updateSuggestions_from_store s (set_cache s c)).
    + rewrite Hf. cbn. split; [lia|].
      destruct Hex as [[-> _]|(idx & cnt & -> & HWp & Hc)]; cbn; [done|].
      apply Forall_singleton. by eapply Hexact.
Qed.

Lemma addWordEntry_cases s k count s' ok :
  addWordEntry s k count = Val (s', ok) ->
  (ok = false /\ words s' = words s /\ Words s' = Words s) \/
  (ok = true /\ words s' = words s ++ [k] /\
   Words s' = <[k := u32 (len (words s))]> (Words s)).
Proof.
  intros H. unfold addWordEntry in H.
  destruct (_ && _); [apply Val_inj in H; inversion H; subst; by left|].
  unfold addWordEntry_merge in H.
  destruct (1 <? CountThreshold s).
  - destruct (BelowThresholdWords s !! k) as [prev|].
    + destruct (incrementCount count prev <? CountThreshold s) eqn:E;
        cbn [mbind run_mbind run_bind] in H.
      * apply Val_inj in H. inversion H; subst. by left.
      * cbn [CountThreshold set_BelowThresholdWords] in H. rewrite E in H.
        apply Val_inj in H. inversion H; subst. right.
        match goal with |- context [if ?b then _ else _] => destruct b end; done.
    + cbn [mbind run_mbind run_bind] in H.
      destruct (count <? CountThreshold s);
        apply Val_inj in H; inversion H; subst; [by left|]. right.
      match goal with |- context [if ?b then _ else _] => destruct b end; done.
  - destruct (Words s !! k) as [idx|].
    + destruct (rd (counts s) idx) as [c| |]; [|done..].
      cbn [mbind run_mbind run_bind] in H.
      destruct (wr (counts s) idx _) as [cs| |]; [|done..].
      cbn [mbind run_mbind run_bind] in H.
      apply Val_inj in H. inversion H; subst. by left.
    + cbn [mbind run_mbind run_bind] in H.
      destruct (count <? CountThreshold s);
        apply Val_inj in H; inversion H; subst; [by left|]. right.
      match goal with |- context [if ?b then _ else _] => destruct b end; done.
Qed.

Lemma addWordEntry_Words_sound s k count s' ok :
  len (words s) < 4294967296 -> Words_sound s ->
  addWordEntry s k count = Val (s', ok) -> Words_sound s'.
Proof.
  intros Hlen Hinv H.
  apply addWordEntry_cases in H as [(_ & E1 & E2)|(_ & E1 & E2)];
    intros w i; rewrite E1, E2; [apply Hinv|].
  pose proof (len_nonneg (words s)).
  rewrite u32_id by (unfold is_u32, maxUint32; lia).
  destruct (decide (w = k)) as [->|Hne].
  - rewrite lookup_insert_eq. intros [= <-]. split; [done|].
    unfold len. rewrite Nat2Z.id.
    by rewrite lookup_app_r, Nat.sub_diag by lia.
  - rewrite lookup_insert_ne by done. intros Hw.
    destruct (Hinv w i Hw) as [Hi Hw']. split; [done|].
    by apply lookup_app_l_Some.
Qed.

Lemma createDictionaryEntry_Words_sound s k count s' ok :
  len (words s) < 4294967296 -> Words_sound s ->
  createDictionaryEntry s k count = Val (s', ok) -> Words_sound s'.
Proof.
  intros Hlen Hinv H. unfold createDictionaryEntry in H.
  destruct (addWordEntry s k count) as [[s1 ok1]| |] eqn:Ea; [|done..].
  cbn [mbind run_mbind run_bind] in H.
  apply addWordEntry_Words_sound in Ea; [|done..].
  destruct ok1; cbn [negb] in H; [|apply Val_inj in H; inversion H; by subst].
  destruct (addDeletesForIndex s1 k _) as [s2| |] eqn:Ed; [|done..].
  cbn [mbind run_mbind run_bind] in H. apply Val_inj in H. inversion H; subst.
  apply addDeletesForIndex_terms in Ed as (Ew & EW & _).
  intros w i. rewrite Ew, EW. apply Ea.
Qed.

Lemma buildDictionary_Words_sound o entries s :
  len entries <= 4294967296 ->
  buildDictionary o entries = Val s -> Words_sound s.
Proof.
  intros Hlen H. unfold buildDictionary in H.
  destruct (NewSymSpell o) as [s0|] eqn:E; [|done].
  assert (Words s0 = ∅ /\ words s0 = []) as [E1 E2].
  { unfold NewSymSpell in E. repeat case_match; try done. by inversion E. }
  assert (Words_sound s0) as H0 by (intros w i; by rewrite E1, lookup_empty).
  assert (len (words s0) + len entries <= 4294967296) as Hl
    by (rewrite E2; unfold len in *; cbn; lia).
  clear E E1 E2. revert s0 H0 Hl H.
  induction entries as [|e entries IH]; intros s0 H0 Hl H; cbn [foldM] in H.
  - apply Val_inj in H. by subst.
  - destruct (addEntry s0 e) as [s1| |] eqn:E;
      cbn [mbind run_mbind run_bind] in H; [|done..].
    unfold addEntry in E.
    destruct (createDictionaryEntry s0 e.1 e.2) as [[s2 ok]| |] eqn:E2;
      cbn [mbind run_mbind run_bind] in E; [|done..].
    apply Val_inj in E. subst s2.
    assert (len (e :: entries) = len entries + 1) as Hl1
      by (unfold len; cbn [length]; lia).
    pose proof (len_nonneg entries).
    apply createDictionaryEntry_words_grow in E2 as Hg. destruct Hg as (G1 & G2 & _).
    apply createDictionaryEntry_Words_sound in E2; [|lia|done].
    apply (IH ltac:(unfold len in *; cbn [length] in *; lia) s1);
      [done|unfold len in *; lia|done].
Qed.

Lemma Lookup_from_store_witness :
  Forall (from_store helloStore 2)
    [Item (str "hello") 1 500; Item (str "help") 1 400].
Proof.
  apply (Lookup_from_store 100 helloStore (str "helo") All 2 helloStore).
  - apply (buildDictionary_Words_sound DefaultOptions helloEntries).
    + apply Z.leb_le. reflexivity.
    + vm_compute. reflexivity.
  - lia.
  - discriminate.
  - vm_compute. reflexivity.
Defined.

(** X17.  [Lookup] is read-only on the dictionary: of the store it
    changes at most the cache, with verbosity [Closest] or [All] not
    even that, and a well-formed cache stays well formed. *)
Theorem Lookup_only_changes_cache fuel s p v k s' r :
  Lookup fuel s p v k = Val (s', r) ->
  s' = set_cache s (cache s') /\
  (v <> Top -> s' = s) /\
  (cache_ok (cache s) -> cache_ok (cache s')).
Proof.
  intros H. split; [by eapply Lookup_store|].
  unfold Lookup in H.
  destruct (MaxDictionaryEditDistance s <? k); [apply Val_inj in H; inversion H; by subst|].
  destruct (decide (v = Top)) as [->|Hv].
  - split; [done|]. intros Hok.
    pose proof (proj2 (cache_ok_step (cache s) p (Item [] 0 0) Hok)) as Hget.
    destruct (cache_Get (cache s) p) as [c [item|]].
    + apply Val_inj in H. inversion H; subst. done.
    + cbv zeta in H. cbn [fst] in Hget.
      destruct (_ <? _); [apply Val_inj in H; inversion H; by subst|].
      destruct (checkExactMatch _ _ _ _) as [[cp e]| |]; [|done..].
      cbn [mbind run_mbind run_bind] in H.
      destruct (shouldStop e); [apply Val_inj in H; inversion H; by subst|].
      destruct (_ =? _); [apply Val_inj in H; inversion H; by subst|].
      destruct (getOriginPrefix _ _) as [pre| |]; [|done..].
      cbn [mbind run_mbind run_bind] in H.
      destruct (processCandidate _ _ _ _) as [cp1| |]; [|done..].
      cbn [mbind run_mbind run_bind] in H.
      destruct (suggestions (sortCandidate _)) as [|r0 l];
        apply Val_inj in H; inversion H; subst; [done|].
      cbn. by apply cache_ok_step.
  - assert (s' = s) as ->; [|done].
    rewrite set_cache_id in H. cbv zeta in H.
    destruct (_ <? _); [apply Val_inj in H; inversion H; by subst|].
    destruct (checkExactMatch _ _ _ _) as [[cp e]| |]; [|done..].
    cbn [mbind run_mbind run_bind] in H.
    destruct (shouldStop e); [apply Val_inj in H; inversion H; by subst|].
    destruct (_ =? _); [apply Val_inj in H; inversion H; by subst|].
    destruct (getOriginPrefix _ _) as [pre| |]; [|done..].
    cbn [mbind run_mbind run_bind] in H.
    destruct (processCandidate _ _ _ _) as [cp1| |]; [|done..].
    cbn [mbind run_mbind run_bind] in H.
    destruct v, (suggestions (sortCandidate _));
      apply Val_inj in H; inversion H; by subst.
Qed.

Lemma Lookup_only_changes_cache_witness :
  cachedStore = set_cache helloStore (cache cachedStore) /\
  (Top <> Top -> cachedStore = helloStore) /\
  (cache_ok (cache helloStore) -> cache_ok (cache cachedStore)).
Proof.
  apply (Lookup_only_changes_cache 100 helloStore (str "hexxo") Top 2 cachedStore
           (Suggestions [Item (str "hello") 2 500])).
  vm_compute. reflexivity.
Defined.

Lemma phraseLen_le p k v :
  0 <= phraseLen (acquireCandidateProcessor k v p) <= len p.
Proof.
  cbn. pose proof (len_runes p). pose proof (len_nonneg (runes p)).
  pose proof (len_nonneg p). destruct (negb _); lia.
Qed.

(** X18.  With [maxEditDistance = 0], [Lookup] is the test whether the
    phrase is a word of the store: it returns the word with its count
    at distance 0, or nothing, and leaves the store as it is. *)
Theorem Lookup_distance_zero fuel s p v :
  store_inv s -> len p <= int_max ->
  (v = Top -> cache_find (ll (cache s)) p = None) ->
  Lookup fuel s p v 0 =
  Val (s, Suggestions
            match Words s !! p with
            | Some idx =>
                match counts s !! Z.to_nat idx with
                | Some c => [Item p 0 c]
                | None => []
                end
            | None => []
            end).
Proof.
  intros Hs Hp Hmiss. unfold Lookup.
  pose proof (inv_max s Hs) as Hmax.
  rewrite (proj2 (Z.ltb_ge _ _)) by lia.
  assert ((if decide (v = Top) then cache_Get (cache s) p else (cache s, None))
          = (cache s, None)) as ->.
  { case_decide as Hv; [|done]. unfold cache_Get. by rewrite (Hmiss Hv). }
  rewrite set_cache_id. cbv zeta.
  pose proof (phraseLen_le p 0 v) as Hpl.
  rewrite sub_id by (unfold is_int, int_min, int_max in *; lia).
  rewrite Z.sub_0_r.
  unfold checkExactMatch.
  destruct (Words s !! p) as [idx|] eqn:EW.
  - destruct (inv_Words s Hs p idx EW) as [Hidx Hlen].
    rewrite (proj2 (Z.ltb_ge _ _)) by lia.
    destruct (lookup_lt_is_Some_2 (counts s) (Z.to_nat idx)) as [c Ec];
      [unfold len in *; lia|].
    rewrite Ec, (rd_Val _ _ c), bind_Val by (done || lia).
    destruct (_ && _); rewrite bind_Val; cbn [shouldStop]; done.
  - destruct (_ <? _); [done|]. rewrite bind_Val. cbn [shouldStop]. done.
Qed.

Lemma Lookup_distance_zero_witness :
  Lookup 0 helloStore (str "help") Closest 0 =
  Val (helloStore, Suggestions
         match Words helloStore !! str "help" with
         | Some idx =>
             match counts helloStore !! Z.to_nat idx with
             | Some c => [Item (str "help") 0 c]
             | None => []
             end
         | None => []
         end).
Proof.
  apply Lookup_distance_zero.
  - apply reachable_inv, helloStore_reachable.
  - apply Z.leb_le. reflexivity.
  - discriminate.
Defined.

(** X19.  With verbosity [Top] an answer is remembered: when the cache
    can hold an entry, the same call made again on the store that
    [Lookup] left returns the same result and changes nothing. *)
Theorem Lookup_Top_repeat fuel s p k s' r :
  1 <= capacity (cache s) ->
  Lookup fuel s p Top k = Val (s', r) ->
  Lookup fuel s' p Top k = Val (s', r).
Proof.
  intros Hcap H.
  destruct r as [l|msg].
  2:{ assert ((MaxDictionaryEditDistance s <? k) = true /\
              (s', Error msg) = (s, Error "distance too large")) as [Ek E].
      { unfold Lookup in H.
        destruct (MaxDictionaryEditDistance s <? k);
          [split; [done|by apply Val_inj in H]|].
        rewrite decide_True in H by done.
        destruct (cache_Get (cache s) p) as [c [item|]]; [done|]. cbv zeta in H.
        destruct (_ <? _); [done|].
        destruct (checkExactMatch _ _ _ _) as [[cp e]| |];
          cbn [mbind run_mbind run_bind] in H; [|done..].
        destruct (shouldStop e); [done|]. destruct (_ =? _); [done|].
        destruct (getOriginPrefix _ _) as [pre| |];
          cbn [mbind run_mbind run_bind] in H; [|done..].
        destruct (processCandidate _ _ _ _) as [cp1| |];
          cbn [mbind run_mbind run_bind] in H; [|done..].
        by destruct (suggestions (sortCandidate _)). }
      inversion E; subst. unfold Lookup. by rewrite Ek. }
  pose proof (Lookup_Top_length _ _ _ _ _ _ H) as Hone.
  unfold Lookup in H.
  destruct (MaxDictionaryEditDistance s <? k) eqn:Ek; [done|].
  rewrite decide_True in H by done. unfold cache_Get in H.
  assert (forall c item,
    Lookup fuel (set_cache s {| capacity := capacity c; ll := CacheEntry p item :: ll c |})
      p Top k
    = Val (set_cache s {| capacity := capacity c; ll := CacheEntry p item :: ll c |},
           Suggestions [item])) as Hhit.
  { intros c item. unfold Lookup. cbn [MaxDictionaryEditDistance set_cache].
    rewrite Ek, decide_True by done. unfold cache_Get.
    cbn [cache set_cache ll]. rewrite cache_find_front. cbn [delete list_delete capacity].
    done. }
  destruct (cache_find (ll (cache s)) p) as [[i item]|] eqn:Ec.
  - apply Val_inj in H. inversion H; subst.
    apply (Hhit {| capacity := capacity (cache s); ll := delete i (ll (cache s)) |}).
  - rewrite set_cache_id in H. cbv zeta in H.
    assert (forall l0, Val (s, Suggestions l0) = Val (s', Suggestions l) ->
              Lookup fuel s' p Top k = Val (s', Suggestions l)) as Hsame.
    { intros l0 E. apply Val_inj in E. inversion E; subst.
      unfold Lookup. rewrite Ek, decide_True by done. unfold cache_Get. rewrite Ec.
      rewrite set_cache_id. exact H. }
    destruct (maxLength s <? _) eqn:E1; [by eapply Hsame|].
    destruct (checkExactMatch _ _ _ _) as [[cp e]| |] eqn:E2;
      cbn [mbind run_mbind run_bind] in H; [|done..].
    destruct (shouldStop e) eqn:E3; [by eapply Hsame|].
    destruct (k =? 0) eqn:E4; [by eapply Hsame|].
    destruct (getOriginPrefix _ _) as [pre| |] eqn:E5;
      cbn [mbind run_mbind run_bind] in H; [|done..].
    destruct (processCandidate _ _ _ _) as [cp1| |] eqn:E6;
      cbn [mbind run_mbind run_bind] in H; [|done..].
    destruct (suggestions (sortCandidate _)) as [|r0 rest] eqn:E7;
      [by eapply Hsame|].
    apply Val_inj in H. inversion H; subst. clear H.
    destruct rest; [|cbn in Hone; lia].
    unfold cache_Add. rewrite Ec. cbv zeta.
    destruct (Z.ltb_spec (capacity (cache s)) (len (CacheEntry p r0 :: ll (cache s)))).
    + destruct (ll (cache s)) as [|e0 l0] eqn:El;
        [unfold len in *; cbn in *; lia|].
      change (removelast (CacheEntry p r0 :: e0 :: l0))
        with (CacheEntry p r0 :: removelast (e0 :: l0)).
      apply (Hhit {| capacity := capacity (cache s); ll := removelast (e0 :: l0) |}).
    + apply (Hhit (cache s)).
Qed.

Lemma Lookup_Top_repeat_witness :
  Lookup 100 cachedStore (str "hexxo") Top 2 =
  Val (cachedStore, Suggestions [Item (str "hello") 2 500]).
Proof.
  apply (Lookup_Top_repeat 100 helloStore).
  - apply Z.leb_le. reflexivity.
  - vm_compute. reflexivity.
Defined.

Lemma createDictionaryEntry_cache s key count s' ok :
  createDictionaryEntry s key count = Val (s', ok) ->
  cache s' = cache s /\ MaxDictionaryEditDistance s' = MaxDictionaryEditDistance s.
Proof.
  intros H. unfold createDictionaryEntry in H.
  destruct (addWordEntry s key count) as [[s1 ok1]| |] eqn:Ea; [|done..].
  cbn [mbind run_mbind run_bind] in H.
  assert (cache s1 = cache s /\
          MaxDictionaryEditDistance s1 = MaxDictionaryEditDistance s) as [E1 E2].
  { clear H. unfold addWordEntry in Ea.
    destruct (_ && _); [apply Val_inj in Ea; inversion Ea; by subst|].
    unfold addWordEntry_merge in Ea.
    destruct (1 <? CountThreshold s).
    - destruct (BelowThresholdWords s !! key) as [prev|].
      + destruct (incrementCount count prev <? CountThreshold s) eqn:E;
          cbn [mbind run_mbind run_bind] in Ea.
        * apply Val_inj in Ea. inversion Ea; by subst.
        * cbn [CountThreshold set_BelowThresholdWords] in Ea. rewrite E in Ea.
          apply Val_inj in Ea. inversion Ea; subst.
          match goal with |- context [if ?b then _ else _] => destruct b end; done.
      + cbn [mbind run_mbind run_bind] in Ea.
        destruct (count <? CountThreshold s);
          apply Val_inj in Ea; inversion Ea; subst; [done|].
        match goal with |- context [if ?b then _ else _] => destruct b end; done.
    - destruct (Words s !! key) as [idx|].
      + destruct (rd (counts s) idx) as [c| |]; [|done..].
        cbn [mbind run_mbind run_bind] in Ea.
        destruct (wr (counts s) idx _) as [cs| |]; [|done..].
        cbn [mbind run_mbind run_bind] in Ea.
        apply Val_inj in Ea. inversion Ea; by subst.
      + cbn [mbind run_mbind run_bind] in Ea.
        destruct (count <? CountThreshold s);
          apply Val_inj in Ea; inversion Ea; subst; [done|].
        match goal with |- context [if ?b then _ else _] => destruct b end; done. }
  destruct ok1; cbn [negb] in H; [|apply Val_inj in H; inversion H; by subst].
  destruct (addDeletesForIndex s1 key _) as [s2| |] eqn:Ed; [|done..].
  cbn [mbind run_mbind run_bind] in H. apply Val_inj in H. inversion H; subst.
  unfold addDeletesForIndex in Ed.
  destruct (editsPrefix s1 key) as [es| |]; [|done..].
  cbn [mbind run_mbind run_bind] in Ed.
  rewrite <- E1, <- E2.
  eapply (foldM_inv (fun t => cache t = cache s1 /\
            MaxDictionaryEditDistance t = MaxDictionaryEditDistance s1) _ _ s1 s');
    [|done|exact Ed].
  intros t d t' [F1 F2] Hd. unfold addDelete in Hd.
  destruct (DeletesIdx t !! d) as [v|]; [|apply Val_inj in Hd; by subst t'].
  destruct (slice_from _ _) as [src| |]; [|done..].
  cbn [mbind run_mbind run_bind] in Hd.
  destruct (copy_at _ _ _) as [data| |]; [|done..].
  cbn [mbind run_mbind run_bind] in Hd.
  destruct (wr _ _ _) as [data'| |]; [|done..].
  cbn [mbind run_mbind run_bind] in Hd.
  apply Val_inj in Hd. by subst t'.
Qed.

(** X20.  The cache is never invalidated: an answer that is in the
    cache before [createDictionaryEntry] is still the answer of
    [Lookup] with verbosity [Top] after it, whatever entry was
    made. *)
Theorem Lookup_Top_cache_survives_entry fuel s p k i item key count s' ok :
  cache_find (ll (cache s)) p = Some (i, item) ->
  createDictionaryEntry s key count = Val (s', ok) ->
  k <= MaxDictionaryEditDistance s ->
  suggestions_of (Lookup fuel s' p Top k) = Some [item].
Proof.
  intros Hc He Hk. apply createDictionaryEntry_cache in He as [E1 E2].
  apply (Lookup_Top_cache_hit fuel s' p k i item); [lia|by rewrite E1].
Qed.

Lemma Lookup_Top_cache_survives_entry_witness :
  suggestions_of (Lookup 0 staleStore (str "hexxo") Top 2)
  = Some [Item (str "hello") 2 500].
Proof.
  apply (Lookup_Top_cache_survives_entry 0 cachedStore (str "hexxo") 2 0%nat
           (Item (str "hello") 2 500) (str "hexxo") 9999 staleStore true).
  - vm_compute. reflexivity.
  - vm_compute. reflexivity.
  - apply Z.leb_le. reflexivity.
Defined.

(** The search does not remember the words it has taken through
    the shortcuts for an empty candidate and for a one-rune word, so
    with verbosity [All] a word can be returned twice, the second
    time at a larger distance: for the store of the one word "a",
    [Lookup("ab", All, 2)] returns "a" at distance 1 and again at
    distance 2. *)
Theorem Lookup_All_repeats_a_word :
  reachable singleStore /\
  Lookup 100 singleStore (str "ab") All 2 =
  Val (singleStore, Suggestions [Item (str "a") 1 5; Item (str "a") 2 5]).
Proof.
  split; [|vm_compute; reflexivity].
  apply (buildDictionary_reachable DefaultOptions [(str "a", 5)]).
  - apply DefaultOptions_ok.
  - repeat constructor; by apply is_u32_dec_true.
  - vm_compute. reflexivity.
Qed.

(** ** The delete words of a key *)

Lemma sublist_first_gap {A} (l m : list A) :
  l `sublist_of` m -> (length l < length m)%nat ->
  exists j, (j < length m)%nat /\ take j l = take j m /\
    drop j l `sublist_of` drop (S j) m.
Proof.
  induction 1 as [|x l m Hs IH|x l m Hs IH]; cbn [length]; intros Hlen; [lia| |].
  - destruct IH as (j & Hj & Ht & Hd); [lia|].
    exists (S j). split; [lia|]. cbn. by rewrite Ht.
  - exists 0%nat. split; [lia|]. split; [done|]. done.
Qed.

Lemma sublist_same_length {A} (l m : list A) :
  l `sublist_of` m -> (length m <= length l)%nat -> l = m.
Proof.
  induction 1 as [|x l m Hs IH|x l m Hs IH]; cbn [length]; intros Hlen; [done| |].
  - f_equal. apply IH. lia.
  - apply sublist_length in Hs. lia.
Qed.

Lemma deleteRune_delete rs (i : nat) :
  deleteRune rs (Z.of_nat i) = string_of_runes (delete i rs).
Proof.
  unfold deleteRune. rewrite <- string_of_runes_app, delete_take_drop.
  rewrite Nat2Z.id. by replace (Z.to_nat (Z.of_nat i + 1)) with (S i) by lia.
Qed.

Lemma take_delete_same {A} (l : list A) i : take i (delete i l) = take i l.
Proof.
  rewrite delete_take_drop.
  destruct (decide (i <= length l)%nat).
  - rewrite take_app_le by (rewrite length_take; lia).
    rewrite take_take. f_equal. lia.
  - rewrite (take_ge l) by lia. rewrite (drop_ge l) by lia.
    rewrite app_nil_r. apply take_ge. lia.
Qed.

Lemma drop_delete_same {A} (l : list A) i : drop i (delete i l) = drop (S i) l.
Proof.
  rewrite delete_take_drop.
  destruct (decide (i <= length l)%nat).
  - rewrite drop_app_ge by (rewrite length_take; lia).
    rewrite length_take. replace (i - i `min` length l)%nat with 0%nat by lia. done.
  - rewrite (take_ge l) by lia. rewrite (drop_ge l (S i)) by lia.
    rewrite app_nil_r. apply drop_ge. lia.
Qed.

Lemma deletions_step rs cur n x :
  deletions rs cur n x <->
  exists i, (cur <= i < length rs)%nat /\
    ((x = string_of_runes (delete i rs) /\ 1 <= n) \/
     deletions (delete i rs) i (n - 1) x).
Proof.
  unfold deletions. split.
  - intros (l & Hl & -> & Hd).
    set (m := drop cur rs) in *.
    assert (cur <= length rs)%nat as Hcur.
    { destruct (decide (cur <= length rs)%nat); [done|].
      apply sublist_length in Hl. subst m. rewrite length_drop in Hl.
      unfold len in *. lia. }
    assert (length m = (length rs - cur)%nat) as Hm by (subst m; apply length_drop).
    destruct (sublist_first_gap l m Hl) as (j & Hj & Ht & Hdr);
      [unfold len in *; lia|].
    exists (cur + j)%nat. split; [lia|].
    assert (take cur rs ++ l = take (cur + j) rs ++ drop j l) as Ex.
    { rewrite <- (take_drop j l) at 1. rewrite Ht. subst m.
      by rewrite app_assoc, take_take_drop. }
    assert (drop (S (cur + j)) rs = drop (S j) m) as Edr.
    { subst m. rewrite drop_drop. f_equal. lia. }
    assert (length (drop j l) = (length l - j)%nat) as Hlj by apply length_drop.
    assert (j <= length l)%nat as Hjl.
    { destruct (decide (j <= length l)%nat); [done|].
      rewrite take_ge in Ht by lia.
      assert (length (take j m) = length l) as Hx by (by rewrite <- Ht).
      rewrite length_take in Hx. lia. }
    destruct (decide (len rs - Z.of_nat cur - len l = 1)) as [H1|H1].
    + left. split; [|lia]. rewrite Ex. f_equal. rewrite delete_take_drop. f_equal.
      rewrite Edr. apply sublist_same_length; [done|].
      rewrite length_drop. unfold len in *. lia.
    + right. exists (drop j l).
      rewrite take_delete_same, drop_delete_same, Edr.
      split; [done|]. split; [by rewrite Ex|].
      unfold len in *. rewrite length_delete by (apply lookup_lt_is_Some; lia). lia.
  - intros (i & Hi & [[-> Hn]|(l' & Hl' & -> & Hd)]).
    + exists (take (i - cur) (drop cur rs) ++ drop (S i) rs). split; [|split].
      * rewrite <- (take_drop (i - cur) (drop cur rs)) at 2.
        apply sublist_app; [done|]. rewrite drop_drop.
        replace (S i) with (cur + (i - cur) + 1)%nat by lia.
        rewrite <- drop_drop. apply sublist_drop.
      * rewrite app_assoc, take_take_drop, delete_take_drop.
        by replace (cur + (i - cur))%nat with i by lia.
      * unfold len. rewrite length_app, length_take, !length_drop. lia.
    + rewrite take_delete_same, drop_delete_same in *.
      exists (take (i - cur) (drop cur rs) ++ l'). split; [|split].
      * rewrite <- (take_drop (i - cur) (drop cur rs)) at 2.
        apply sublist_app; [done|]. rewrite drop_drop.
        replace (cur + (i - cur))%nat with i by lia.
        etrans; [exact Hl'|]. replace (S i) with (i + 1)%nat by lia.
        rewrite <- drop_drop. apply sublist_drop.
      * rewrite app_assoc, take_take_drop.
        by replace (cur + (i - cur))%nat with i by lia.
      * unfold len in *. rewrite length_delete in Hd by (apply lookup_lt_is_Some; lia).
        rewrite length_app, length_take, length_drop. lia.
Qed.

Lemma runes_nil_inv w : runes w = [] -> w = [].
Proof.
  destruct w as [|c w]; [done|]. unfold runes. cbn [runes_skip].
  by destruct (decodeRune c w).
Qed.

Section EditsSet.
Variable s : SymSpell.
Hypothesis Hmax : 0 <= MaxDictionaryEditDistance s < int_max.

Abbreviation maxDist := (MaxDictionaryEditDistance s).

Lemma edits_set fuel : forall word ed dw cur,
  0 <= cur -> 0 <= ed <= maxDist -> (Z.to_nat (maxDist - ed) < fuel)%nat ->
  exists res, edits fuel s word ed dw cur = Val res /\
    forall x, x ∈ res <->
      x ∈ dw \/ (runes word = [] /\ x = []) \/
      deletions (runes word) (Z.to_nat cur) (Z.max 1 (maxDist - ed)) x.
Proof.
  induction fuel as [|fuel IH]; intros word ed dw cur Hcur Hed Hfuel; [lia|].
  cbn [edits].
  rewrite add_id by (unfold is_int, int_min, int_max in *; lia).
  pose proof (runes_valid word) as Hv.
  pose proof (len_nonneg (runes word)) as HL.
  set (rs := runes word) in *. set (L := len rs) in *.
  set (N := Z.max 1 (maxDist - ed)).
  assert (forall x, ~ (rs = [] /\ deletions rs (Z.to_nat cur) N x)) as Hnodel.
  { intros x [E (l & Hl & _ & Hd)]. rewrite E in Hl, Hd.
    rewrite drop_nil in Hl. apply sublist_nil_r in Hl. subst l.
    unfold len in Hd. cbn in Hd. lia. }
  destruct (Z.eqb_spec L 0) as [HL0|HL0].
  { assert (rs = []) as Ers by (destruct rs; [done|unfold L, len in HL0; cbn in HL0; lia]).
    unfold RuneCountInString. fold rs. fold L. rewrite HL0.
    rewrite (proj2 (Z.leb_le 0 maxDist)) by lia.
    eexists. split; [reflexivity|]. intros x.
    rewrite elem_of_union, elem_of_singleton. split.
    - intros [->|?]; [right; left; done|by left].
    - intros [?|[[_ ->]|Hd]]; [by right|by left|].
      exfalso. by apply (Hnodel x). }
  assert (rs <> []) as Hne by (intros E; apply HL0; unfold L; by rewrite E).
  destruct (for_loop_inv
    (fun j dwj => forall x, x ∈ dwj <->
       x ∈ dw \/
       exists i : nat, cur <= Z.of_nat i < j /\
         ((x = string_of_runes (delete i rs) /\ 1 <= N) \/
          deletions (delete i rs) i (N - 1) x))
    (trips cur (L - 1)) cur
    (fun i deleteWords =>
       pre ← slice rs 0 i;
       post ← slice_from rs (i + 1);
       let deleteWord := string_of_runes pre ++ string_of_runes post in
       let deleteWords := {[ deleteWord ]} ∪ deleteWords in
       if ed + 1 <? maxDist
       then edits fuel s deleteWord (ed + 1) deleteWords i
       else Val deleteWords) dw) as (res & E & Hres).
  - intros x. split; [by left|]. intros [?|(i & Hi & _)]; [done|lia].
  - intros j dwj Hj Hinv. unfold trips in Hj.
    rewrite slice_take, bind_Val by (fold L; lia).
    rewrite slice_from_drop, bind_Val by (fold L; lia).
    cbv zeta. set (jn := Z.to_nat j).
    assert (string_of_runes (take jn rs) ++ string_of_runes (drop (Z.to_nat (j + 1)) rs)
            = string_of_runes (delete jn rs)) as ->.
    { rewrite <- (deleteRune_delete rs jn). unfold deleteRune, jn.
      by rewrite Z2Nat.id by lia. }
    assert (Forall valid_rune (delete jn rs)) as Hvd
      by (eapply sublist_Forall; [apply sublist_delete|done]).
    assert (forall x,
      (x ∈ dw \/ exists i : nat, cur <= Z.of_nat i < j + 1 /\
         ((x = string_of_runes (delete i rs) /\ 1 <= N) \/
          deletions (delete i rs) i (N - 1) x)) <->
      (x = string_of_runes (delete jn rs) \/ x ∈ dwj \/
       deletions (delete jn rs) jn (N - 1) x)) as Hstep.
    { intros x. rewrite (Hinv x). split.
      - intros [?|(i & Hi & Hx)]; [right; left; by left|].
        destruct (decide (i = jn)) as [->|Hij].
        + destruct Hx as [[-> _]|Hx]; [by left|right; by right].
        + right. left. right. exists i. split; [lia|done].
      - intros [->|[[?|(i & Hi & Hx)]|Hx]].
        + right. exists jn. split; [lia|]. left. split; [done|lia].
        + by left.
        + right. exists i. split; [lia|done].
        + right. exists jn. split; [lia|]. by right. }
    destruct (Z.ltb_spec (ed + 1) maxDist) as [Hlt|Hge].
    + destruct (IH (string_of_runes (delete jn rs)) (ed + 1)
                  ({[string_of_runes (delete jn rs)]} ∪ dwj) j)
        as (res & E & Hr); [lia|lia|lia|].
      exists res. split; [done|]. intros x. rewrite Hstep, (Hr x).
      rewrite runes_string_of_runes by done.
      rewrite elem_of_union, elem_of_singleton.
      replace (Z.max 1 (maxDist - (ed + 1))) with (N - 1) by lia.
      fold jn. split.
      * intros [[->|?]|[[E0 ->]|?]]; [by left|right; by left| |right; by right].
        left. by rewrite E0.
      * intros [->|[?|?]]; [left; by left|left; by right|right; by right].
    + eexists. split; [reflexivity|]. intros x. rewrite Hstep.
      rewrite elem_of_union, elem_of_singleton. split.
      * intros [->|?]; [by left|right; by left].
      * intros [->|[?|(l & _ & _ & Hd)]]; [by left|by right|].
        exfalso. unfold len in Hd. lia.
  - exists res. split; [done|]. intros x. rewrite (Hres x).
    rewrite deletions_step.
    split.
    + intros [?|(i & Hi & Hx)]; [by left|]. right. right.
      exists i. split; [|done]. unfold trips, L, len in *. lia.
    + intros [?|[[? _]|(i & Hi & Hx)]]; [by left|done|].
      right. exists i. split; [|done]. unfold trips, L, len in *. lia.
Qed.
End EditsSet.

(** X21.  The delete words of a key are the key itself, cut to
    [PrefixLength] runes, and every string left of its runes after
    deleting at least one and at most [max(1, MaxDictionaryEditDistance)]
    of them; nothing else. *)
Theorem editsPrefix_set s key :
  0 <= MaxDictionaryEditDistance s < PrefixLength s -> PrefixLength s <= int_max ->
  exists tk es, truncateKey s key = Val tk /\ editsPrefix s key = Val es /\
    forall x, x ∈ es <->
      x = tk \/
      exists l, l `sublist_of` runes tk /\ x = string_of_runes l /\
        1 <= len (runes tk) - len l <= Z.max 1 (MaxDictionaryEditDistance s).
Proof.
  intros H1 H2.
  destruct (truncateKey_spec s ltac:(lia) ltac:(lia) key) as (tk & Et & Hlen).
  unfold editsPrefix. rewrite Et, bind_Val.
  set (hs := {[tk]} ∪ _).
  destruct (edits_set s ltac:(lia) (S (Z.to_nat (MaxDictionaryEditDistance s))) tk 0 hs 0)
    as (es & Ee & Hes); [lia|lia|lia|].
  exists tk, es. split; [done|]. split; [done|].
  intros x. rewrite (Hes x). unfold deletions. cbn [Z.to_nat take drop app].
  rewrite Z.sub_0_r. change (Z.of_nat 0) with 0.
  pose proof (len_nonneg (runes tk)) as HL.
  assert (runes tk = [] -> tk = []) as Hnil by apply runes_nil_inv.
  split.
  - intros [Hx|[[E ->]|(l & Hl & -> & Hd)]].
    + subst hs. apply elem_of_union in Hx as [Hx|Hx];
        [apply elem_of_singleton in Hx; by left|].
      destruct (Z.leb_spec (RuneCountInString key) (MaxDictionaryEditDistance s));
        [|by apply elem_of_empty in Hx].
      apply elem_of_singleton in Hx. subst x.
      destruct (runes tk) as [|r rs] eqn:Er; [left; by rewrite Hnil|].
      right. exists []. split; [apply sublist_nil_l|]. split; [done|].
      unfold len in *. cbn [length] in *. lia.
    + left. by rewrite Hnil.
    + right. exists l. split; [done|]. split; [done|]. lia.
  - intros [->|(l & Hl & -> & Hd)].
    + left. subst hs. apply elem_of_union_l, elem_of_singleton. done.
    + right. right. exists l. split; [done|]. split; [done|]. lia.
Qed.

Lemma editsPrefix_set_witness :
  exists tk es, truncateKey helloStore (str "hello") = Val tk /\
    editsPrefix helloStore (str "hello") = Val es /\
    forall x, x ∈ es <->
      x = tk \/
      exists l, l `sublist_of` runes tk /\ x = string_of_runes l /\
        1 <= len (runes tk) - len l <= Z.max 1 (MaxDictionaryEditDistance helloStore).
Proof.
  apply editsPrefix_set.
  - split; [apply Z.leb_le|apply Z.ltb_lt]; reflexivity.
  - apply Z.leb_le. reflexivity.
Defined.

(** ** [Lookup] returns *)

Lemma dlDistanceMax_negative {C} (ceq : C -> C -> bool) p (x y : list C) k :
  k < 0 -> len x <= int_max -> len y <= int_max ->
  dlDistanceMax ceq p x y k = Val (add k 1).
Proof.
  intros Hk Hx Hy. unfold dlDistanceMax.
  pose proof (len_nonneg x). pose proof (len_nonneg y).
  destruct (len x =? 0); [by rewrite (proj2 (Z.leb_gt _ _)) by lia|].
  destruct (len y =? 0); [by rewrite (proj2 (Z.leb_gt _ _)) by lia|].
  rewrite sub_id by (unfold is_int, int_min, int_max in *; lia).
  destruct (Z.ltb_spec k (len x - len y)) as [|Hle]; [done|].
  cbn [orb].
  rewrite neg_id by (unfold is_int, int_min, int_max in *; lia).
  by rewrite (proj2 (Z.ltb_lt _ _)) by lia.
Qed.

Lemma DistanceMax_total d p a b k :
  k + len a + 2 <= int_max -> len a <= int_max -> len b <= int_max ->
  exists r, DistanceMax d p a b k = Val r.
Proof.
  intros Hka Ha Hb. unfold DistanceMax.
  case_decide; [|by exists 0].
  pose proof (len_runes a). pose proof (len_runes b).
  pose proof (len_nonneg a). pose proof (len_nonneg (runes a)).
  assert (forall {C} (ceq : C -> C -> bool), (forall x y, ceq x y = true <-> x = y) ->
            forall (x y : list C), 0 <= len x -> len x <= len a -> len y <= int_max ->
            exists r, dlDistanceMax ceq p x y k = Val r) as Hgen.
  { intros C ceq Hceq x y Hx0 Hx Hy. destruct (Z.lt_ge_cases k 0) as [Hneg|Hpos].
    - rewrite dlDistanceMax_negative by lia. by eexists.
    - rewrite (dlDistanceMax_spec ceq Hceq x y p k) by lia. by eexists. }
  destruct (isASCII a && isASCII b).
  - apply (Hgen _ Ascii.eqb ascii_eqb_spec); lia.
  - apply (Hgen _ Z.eqb Z_eqb_spec); lia.
Qed.

(** *** What the search leaves alone *)

Lemma updateSuggestion_kframe cp sug : kframe (updateSuggestion cp sug) = kframe cp.
Proof. unfold updateSuggestion. by destruct (unicode cp). Qed.

Lemma updateMinDistance_kframe s k cp : kframe (updateMinDistance s k cp) = kframe cp.
Proof. unfold updateMinDistance. by destruct (_ =? _). Qed.

Lemma checkFirstRuneDistance_kframe cp sug cp' b :
  checkFirstRuneDistance cp sug = Val (cp', b) -> kframe cp' = kframe cp.
Proof.
  unfold checkFirstRuneDistance. intros H.
  destruct (if unicode cp then _ else _) as [found| |]; [|done..].
  cbn [mbind run_mbind run_bind] in H.
  destruct (_ <? _); [apply Val_inj in H; by inversion H|].
  destruct (bool_decide _); apply Val_inj in H; by inversion H.
Qed.

Lemma checkDistanceToSkip_kframe s k cp sug cp' b :
  checkDistanceToSkip s k cp sug = Val (cp', b) -> kframe cp' = kframe cp.
Proof.
  unfold checkDistanceToSkip. intros H.
  destruct (if _ =? _ then _ else _) as [skip| |]; [|done..].
  cbn [mbind run_mbind run_bind] in H.
  destruct skip; [apply Val_inj in H; by inversion H|].
  destruct (bool_decide _); [apply Val_inj in H; by inversion H|].
  destruct (distanceCompare _ _ _ _) as [d| |]; [|done..].
  cbn [mbind run_mbind run_bind] in H.
  apply Val_inj in H. by inversion H.
Qed.

Lemma updateSuggestions_kframe s idx sug cp cp' :
  updateSuggestions s idx sug cp = Val cp' -> kframe cp' = kframe cp.
Proof.
  intros H. unfold updateSuggestions in H.
  destruct (rd (counts s) idx) as [c| |]; [|done..].
  cbn [mbind run_mbind run_bind] in H.
  unfold updateBestSuggestion in H.
  run_cases H; reflexivity.
Qed.

Lemma processPosting_kframe s k cand i cp cp' :
  processPosting s k cand i cp = Val cp' -> kframe cp' = kframe cp.
Proof.
  intros H. unfold processPosting in H.
  destruct (rd (DeletesData s) i) as [idx| |]; [|done..].
  cbn [mbind run_mbind run_bind] in H.
  destruct (rd (words s) idx) as [sug| |]; [|done..].
  cbn [mbind run_mbind run_bind] in H.
  destruct (bool_decide _); [apply Val_inj in H; by subst|].
  destruct (checkSuggestionToSkip _ _ _ _).
  { apply Val_inj in H. subst. apply updateSuggestion_kframe. }
  set (cp1 := resetDistance (updateSuggestion cp sug)) in H.
  assert (kframe cp1 = kframe cp) as E1
    by (subst cp1; etrans; [|apply (updateSuggestion_kframe cp sug)]; done).
  destruct (if candidateLen cp1 =? 0 then _ else _) as [[cp2 skip]| |] eqn:E2;
    [|done..].
  cbn [mbind run_mbind run_bind] in H.
  assert (kframe cp2 = kframe cp1) as E3.
  { destruct (candidateLen cp1 =? 0).
    - destruct (_ <? _); [apply Val_inj in E2; by inversion E2|].
      destruct (bool_decide _); apply Val_inj in E2; by inversion E2.
    - destruct (suggestionLen cp1 =? 1).
      + by apply checkFirstRuneDistance_kframe in E2.
      + apply checkDistanceToSkip_kframe in E2.
        by rewrite updateMinDistance_kframe in E2. }
  destruct skip; [apply Val_inj in H; subst; congruence|].
  destruct (_ <=? _); [|apply Val_inj in H; subst; congruence].
  apply updateSuggestions_kframe in H. congruence.
Qed.


(** *** Every step of the search returns *)

Lemma rd_total {A} (l : list A) i : 0 <= i < len l -> exists x, rd l i = Val x.
Proof.
  intros Hi. destruct (lookup_lt_is_Some_2 l (Z.to_nat i)) as [x Hx];
    [unfold len in Hi; lia|].
  exists x. apply rd_Val; [lia|done].
Qed.

Lemma slice_from_total {A} (l : list A) i :
  0 <= i <= len l -> exists x, slice_from l i = Val x.
Proof. intros Hi. rewrite slice_from_drop by done. by eexists. Qed.

Lemma updateSuggestions_total s idx sug cp :
  0 <= idx < len (counts s) ->
  exists cp', updateSuggestions s idx sug cp = Val cp'.
Proof.
  intros Hidx. unfold updateSuggestions.
  destruct (rd_total (counts s) idx Hidx) as [c ->]. rewrite bind_Val.
  destruct (Z.ltb_spec 0 (len (suggestions cp))) as [Hpos|Hpos].
  - unfold updateBestSuggestion. destruct (verbosity cp).
    + destruct (rd_total (suggestions cp) 0) as [s0 E0]; [lia|].
      destruct (distance cp <? maxEditDistance2 cp); rewrite ?E0, ?bind_Val.
      * rewrite wr_Val by (cbn; lia). rewrite !bind_Val. by eexists.
      * destruct (Count s0 <? c); rewrite ?bind_Val.
        -- rewrite wr_Val by (cbn; lia). rewrite !bind_Val. by eexists.
        -- by eexists.
    + destruct (_ <? _); rewrite bind_Val; by eexists.
    + rewrite bind_Val. by eexists.
  - rewrite bind_Val. by eexists.
Qed.

Lemma suffixSkip_total {A} `{EqDecision A} (pr sr : list A) pLen sLen minD :
  len pr = pLen -> len sr = sLen -> pLen < int_max -> sLen < int_max ->
  minD <= pLen - 1 -> minD <= sLen - 1 ->
  exists b, suffixSkip pr sr pLen sLen minD = Val b.
Proof.
  intros Hp Hs Hpm Hsm Hdp Hds. unfold suffixSkip.
  pose proof (len_nonneg pr). pose proof (len_nonneg sr).
  assert (exists b1,
    (if 1 <? minD
     then ps ← slice_from pr (sub (add pLen 1) minD);
          ss ← slice_from sr (sub (add sLen 1) minD);
          Val (bool_decide (ps <> ss))
     else Val false) = Val b1) as [b1 ->].
  { destruct (Z.ltb_spec 1 minD); [|by eexists].
    rewrite !add_id, !sub_id by (unfold is_int, int_min, int_max in *; lia).
    destruct (slice_from_total pr (pLen + 1 - minD)) as [ps ->]; [lia|].
    destruct (slice_from_total sr (sLen + 1 - minD)) as [ss ->]; [lia|].
    rewrite !bind_Val. by eexists. }
  rewrite bind_Val. destruct b1; [by eexists|].
  destruct (Z.ltb_spec 0 minD); [|by eexists].
  rewrite (sub_id pLen minD), (sub_id sLen minD)
    by (unfold is_int, int_min, int_max in *; lia).
  rewrite !sub_id by (unfold is_int, int_min, int_max in *; lia).
  destruct (rd_total pr (pLen - minD)) as [p0 E0]; [lia|].
  destruct (rd_total sr (sLen - minD)) as [s0 E1]; [lia|].
  destruct (rd_total pr (pLen - minD - 1)) as [p1 E2]; [lia|].
  destruct (rd_total sr (sLen - minD - 1)) as [s1 E3]; [lia|].
  rewrite ?E0, ?E1, ?E2, ?E3, ?bind_Val.
  destruct (bool_decide (p0 <> s0)); [|by eexists].
  rewrite ?bind_Val.
  destruct (bool_decide (p1 <> s0)); [by eexists|].
  rewrite ?bind_Val. by eexists.
Qed.

Lemma checkFirstRuneDistance_total cp sug :
  (if unicode cp then len (suggestionRunes cp) = 1 else len sug = 1) ->
  exists cp' b, checkFirstRuneDistance cp sug = Val (cp', b).
Proof.
  intros H. unfold checkFirstRuneDistance.
  assert (exists found,
    (if unicode cp
     then first ← rd (suggestionRunes cp) 0;
          Val (existsb (Z.eqb first) (phraseRunes cp))
     else first ← rd sug 0; Val (existsb (Ascii.eqb first) (phrase cp)))
    = Val found) as [found ->].
  { destruct (unicode cp).
    - destruct (rd_total (suggestionRunes cp) 0) as [x ->]; [lia|].
      rewrite bind_Val. by eexists.
    - destruct (rd_total sug 0) as [x ->]; [lia|]. rewrite bind_Val. by eexists. }
  rewrite bind_Val. cbv zeta.
  destruct (_ <? _); [by eexists _, _|].
  destruct (bool_decide _); by eexists _, _.
Qed.

Lemma checkDistanceToSkip_total s k cp sug :
  1 <= PrefixLength s <= int_max ->
  phraseLen cp = (if unicode cp then len (phraseRunes cp) else len (phrase cp)) ->
  suggestionLen cp = (if unicode cp then len (suggestionRunes cp) else len sug) ->
  len (phraseRunes cp) <= len (phrase cp) ->
  (unicode cp = true -> len (suggestionRunes cp) <= len sug) ->
  len (phrase cp) + MaxDictionaryEditDistance s + 2 <= int_max ->
  len sug < int_max ->
  maxEditDistance2 cp <= MaxDictionaryEditDistance s ->
  (sub (PrefixLength s) k = candidateLen cp ->
   minDistance cp = sub (Z.min (phraseLen cp) (suggestionLen cp)) (PrefixLength s)) ->
  0 <= MaxDictionaryEditDistance s ->
  exists cp' b, checkDistanceToSkip s k cp sug = Val (cp', b).
Proof.
  intros HP Hpl Hsl Hpr Hsr Hph Hsug Hm2 Hmin HM. unfold checkDistanceToSkip.
  pose proof (len_nonneg (phraseRunes cp)). pose proof (len_nonneg (phrase cp)).
  pose proof (len_nonneg (suggestionRunes cp)). pose proof (len_nonneg sug).
  assert (exists skip,
    (if sub (PrefixLength s) k =? candidateLen cp
     then checkProcessShouldSkip cp sug else Val false) = Val skip) as [skip ->].
  { destruct (Z.eqb_spec (sub (PrefixLength s) k) (candidateLen cp)) as [E|E];
      [|by eexists].
    specialize (Hmin E). unfold checkProcessShouldSkip. rewrite Hmin, Hpl, Hsl.
    destruct (unicode cp); [specialize (Hsr eq_refl)|];
      (rewrite sub_id by (unfold is_int, int_min, int_max in *; lia));
      apply suffixSkip_total; lia. }
  rewrite bind_Val. destruct skip; [by eexists _, _|].
  destruct (bool_decide _); [by eexists _, _|]. cbv zeta.
  cbn [phrase maxEditDistance2 set_consideredSuggestions].
  unfold distanceCompare.
  destruct (DistanceMax_total (distanceComparer s) fresh_pool (phrase cp) sug
              (maxEditDistance2 cp)) as [d ->]; [lia..|].
  rewrite bind_Val. destruct (_ <? _); rewrite bind_Val; by eexists _, _.
Qed.

Lemma processPosting_total s k cand i cp :
  store_ok s -> search_inv s cp -> 0 <= i < len (DeletesData s) ->
  exists cp', processPosting s k cand i cp = Val cp'.
Proof.
  intros [Hs Hd Hdl Hpost Hw] [Hpl Hph Hpr Hm2] Hi. unfold processPosting.
  destruct (rd_total (DeletesData s) i Hi) as [idx Eidx]. rewrite Eidx, bind_Val.
  assert (0 <= idx < len (words s)) as Hidx
    by (apply rd_inv in Eidx as [_ Eidx]; by eapply (Forall_lookup_1 _ _ _ _ Hpost)).
  destruct (rd_total (words s) idx Hidx) as [sug Esug]. rewrite Esug, bind_Val.
  assert (len sug < int_max) as Hsug
    by (apply rd_inv in Esug as [_ Esug]; by eapply (Forall_lookup_1 _ _ _ _ Hw)).
  destruct (bool_decide (sug = phrase cp)); [by eexists|].
  cbv zeta.
  destruct (checkSuggestionToSkip _ _ _ _); [by eexists|].
  set (cp2 := resetDistance (updateSuggestion cp sug)).
  assert (phraseLen cp2 = phraseLen cp /\ unicode cp2 = unicode cp /\
          phraseRunes cp2 = phraseRunes cp /\ phrase cp2 = phrase cp /\
          maxEditDistance2 cp2 = maxEditDistance2 cp /\
          suggestionLen cp2 =
            (if unicode cp then len (suggestionRunes cp2) else len sug) /\
          len (suggestionRunes cp2) <= len sug \/ unicode cp = false)
    as Hf.
  { subst cp2. unfold updateSuggestion. destruct (unicode cp) eqn:Eu; cbn.
    - left. rewrite Eu. repeat split; try done. apply len_runes.
    - by right. }
  assert (phraseLen cp2 = phraseLen cp /\ unicode cp2 = unicode cp /\
          phraseRunes cp2 = phraseRunes cp /\ phrase cp2 = phrase cp /\
          maxEditDistance2 cp2 = maxEditDistance2 cp /\
          suggestionLen cp2 =
            (if unicode cp then len (suggestionRunes cp2) else len sug) /\
          (unicode cp = true -> len (suggestionRunes cp2) <= len sug))
    as (F1 & F2 & F3 & F4 & F5 & F6 & F7).
  { subst cp2. unfold updateSuggestion. destruct (unicode cp) eqn:Eu; cbn;
      rewrite ?Eu; repeat split; try done. intros _. apply len_runes. }
  clear Hf.
  pose proof (inv_max s Hs) as HM. pose proof (inv_prefix s Hs) as HP.
  pose proof (inv_lens s Hs) as HL.
  cbv zeta.
  match goal with |- exists _, mbind _ ?X = _ =>
    assert (exists cp3 skip, X = Val (cp3, skip)) as (cp3 & skip & ->) end.
  { destruct (candidateLen cp2 =? 0).
    - destruct (_ <? _); [by eexists _, _|].
      destruct (bool_decide _); by eexists _, _.
    - destruct (Z.eqb_spec (suggestionLen cp2) 1) as [E1|E1].
      + apply checkFirstRuneDistance_total. rewrite F2.
        rewrite F6 in E1. by destruct (unicode cp).
      + assert (forall c : candidateProcessor,
          kframe c = kframe cp2 -> maxEditDistance2 c = maxEditDistance2 cp2 ->
          suggestionLen c = suggestionLen cp2 ->
          suggestionRunes c = suggestionRunes cp2 ->
          (sub (PrefixLength s) k = candidateLen c ->
           minDistance c = sub (Z.min (phraseLen c) (suggestionLen c)) (PrefixLength s)) ->
          exists cp' b, checkDistanceToSkip s k c sug = Val (cp', b)) as Hgen.
        { intros c Hk Hm Hsl Hsr Hmin. unfold kframe in Hk.
          inversion Hk as [[K1 K2 K3 K4]].
          change (phraseLen (updateSuggestion cp sug)) with (phraseLen cp2) in *.
          change (phraseRunes (updateSuggestion cp sug)) with (phraseRunes cp2) in *.
          change (phrase (updateSuggestion cp sug)) with (phrase cp2) in *.
          change (unicode (updateSuggestion cp sug)) with (unicode cp2) in *.
          apply checkDistanceToSkip_total; rewrite ?K1, ?K2, ?K3, ?K4, ?Hm, ?Hsl, ?Hsr,
            ?F1, ?F2, ?F3, ?F4, ?F5; try lia; try done.
          intros E. rewrite (Hmin E). congruence. }
        apply Hgen; unfold updateMinDistance.
        * by destruct (_ =? _).
        * by destruct (_ =? _).
        * by destruct (_ =? _).
        * by destruct (_ =? _).
        * destruct (Z.eqb_spec (sub (PrefixLength s) k) (candidateLen cp2)) as [E|E];
            cbn; [done|]. intros E'. done. }
  rewrite bind_Val. destruct skip; [by eexists|].
  destruct (_ <=? _); [|by eexists].
  apply updateSuggestions_total. unfold len in *. lia.
Qed.

Lemma updateSuggestions_max2 s idx sug cp cp' :
  updateSuggestions s idx sug cp = Val cp' ->
  distance cp <= maxEditDistance2 cp ->
  maxEditDistance2 cp' <= maxEditDistance2 cp.
Proof.
  intros H Hd. unfold updateSuggestions in H.
  destruct (rd (counts s) idx) as [c| |]; [|done..].
  cbn [mbind run_mbind run_bind] in H.
  destruct (0 <? len (suggestions cp)).
  - unfold updateBestSuggestion in H. destruct (verbosity cp) eqn:Ev.
    + destruct (if distance cp <? maxEditDistance2 cp then _ else _)
        as [better| |]; [|done..].
      cbn [mbind run_mbind run_bind] in H. destruct better.
      * destruct (wr _ _ _) as [l| |]; [|done..].
        cbn [mbind run_mbind run_bind] in H. apply Val_inj in H. by subst.
      * cbn [mbind run_mbind run_bind] in H. apply Val_inj in H. subst. lia.
    + destruct (_ <? _); cbn [mbind run_mbind run_bind] in H;
        apply Val_inj in H; subst; destruct (bool_decide _); cbn; lia.
    + cbn [mbind run_mbind run_bind] in H. apply Val_inj in H. subst.
      destruct (bool_decide _); cbn; lia.
  - cbn [mbind run_mbind run_bind] in H. apply Val_inj in H. subst.
    destruct (bool_decide _); cbn; lia.
Qed.

Lemma search_inv_kframe s cp cp' :
  kframe cp' = kframe cp -> maxEditDistance2 cp' <= maxEditDistance2 cp ->
  search_inv s cp -> search_inv s cp'.
Proof.
  unfold kframe. intros Hk Hm [H1 H2 H3 H4]. inversion Hk as [[K1 K2 K3 K4]].
  split; rewrite ?K1, ?K2, ?K3, ?K4; try done. lia.
Qed.

Lemma processPosting_search_inv s k cand i cp cp' :
  processPosting s k cand i cp = Val cp' -> search_inv s cp -> search_inv s cp'.
Proof.
  intros H Hcp. apply (search_inv_kframe s cp); [by eapply processPosting_kframe| |done].
  apply processPosting_step in H as [E|(cp0 & idx & sug & E & Hd & _ & Hu)].
  - unfold sframe in E. inversion E. lia.
  - apply updateSuggestions_max2 in Hu; [|done].
    unfold sframe in E. inversion E. lia.
Qed.

Lemma enqueueDelete_kframe cp d :
  kframe (enqueueDelete cp d) = kframe cp /\
  maxEditDistance2 (enqueueDelete cp d) = maxEditDistance2 cp.
Proof. unfold enqueueDelete. by destruct (bool_decide _). Qed.

Lemma addEditDistance_total s cand cp :
  search_inv s cp ->
  exists cp', addEditDistance cand cp = Val cp' /\ search_inv s cp'.
Proof.
  intros Hcp. unfold addEditDistance.
  destruct (negb (unicode cp)).
  - destruct (for_loop_inv (fun _ c => search_inv s c) (trips 0 (len cand - 1)) 0
      (fun i cp => pre ← slice cand 0 i; post ← slice_from cand (i + 1);
                   Val (enqueueDelete cp (pre ++ post))) cp) as (cp' & E & H');
      [done| |by exists cp'].
    intros j c Hj Hc. unfold trips in Hj.
    rewrite slice_take by lia. rewrite bind_Val.
    rewrite slice_from_drop by lia. rewrite bind_Val.
    eexists. split; [done|].
    destruct (enqueueDelete_kframe c
                (take (Z.to_nat j) cand ++ drop (Z.to_nat (j + 1)) cand)) as [K M].
    apply (search_inv_kframe s c); [done|lia|done].
  - set (rs := candidateRunes cp).
    destruct (for_loop_inv (fun _ c => search_inv s c) (trips 0 (len rs - 1)) 0
      (fun i cp => pre ← slice rs 0 i; post ← slice_from rs (i + 1);
                   Val (enqueueDelete cp (string_of_runes pre ++ string_of_runes post)))
      cp) as (cp' & E & H'); [done| |by exists cp'].
    intros j c Hj Hc. unfold trips in Hj.
    rewrite slice_take by lia. rewrite bind_Val.
    rewrite slice_from_drop by lia. rewrite bind_Val.
    eexists. split; [done|].
    destruct (enqueueDelete_kframe c
                (string_of_runes (take (Z.to_nat j) rs) ++
                 string_of_runes (drop (Z.to_nat (j + 1)) rs))) as [K M].
    apply (search_inv_kframe s c); [done|lia|done].
Qed.

Lemma processOne_total s k cp :
  store_ok s -> search_inv s cp ->
  0 <= candidatePointer cp < len (candidates cp) ->
  exists o, processOne s k cp = Val o /\
    match o with inl cp' | inr cp' => search_inv s cp' end.
Proof.
  intros Hs Hcp Hptr. unfold processOne, preProcessCandidate.
  destruct (rd_total (candidates cp) (candidatePointer cp) Hptr) as [cand ->].
  rewrite !bind_Val. cbv zeta.
  match goal with |- context [maxEditDistance2 ?c <? lenDiff _] => set (cp1 := c) end.
  assert (search_inv s cp1) as Hcp1.
  { apply (search_inv_kframe s cp); [|subst cp1; cbn; destruct (unicode cp); cbn; lia|done].
    subst cp1. cbn. by destruct (unicode cp). }
  destruct (_ <? _).
  { destruct (bool_decide _); by eexists. }
  assert (exists cp2,
    match DeletesIdx s !! cand with
    | Some v =>
        for_loop (Z.to_nat (u32 (unpack_offset v + unpack_length v) - unpack_offset v))
          (unpack_offset v) (processPosting s k cand) cp1
    | None => Val cp1
    end = Val cp2 /\ search_inv s cp2) as (cp2 & -> & Hcp2).
  { destruct (DeletesIdx s !! cand) as [v|] eqn:Ev; [|by exists cp1].
    destruct (del_range s (ok_deletes s Hs) cand v Ev) as [Hl Hr].
    pose proof (ok_data_len s Hs) as Hdl.
    pose proof (unpack_offset_u32 v) as Ho. pose proof (unpack_length_u32 v) as Hlen.
    unfold is_u32 in *.
    rewrite u32_id by (unfold is_u32, maxUint32 in *; lia).
    destruct (for_loop_inv (fun _ c => search_inv s c)
                (Z.to_nat (unpack_offset v + unpack_length v - unpack_offset v))
                (unpack_offset v) (processPosting s k cand) cp1)
      as (cp2 & E & H2); [done| |by exists cp2].
    intros j c Hj Hc.
    destruct (processPosting_total s k cand j c Hs Hc) as [c' Ec]; [lia|].
    exists c'. split; [done|]. by eapply processPosting_search_inv. }
  rewrite bind_Val.
  destruct (_ && _); [|by eexists].
  destruct (_ && _); [by eexists|].
  destruct (addEditDistance_total s cand cp2 Hcp2) as (cp3 & -> & Hcp3).
  rewrite bind_Val. by eexists.
Qed.

Lemma processCandidate_returns pre s k fuel : forall cp,
  store_ok s -> search_inv s cp ->
  queue_inv pre cp -> 0 <= candidatePointer cp ->
  Z.of_nat (universe_size (unicode cp) pre) + 2 <= int_max ->
  (universe_size (unicode cp) pre + 2 <= fuel + Z.to_nat (candidatePointer cp))%nat ->
  exists cp', processCandidate fuel s k cp = Val cp'.
Proof.
  induction fuel as [|fuel IH]; intros cp Hs Hcp Hq Hp Hmax Hfuel;
    pose proof (queue_inv_size pre cp Hq) as Hsz; cbn [processCandidate];
    destruct (candidatePointer cp <? len (candidates cp)) eqn:E; try (by eexists);
    apply Z.ltb_lt in E.
  - unfold len in E. lia.
  - destruct (processOne_total s k cp Hs Hcp) as ([cp'|cp'] & E1 & Hcp'); [lia| |];
      rewrite E1, bind_Val; [|by eexists].
    unfold len in E.
    destruct (processOne_queue pre s k cp cp' Hq Hp) as (Hq' & Hp' & Hu'); [lia|done|].
    apply IH; rewrite ?Hu'; [done|done|done|lia|done|lia].
Qed.

Lemma checkExactMatch_total s p v cp :
  store_inv s -> exists cp' em, checkExactMatch s p v cp = Val (cp', em).
Proof.
  intros Hs. unfold checkExactMatch.
  destruct (Words s !! p) as [idx|] eqn:E; [|by eexists _, _].
  destruct (inv_Words s Hs p idx E) as [Hidx _].
  destruct (rd_total (counts s) idx Hidx) as [c ->]. rewrite bind_Val. cbv zeta.
  destruct (_ && _); by eexists _, _.
Qed.

Lemma getOriginPrefix_total s cp :
  0 <= PrefixLength s ->
  phraseLen cp = (if unicode cp then len (phraseRunes cp) else len (phrase cp)) ->
  exists pre, getOriginPrefix s cp = Val pre.
Proof.
  intros HP Hl. unfold getOriginPrefix.
  destruct (Z.ltb_spec (PrefixLength s) (phraseLen cp)); [|by eexists].
  destruct (unicode cp).
  - rewrite slice_take by lia. rewrite bind_Val. by eexists.
  - rewrite slice_take by lia. by eexists.
Qed.

Lemma Lookup_returns_aux fuel s p v k :
  store_ok s ->
  len p + MaxDictionaryEditDistance s + 2 <= int_max ->
  Z.min (len p) (PrefixLength s) <= 62 ->
  (2 ^ Z.to_nat (Z.min (len p) (PrefixLength s)) + 2 <= fuel)%nat ->
  exists s' r, Lookup fuel s p v k = Val (s', r).
Proof.
  intros Hs Hlen Hn Hfuel. unfold Lookup.
  destruct (Z.ltb_spec (MaxDictionaryEditDistance s) k) as [Hk|Hk]; [by eexists _, _|].
  destruct (if decide (v = Top) then _ else _) as [c [item|]]; [by eexists _, _|].
  set (cp0 := acquireCandidateProcessor k v p).
  destruct (_ <? _); [by eexists _, _|].
  assert (store_ok (set_cache s c)) as Hs'.
  { destruct Hs as [H1 H2 H3 H4 H5]. split; [|split|..]; try done.
    - by destruct H1.
    - intros d v' Hd. by apply (del_range s H2 d).
    - intros d d' v1 v2 Hne E E'. by apply (del_disjoint s H2 d d'). }
  destruct (checkExactMatch_total (set_cache s c) p v cp0 (ok_inv _ Hs'))
    as (cp1 & em & E1). rewrite E1, bind_Val.
  apply checkExactMatch_fields in E1.
  destruct (shouldStop em); [by eexists _, _|]. destruct (_ =? _); [by eexists _, _|].
  assert (phrase cp1 = p /\ unicode cp1 = negb (isASCII p) /\
          candidates cp1 = [] /\ consideredDeletes cp1 = ∅ /\
          candidatePointer cp1 = 0 /\
          phraseLen cp1 = (if unicode cp1 then len (runes p) else len p) /\
          (unicode cp1 = true -> phraseRunes cp1 = runes p) /\
          phraseRunes cp1 = (if unicode cp1 then runes p else []) /\
          maxEditDistance2 cp1 = k)
    as (F1 & F2 & F3 & F4 & F5 & F6 & F7 & F8 & F9).
  { rewrite E1. cbn. destruct (isASCII p); cbn; done. }
  clear E1. set (cp2 := set_consideredSuggestions cp1 _).
  pose proof (inv_max _ (ok_inv _ Hs)) as HM.
  pose proof (inv_prefix _ (ok_inv _ Hs)) as HP.
  destruct (getOriginPrefix_total (set_cache s c) cp2) as [pre E2].
  { cbn. lia. }
  { change (phraseLen cp2) with (phraseLen cp1).
    change (unicode cp2) with (unicode cp1).
    change (phraseRunes cp2) with (phraseRunes cp1).
    change (phrase cp2) with (phrase cp1).
    rewrite F6, F1. destruct (unicode cp1); [by rewrite F7|done]. }
  rewrite E2, bind_Val.
  apply getOriginPrefix_size in E2;
    [|change (phraseLen cp2) with (phraseLen cp1);
      change (unicode cp2) with (unicode cp1);
      change (phrase cp2) with (phrase cp1); by rewrite F1
     |change (phraseRunes cp2) with (phraseRunes cp1);
      change (unicode cp2) with (unicode cp1);
      change (phrase cp2) with (phrase cp1); by rewrite F1].
  change (phrase cp2) with (phrase cp1) in E2.
  change (unicode cp2) with (unicode cp1) in E2.
  rewrite F1 in E2. change (PrefixLength (set_cache s c)) with (PrefixLength s) in E2.
  set (cp3 := set_candidates cp2 _).
  assert (universe_size (unicode cp3) pre <=
          2 ^ Z.to_nat (Z.min (len p) (PrefixLength s)))%nat as Hu.
  { change (unicode cp3) with (unicode cp1).
    destruct (unicode cp1); [by apply universe_size_runes|by apply universe_size_bytes]. }
  destruct (processCandidate_returns pre (set_cache s c) k fuel cp3) as [cp4 E4];
    [done| | | | | |].
  - split.
    + change (phraseLen cp3) with (phraseLen cp1).
      change (unicode cp3) with (unicode cp1).
      change (phraseRunes cp3) with (phraseRunes cp1).
      change (phrase cp3) with (phrase cp1).
      rewrite F6, F1. destruct (unicode cp1); [by rewrite F7|done].
    + change (phrase cp3) with (phrase cp1). rewrite F1. cbn. lia.
    + change (phraseRunes cp3) with (phraseRunes cp1).
      change (phrase cp3) with (phrase cp1). rewrite F8, F1.
      destruct (unicode cp1); [apply len_runes|apply len_nonneg].
    + change (maxEditDistance2 cp3) with (maxEditDistance2 cp1). rewrite F9. cbn. lia.
  - unfold queue_inv. change (unicode cp3) with (unicode cp1).
    destruct (unicode cp1); (split; [|split]); subst cp3; cbn; rewrite ?F3, ?F4; cbn.
    + apply Forall_singleton. unfold good. reflexivity.
    + apply empty_subseteq.
    + lia.
    + apply Forall_singleton. unfold good. reflexivity.
    + apply empty_subseteq.
    + lia.
  - change (candidatePointer cp3) with (candidatePointer cp1). lia.
  - assert (Z.to_nat (Z.min (len p) (PrefixLength s)) <= 62)%nat as Hn' by lia.
    apply pow2_le_int_max in Hn'. lia.
  - lia.
  - rewrite E4, bind_Val. cbv zeta. destruct v; try (by eexists _, _).
    destruct (suggestions _); by eexists _, _.
Qed.

(** *** The stores a program builds are well formed *)

Lemma slice_inv {A} (l : list A) lo hi x :
  slice l lo hi = Val x ->
  0 <= lo <= hi /\ hi <= len l /\ x = take (Z.to_nat (hi - lo)) (drop (Z.to_nat lo) l).
Proof.
  unfold slice. case_decide as Hd; [|done]. intros E. apply Val_inj in E.
  destruct Hd. by subst.
Qed.

Lemma addDelete_data (P : Z -> Prop) index s d s' :
  addDelete index s d = Val s' -> P 0 -> P index -> Forall P (DeletesData s) ->
  Forall P (DeletesData s') /\ len (DeletesData s') = len (DeletesData s) + 1 /\
  words s' = words s.
Proof.
  intros H H0 Hi Hd. unfold addDelete in H. cbv zeta in H.
  destruct (DeletesIdx s !! d) as [v|].
  - apply bind_Val_inv in H as (src & E1 & H).
    apply bind_Val_inv in H as (d1 & E2 & H).
    apply bind_Val_inv in H as (d2 & E3 & H).
    apply Val_inj in H. subst s'. cbn [DeletesData set_Deletes words].
    unfold slice_from in E1. apply slice_inv in E1 as (Hip & _ & ->).
    unfold copy_at in E2. apply bind_Val_inv in E2 as (dst & E2 & E2').
    unfold slice_from in E2. apply slice_inv in E2 as (Hat & _ & ->).
    apply Val_inj in E2'. subst d1.
    unfold wr in E3. case_decide as Hw; [|done]. apply Val_inj in E3. subst d2.
    assert (Forall P (DeletesData s ++ [0])) as Hd0
      by (apply Forall_app; split; [done|by apply Forall_singleton]).
    split; [|split; [|done]].
    + apply Forall_insert; [|done].
      repeat apply Forall_app_2; repeat (apply Forall_take || apply Forall_drop); done.
    + rewrite len_insert. unfold len in *.
      rewrite !length_app, !length_take, !length_drop, !length_take, !length_drop,
        !length_app in *. cbn [length] in *. lia.
  - apply Val_inj in H. subst s'. cbn [DeletesData set_Deletes words].
    split; [|split; [|done]].
    + apply Forall_app; split; [done|by apply Forall_singleton].
    + unfold len. rewrite length_app. cbn. lia.
Qed.

Lemma foldM_addDelete_data (P : Z -> Prop) index l : forall s s',
  foldM (addDelete index) s l = Val s' -> P 0 -> P index -> Forall P (DeletesData s) ->
  Forall P (DeletesData s') /\ len (DeletesData s') = len (DeletesData s) + len l /\
  words s' = words s.
Proof.
  induction l as [|d l IH]; intros s s' H H0 Hi Hd; cbn [foldM] in H.
  - apply Val_inj in H. subst s'. unfold len. cbn. split; [done|]. split; [lia|done].
  - apply bind_Val_inv in H as (s1 & E1 & H).
    apply (addDelete_data P) in E1 as (F1 & L1 & W1); [|done..].
    apply IH in H as (F2 & L2 & W2); [|done..].
    split; [done|]. split; [|congruence].
    rewrite L2, L1. unfold len. cbn [length]. lia.
Qed.

Lemma addWordEntry_Deletes s k count s' ok :
  addWordEntry s k count = Val (s', ok) ->
  DeletesIdx s' = DeletesIdx s /\ DeletesData s' = DeletesData s.
Proof.
  intros H. unfold addWordEntry in H.
  destruct (_ && _); [apply Val_inj in H; by inversion H|].
  apply bind_Val_inv in H as (o & E & H). unfold addWordEntry_merge in E.
  assert (match o with inl (s1, _) | inr s1 =>
            DeletesIdx s1 = DeletesIdx s /\ DeletesData s1 = DeletesData s end) as Ho.
  { destruct (1 <? CountThreshold s).
    - destruct (BelowThresholdWords s !! k) as [c|].
      + destruct (_ <? _); apply Val_inj in E; by subst o.
      + apply Val_inj in E. by subst o.
    - destruct (Words s !! k) as [idx|].
      + apply bind_Val_inv in E as (c & _ & E).
        apply bind_Val_inv in E as (cs & _ & E). apply Val_inj in E. by subst o.
      + apply Val_inj in E. by subst o. }
  destruct o as [[s1 c]|s1].
  - destruct (c <? CountThreshold s1).
    + apply Val_inj in H. inversion H. by subst.
    + cbv zeta in H. apply Val_inj in H.
      match type of H with context [if ?b then _ else _] => destruct b end;
        inversion H; by subst.
  - apply Val_inj in H. inversion H. by subst.
Qed.

Lemma deletes_inv_ext s s' :
  DeletesIdx s' = DeletesIdx s -> DeletesData s' = DeletesData s ->
  deletes_inv s -> deletes_inv s'.
Proof.
  intros E1 E2 [H1 H2]. split; rewrite ?E1, ?E2; [done|]. intros d d'. apply H2.
Qed.

Lemma createDictionaryEntry_store_ok s k count s' ok :
  is_u32 count -> len k < int_max ->
  createDictionaryEntry s k count = Val (s', ok) ->
  len (DeletesData s') <= maxUint32 ->
  store_ok s -> len (words s) <= len (DeletesData s) ->
  store_ok s' /\ len (words s') <= len (DeletesData s').
Proof.
  intros Hc Hk H Hfin [Hs Hd Hdl Hpost Hw] Hwd.
  pose proof (createDictionaryEntry_inv s k count s' ok Hc Hs H) as Hs'.
  unfold createDictionaryEntry in H.
  apply bind_Val_inv in H as ([s1 ok1] & Ea & H).
  pose proof (addWordEntry_inv s k count s1 ok1 Hc Hs Ea) as Hs1.
  destruct (addWordEntry_Deletes s k count s1 ok1 Ea) as [Ei Ed].
  pose proof (deletes_inv_ext s s1 Ei Ed Hd) as Hd1.
  apply addWordEntry_cases in Ea as [(-> & Ew & _)|(-> & Ew & _)]; cbn [negb] in H.
  - apply Val_inj in H. inversion H. subst s' ok.
    split; [|by rewrite Ew, Ed].
    split; rewrite ?Ew, ?Ed; done.
  - apply bind_Val_inv in H as (s2 & Ef & H). apply Val_inj in H. inversion H. subst s2 ok.
    unfold addDeletesForIndex in Ef. apply bind_Val_inv in Ef as (es & Ee & Ef).
    pose proof (inv_max s1 Hs1) as HM. pose proof (inv_prefix s1 Hs1) as HP.
    destruct (editsPrefix_spec s1 ltac:(lia) ltac:(lia) k)
      as (tk & es' & _ & Ee' & Htk & _).
    rewrite Ee in Ee'. apply Val_inj in Ee'. subst es'.
    assert (1 <= len (elements es)) as Hes.
    { apply elem_of_elements in Htk. destruct (elements es); [by inversion Htk|].
      unfold len. cbn. lia. }
    pose proof (len_nonneg (words s)) as Hw0.
    assert (len (words s1) = len (words s) + 1) as Hlw
      by (rewrite Ew; unfold len; rewrite length_app; cbn; lia).
    set (P := fun i : Z => 0 <= i < len (words s1)).
    destruct (foldM_addDelete_data (fun _ => True) _ _ _ _ Ef) as (_ & L & _);
      [done|done|by apply Forall_true|].
    destruct (foldM_addDelete_data P _ _ _ _ Ef) as (F & _ & W).
    + subst P. cbn. lia.
    + subst P. cbn. rewrite Ed in L. rewrite Hlw.
      rewrite u32_id by (unfold is_u32, maxUint32 in *; lia). lia.
    + rewrite Ed. eapply Forall_impl; [exact Hpost|]. subst P. cbn. intros i. lia.
    + destruct (foldM_addDelete_postings (u32 (len (words s1) - 1)) (elements es) s1)
        as (s'' & E'' & Hd'' & _); [apply NoDup_elements|done|lia|].
      rewrite Ef in E''. apply Val_inj in E''. subst s''.
      split; [|rewrite W, L, Ed; lia].
      split; try done.
      * by rewrite W.
      * rewrite W, Ew. apply Forall_app; split; [done|by apply Forall_singleton].
Qed.

Lemma createDictionaryEntry_data_mono s k count s' ok :
  createDictionaryEntry s k count = Val (s', ok) ->
  len (DeletesData s) <= len (DeletesData s').
Proof.
  intros H. unfold createDictionaryEntry in H.
  apply bind_Val_inv in H as ([s1 ok1] & Ea & H).
  destruct (addWordEntry_Deletes s k count s1 ok1 Ea) as [_ Ed].
  destruct ok1; cbn [negb] in H.
  - apply bind_Val_inv in H as (s2 & Ef & H). apply Val_inj in H. inversion H. subst s2 ok.
    unfold addDeletesForIndex in Ef. apply bind_Val_inv in Ef as (es & _ & Ef).
    destruct (foldM_addDelete_data (fun _ => True) _ _ _ _ Ef) as (_ & L & _);
      [done|done|by apply Forall_true|].
    rewrite L, Ed. pose proof (len_nonneg (elements es)). lia.
  - apply Val_inj in H. inversion H. subst. rewrite Ed. lia.
Qed.

Lemma foldM_addEntry_data_mono entries : forall s s',
  foldM addEntry s entries = Val s' -> len (DeletesData s) <= len (DeletesData s').
Proof.
  induction entries as [|e entries IH]; intros s s' H; cbn [foldM] in H.
  - apply Val_inj in H. subst. lia.
  - apply bind_Val_inv in H as (s1 & E1 & H). unfold addEntry in E1.
    apply bind_Val_inv in E1 as ([s1' ok] & E1 & E1'). apply Val_inj in E1'. subst s1'.
    apply createDictionaryEntry_data_mono in E1. apply IH in H. lia.
Qed.

Lemma foldM_addEntry_store_ok entries : forall s s',
  Forall (fun e : list ascii * Z => is_u32 e.2 /\ len e.1 < int_max) entries ->
  foldM addEntry s entries = Val s' ->
  len (DeletesData s') <= maxUint32 ->
  store_ok s -> len (words s) <= len (DeletesData s) ->
  store_ok s'.
Proof.
  induction entries as [|e entries IH]; intros s s' He H Hfin Hs Hwd; cbn [foldM] in H.
  - apply Val_inj in H. by subst.
  - apply bind_Val_inv in H as (s1 & E1 & H). unfold addEntry in E1.
    apply bind_Val_inv in E1 as ([s1' ok] & E1 & E1'). apply Val_inj in E1'. subst s1'.
    apply Forall_cons in He as [[Hc Hk] He].
    pose proof (foldM_addEntry_data_mono _ _ _ H) as Hm.
    apply createDictionaryEntry_store_ok in E1 as [Hs1 Hwd1]; [|done|done|lia|done|done].
    by apply (IH s1).
Qed.

Lemma buildDictionary_store_ok_aux o entries s :
  options_ok o ->
  Forall (fun e : list ascii * Z => is_u32 e.2 /\ len e.1 < int_max) entries ->
  buildDictionary o entries = Val s ->
  len (DeletesData s) <= maxUint32 ->
  store_ok s.
Proof.
  intros Ho He H Hfin. unfold buildDictionary in H.
  destruct (NewSymSpell o) as [s0|] eqn:E0; [|done].
  pose proof (NewSymSpell_inv o s0 Ho E0) as Hs0.
  assert (DeletesIdx s0 = ∅ /\ DeletesData s0 = [] /\ words s0 = []) as (Ei & Ed & Ew).
  { unfold NewSymSpell in E0. repeat case_match; try done. by inversion E0. }
  apply (foldM_addEntry_store_ok entries s0); try done.
  - split; [done|by apply deletes_inv_empty|..]; rewrite ?Ed, ?Ew; done.
  - rewrite Ed, Ew. done.
Qed.

Lemma store_ok_set_cache s c : store_ok s -> store_ok (set_cache s c).
Proof.
  intros [H1 H2 H3 H4 H5]. split; [by apply store_inv_set_cache| |done..].
  split.
  - intros d v Hd. by apply (del_range s H2 d).
  - intros d d' v1 v2 Hne E E'. by apply (del_disjoint s H2 d d').
Qed.

Lemma helloStore_ok : store_ok helloStore.
Proof.
  apply (buildDictionary_store_ok_aux DefaultOptions helloEntries).
  - apply DefaultOptions_ok.
  - repeat constructor; try (by apply is_u32_dec_true); by vm_compute.
  - vm_compute. reflexivity.
  - by vm_compute.
Qed.

(** X22.  A store made by [NewSymSpell] and filled by
    [createDictionaryEntry], one entry after the other, has a well
    formed delete index as long as that index holds no more than
    [maxUint32] postings: the runs of [DeletesIdx] are not empty, lie
    inside [DeletesData] and do not overlap, every posting is the
    position of a term, and the term map points inside the count
    array. *)
Theorem buildDictionary_store_ok o entries s :
  options_ok o ->
  Forall (fun e : list ascii * Z => is_u32 e.2 /\ len e.1 < int_max) entries ->
  buildDictionary o entries = Val s ->
  len (DeletesData s) <= maxUint32 ->
  store_ok s.
Proof. apply buildDictionary_store_ok_aux. Qed.

Lemma buildDictionary_store_ok_witness : store_ok helloStore.
Proof.
  apply (buildDictionary_store_ok DefaultOptions helloEntries).
  - apply DefaultOptions_ok.
  - repeat constructor; try (by apply is_u32_dec_true); by vm_compute.
  - vm_compute. reflexivity.
  - by vm_compute.
Defined.

(** X23.  On a well formed store [Lookup] returns: no index is out
    of range and no slice bound is wrong, whatever the phrase, the
    verbosity and the distance bound, for a phrase short enough that
    the kernel cannot wrap; and the store it leaves is well formed
    again.  (The fuel only has to cover the candidates of the prefix.) *)
Theorem Lookup_returns fuel s p v k :
  store_ok s ->
  len p + MaxDictionaryEditDistance s + 2 <= int_max ->
  Z.min (len p) (PrefixLength s) <= 62 ->
  (2 ^ Z.to_nat (Z.min (len p) (PrefixLength s)) + 2 <= fuel)%nat ->
  exists s' r, Lookup fuel s p v k = Val (s', r) /\ store_ok s'.
Proof.
  intros Hs Hlen Hn Hfuel.
  destruct (Lookup_returns_aux fuel s p v k Hs Hlen Hn Hfuel) as (s' & r & E).
  exists s', r. split; [done|].
  rewrite (Lookup_store _ _ _ _ _ _ _ E). by apply store_ok_set_cache.
Qed.

Lemma Lookup_returns_witness :
  exists s' r, Lookup 40 helloStore (str "hexxo") Closest 2 = Val (s', r) /\ store_ok s'.
Proof.
  apply Lookup_returns.
  - apply helloStore_ok.
  - vm_compute. discriminate.
  - vm_compute. discriminate.
  - vm_compute. lia.
Defined.
